(** * Draft lottery, draft progression and schedule assignment

    A shallow embedding of the draft module ([genOrder], [updateChances],
    [genOrderFantasy], [getRookieSalaries], [selectPlayer],
    [untilUserOrEnd]) and of [setSchedule], with the properties the
    specification states about them.

    Conventions of the embedding:
    - JavaScript numbers are exact rationals ([Q]); integer-valued
      quantities that are only counted or compared (team ids, rounds,
      picks, seasons) are [Z]; array positions and loop counters are [nat].
      NaN, infinities and rounding of doubles are outside the model.
    - A call that throws (reading a property of [undefined], [reduce] of an
      empty array) returns [Err TypeError].
    - The random source is an oracle: a function from the number of the
      call to the value that call returns. *)

From Stdlib Require Import ZArith QArith Qround Qabs Lia Lqa.
From stdpp Require Import base option list gmap sets sorting.

Open Scope Z_scope.

(** ** Results of calls that can throw *)

Inductive error : Type :=
| TypeError   (* property access on undefined, reduce of an empty array *)
| OutOfFuel   (* the bound given to an unbounded loop of the model was reached *)
| Unmodelled. (* sparse array or NaN: outside the embedding *)

Inductive res (A : Type) : Type :=
| Ok (a : A)
| Err (e : error).
Arguments Ok {A} a.
Arguments Err {A} e.

Definition res_bind {A B} (r : res A) (k : A -> res B) : res B :=
  match r with
  | Ok a => k a
  | Err e => Err e
  end.

Notation "x <-- r ;; k" := (res_bind r (fun x => k))
  (at level 100, r at next level, right associativity).

Definition of_option {A} (o : option A) : res A :=
  match o with
  | Some a => Ok a
  | None => Err TypeError
  end.

(** ** setSchedule (worker/core/season/setSchedule.ts) *)

Module Schedule.

Record ScheduleEntry := {
  day : nat;
  homeTid : Z;
  awayTid : Z;
}.

Definition isAllStar (m : Z * Z) : bool :=
  bool_decide (m.2 = -2) && bool_decide (m.1 = -1).

(** The body of the [for ... of tids] loop, with the loop variables
    [dayTids], [day] and [prevDayAllStarGame] passed along; the result is
    the list of records added to the (just cleared) schedule store. *)
Fixpoint assignDays (dayTids : gset Z) (day : nat) (prevDayAllStarGame : bool)
    (tids : list (Z * Z)) : list ScheduleEntry :=
  match tids with
  | [] => []
  | (homeTid, awayTid) :: rest =>
      let allStarGame := isAllStar (homeTid, awayTid) in
      let newDay :=
        bool_decide (homeTid ∈ dayTids) || bool_decide (awayTid ∈ dayTids)
        || allStarGame || prevDayAllStarGame in
      let day' := if newDay then S day else day in
      let dayTids0 := if newDay then ∅ else dayTids in
      let dayTids' := dayTids0 ∪ {[homeTid]} ∪ {[awayTid]} in
      {| day := day'; homeTid := homeTid; awayTid := awayTid |}
        :: assignDays dayTids' day' allStarGame rest
  end.

Definition setSchedule (tids : list (Z * Z)) : list ScheduleEntry :=
  assignDays ∅ 1%nat false tids.

End Schedule.

(** ** JavaScript numbers and arrays *)

Module JS.

Definition Qltb (a b : Q) : bool := negb (Qle_bool b a).

(** Truncation towards zero, and the [%] operator: the result has the sign
    of the dividend. *)
Definition Qtrunc (q : Q) : Z := Z.quot (Qnum q) (Zpos (Qden q)).

Definition rem (a b : Q) : Q := (a - b * inject_Z (Qtrunc (a / b)))%Q.

(** [Math.round]: the nearest integer, halves towards plus infinity. *)
Definition Math_round (x : Q) : Q := inject_Z (Qfloor (x + (1 # 2))%Q).

(** [Math.floor(Math.abs(x))] as an array position. *)
Definition floor_abs (x : Q) : nat := Z.to_nat (Qfloor (Qabs x)).

(** [a.reduce((x, y) => x + y)]: throws on the empty array. *)
Definition reduce_add (l : list Q) : res Q :=
  match l with
  | [] => Err TypeError
  | x :: xs => Ok (foldl Qplus x xs)
  end.

(** [a.slice(b, e)] for positions [0 <= b <= e]. *)
Definition slice (b e : nat) (l : list Q) : list Q := take (e - b) (drop b l).

(** [a[i] = v]: inside the array the element is replaced, at the end the
    array grows by one, further out it would become sparse. *)
Definition array_set (i : nat) (v : Q) (l : list Q) : res (list Q) :=
  if decide (i < length l)%nat then Ok (<[i := v]> l)
  else if decide (i = length l) then Ok (l ++ [v])
  else Err Unmodelled.

(** [a.findIndex(P)]; [None] stands for -1. *)
Fixpoint findIndex {A} (P : A -> bool) (l : list A) : option nat :=
  match l with
  | [] => None
  | x :: xs => if P x then Some 0%nat else S <$> findIndex P xs
  end.

(** [a.sort(cmp)], a stable sort: [x] is placed before [y] when
    [cmp x y <= 0], and elements the comparator ties keep the order they
    had in the array. The comparators of the draft module are total
    preorders, for which this fixes the result. [insert_sorted] puts [x]
    in front of the first element it does not have to follow; [sort]
    inserts the elements from the last to the first. *)
Fixpoint insert_sorted {A} (cmp : A -> A -> Q) (x : A) (l : list A) : list A :=
  match l with
  | [] => [x]
  | y :: l' =>
      if Qle_bool (cmp x y) 0 then x :: y :: l'
      else y :: insert_sorted cmp x l'
  end.

Definition sort {A} (cmp : A -> A -> Q) (l : list A) : list A :=
  foldr (insert_sorted cmp) [] l.

(** A [while (cond) body] loop; [fuel] bounds the number of iterations of
    the model, and reaching it is reported as [OutOfFuel]. *)
Fixpoint while {S} (fuel : nat) (cond : S -> bool) (body : S -> res S) (s : S)
    : res S :=
  if cond s then
    match fuel with
    | O => Err OutOfFuel
    | Datatypes.S fuel' => s' <-- body s ;; while fuel' cond body s'
    end
  else Ok s.

End JS.

(** ** The draft module *)

Module Draft.

(** Constants of [common]: their values are not part of the sources at
    hand, so the embedding is parametric in them. *)
Record PHASE_t := {
  FANTASY_DRAFT : Z;
  PLAYOFFS : Z;
  AFTER_DRAFT : Z;
  FREE_AGENCY : Z;
}.

Record PLAYER_t := {
  UNDRAFTED : Z;
  UNDRAFTED_FANTASY_TEMP : Z;
  FREE_AGENT : Z;
}.

(** The league-global parameters [g]. [nextPhase = None] is [null]. *)
Record G := {
  PHASE : PHASE_t;
  PLAYER : PLAYER_t;
  numTeams : Z;
  season : Z;
  phase : Z;
  nextPhase : option Z;
  userTid : Z;
  userTids : list Z;
  autoPlaySeasons : Q;
  minContract : Q;
  maxContract : Q;
}.

Record TeamFiltered := {
  t_tid : Z;
  cid : Z;
  winp : Q;
  playoffRoundsWon : Z;
  randVal : Z;
}.

Definition set_randVal (v : Z) (t : TeamFiltered) : TeamFiltered :=
  {| t_tid := t_tid t; cid := cid t; winp := winp t;
     playoffRoundsWon := playoffRoundsWon t; randVal := v |}.

Record DraftPick := {
  dpid : Z;
  dp_tid : Z;
  dp_originalTid : Z;
  dp_round : Z;
  dp_season : Z;
}.

Record PickRealized := {
  round : Z;
  pick : Z;
  tid : Z;
  originalTid : Z;
}.

Record Ratings := {
  pot : Z;
  ovr : Z;
  skills : list Z;
}.

Record DraftInfo := {
  d_round : Z;
  d_pick : Z;
  d_tid : Z;
  d_year : Z;
  d_originalTid : Z;
  d_pot : Z;
  d_ovr : Z;
  d_skills : list Z;
}.

(** [amount = None] is [undefined], the value of a read past the end of
    the salary table. *)
Record Contract := {
  amount : option Q;
  exp : Z;
}.

Record Player := {
  pid : Z;
  p_tid : Z;
  value : Q;
  ratings : list Ratings;
  draft : option DraftInfo;
  contract : option Contract;
  statsRows : list bool;
}.

(** The object stores the draft reads and writes. *)
Record DB := {
  draftPicks : list DraftPick;
  nextDpid : Z;
  draftOrder : list PickRealized;
  players : list Player;
  lastDbChange : nat;
}.

(** The random source: the [k]-th call of each generator. *)
Record Random := {
  shuffle : nat -> list Z -> list Z;
  randInt : nat -> Z;
  gauss : nat -> Q;
}.

(** *** updateChances *)

(** [_.countBy(teams, t => t.seasonAttrs.winp)] followed by [_.pairs]: one
    pair per distinct win percentage with the number of teams that have it.
    The enumeration order of the pairs is immaterial, because the keys are
    pairwise different and [_.sortBy] orders them next. *)
Fixpoint countBy_add (w : Q) (acc : list (Q * nat)) : list (Q * nat) :=
  match acc with
  | [] => [(w, 1%nat)]
  | (k, c) :: rest =>
      if Qeq_bool k w then (k, S c) :: rest else (k, c) :: countBy_add w rest
  end.

Definition countBy (teams : list TeamFiltered) : list (Q * nat) :=
  foldl (fun acc t => countBy_add (winp t) acc) [] teams.

(** [_.sortBy(wps, x => Number(x[0]))] *)
Definition sortBy_key (wps : list (Q * nat)) : list (Q * nat) :=
  merge_sort (fun x y => Is_true (Qle_bool x.1 y.1)) wps.

(** The inner [for (i = tc, j = tc + val; i < j; i++)] loop; [n] is the
    number of iterations left, [j - i]. *)
Fixpoint spread (n i : nat) (newVal remainder : Q) (chances : list Q)
    : res (list Q) :=
  match n with
  | O => Ok chances
  | S n' =>
      let v := if JS.Qltb 0 remainder then (newVal + 1)%Q else newVal in
      let remainder' :=
        if JS.Qltb 0 remainder then (remainder - 1)%Q else remainder in
      chances' <-- JS.array_set i v chances ;;
      spread n' (S i) newVal remainder' chances'
  end.

(** The body of [if (val > 1) { ... }]: returns the clipped [val] and the
    updated array. The loop leaves as soon as [tc] reaches the length of
    the array, so [tc] is below it here and the subtractions stay within
    the naturals. On whole numbers the sum, the remainder and the quotient
    of the final pass are exact in the source as they are here; in the pass
    that is not final the source stores the quotient rounded to a double. *)
Definition averageGroup (isFinal : bool) (tc val : nat) (chances : list Q)
    : res (nat * list Q) :=
  let val :=
    if (length chances <=? tc + val)%nat
    then (val - (tc + val - length chances))%nat else val in
  total <-- JS.reduce_add (JS.slice tc (tc + val) chances) ;;
  let remainder :=
    if isFinal then JS.rem total (inject_Z (Z.of_nat val)) else 0%Q in
  let newVal := ((total - remainder) / inject_Z (Z.of_nat val))%Q in
  chances' <-- spread val tc newVal remainder chances ;;
  Ok (val, chances').

(** The [for (k = 0; k < wps.length; k++)] loop over the sorted groups. *)
Fixpoint updateChances_loop (isFinal : bool) (wps : list (Q * nat)) (tc : nat)
    (chances : list Q) : res (list Q) :=
  match wps with
  | [] => Ok chances
  | (_, val) :: rest =>
      r <-- (if (1 <? val)%nat then averageGroup isFinal tc val chances
             else Ok (val, chances)) ;;
      let tc' := (tc + r.1)%nat in
      if (length r.2 <=? tc')%nat then Ok r.2
      else updateChances_loop isFinal rest tc' r.2
  end.

Definition updateChances (chances : list Q) (teams : list TeamFiltered)
    (isFinal : bool) : res (list Q) :=
  updateChances_loop isFinal (sortBy_key (countBy teams)) 0 chances.

(** *** lotterySort *)

Definition madePlayoffs (t : TeamFiltered) : bool := (0 <=? playoffRoundsWon t).

Definition lotteryCmp (a b : TeamFiltered) : Q :=
  let r := 0%Q in
  let r := if madePlayoffs a && negb (madePlayoffs b) then 1%Q else r in
  let r := if negb (madePlayoffs a) && madePlayoffs b then (-1)%Q else r in
  let r := if Qeq_bool r 0 then (winp a - winp b)%Q else r in
  let r := if Qeq_bool r 0 then inject_Z (randVal a - randVal b) else r in
  r.

(** [teams[i].randVal = randValues[i]] for every team; a team past the end
    of [randValues] would get [undefined]. *)
Fixpoint assignRandVals (randValues : list Z) (teams : list TeamFiltered)
    {struct teams} : res (list TeamFiltered) :=
  match teams with
  | [] => Ok []
  | t :: ts =>
      match randValues with
      | [] => Err Unmodelled
      | v :: vs =>
          ts' <-- assignRandVals vs ts ;;
          Ok (set_randVal v t :: ts')
      end
  end.

Definition lotterySort (g : G) (rnd : Random) (teams : list TeamFiltered)
    : res (list TeamFiltered) :=
  let randValues := shuffle rnd 0%nat (seqZ 0 (numTeams g)) in
  teams' <-- assignRandVals randValues teams ;;
  Ok (JS.sort lotteryCmp teams').

(** *** The lottery of genOrder *)

Definition baseChances : list Q :=
  [250; 199; 156; 119; 88; 63; 43; 28; 17; 11; 8; 7; 6; 5]%Q.

(** [for (i = 1; i < chances.length; i++) chances[i] += chances[i - 1]] *)
Fixpoint cumsum_from (prev : Q) (l : list Q) : list Q :=
  match l with
  | [] => []
  | x :: xs => (x + prev)%Q :: cumsum_from (x + prev)%Q xs
  end.

Definition cumsum (l : list Q) : list Q :=
  match l with
  | [] => []
  | x :: xs => x :: cumsum_from x xs
  end.

Record DrawState := {
  ds_teams : list TeamFiltered;
  ds_firstThree : list nat;
  ds_draws : nat;   (* calls of random.randInt so far *)
}.

(** The body of [while (firstThree.length < 3)]. *)
Definition drawStep (rnd : Random) (chances : list Q) (s : DrawState)
    : res DrawState :=
  let draw := randInt rnd (ds_draws s) in
  i <-- of_option (JS.findIndex (fun c => JS.Qltb (inject_Z draw) c) chances) ;;
  if bool_decide (i ∈ ds_firstThree s) then
    Ok {| ds_teams := ds_teams s; ds_firstThree := ds_firstThree s;
          ds_draws := S (ds_draws s) |}
  else
    t <-- of_option (ds_teams s !! i) ;;
    Ok {| ds_teams := <[i := set_randVal (randVal t - 30) t]> (ds_teams s);
          ds_firstThree := ds_firstThree s ++ [i];
          ds_draws := S (ds_draws s) |}.

Record Lottery := {
  l_teams : list TeamFiltered;
  l_chancePct : list Q;
  l_firstThree : list nat;
}.

(** Lines "Draft lottery" to the end of the [while] loop of [genOrder]. *)
Definition lottery (g : G) (rnd : Random) (fuel : nat)
    (teams : list TeamFiltered) : res Lottery :=
  teams <-- lotterySort g rnd teams ;;
  chances <-- updateChances baseChances teams true ;;
  chanceTotal <-- JS.reduce_add chances ;;
  let chancePct := (fun c => (c / chanceTotal * 100)%Q) <$> chances in
  let chances := cumsum chances in
  s <-- JS.while fuel (fun s => (length (ds_firstThree s) <? 3)%nat)
          (drawStep rnd chances)
          {| ds_teams := teams; ds_firstThree := []; ds_draws := 0 |} ;;
  Ok {| l_teams := ds_teams s; l_chancePct := chancePct;
        l_firstThree := ds_firstThree s |}.

(** *** The draft pick store *)

(** Modelled from the spec: the object store behind [idb.cache] is not part
    of the sources at hand. Following section 6 of the specification it is
    a keyed collection: [add] stores a record under a fresh key, [delete]
    removes the record of a key, and [indexGetAll] returns the records with
    the given index value, here the season. *)
Definition indexGetAll_draftPicksBySeason (s : Z) (db : DB) : list DraftPick :=
  filter (fun dp => dp_season dp = s) (draftPicks db).

Definition add_draftPick (tid originalTid round season : Z) (db : DB) : DB :=
  {| draftPicks := draftPicks db ++
       [{| dpid := nextDpid db; dp_tid := tid; dp_originalTid := originalTid;
           dp_round := round; dp_season := season |}];
     nextDpid := nextDpid db + 1;
     draftOrder := draftOrder db;
     players := players db;
     lastDbChange := lastDbChange db |}.

Definition delete_draftPick (key : Z) (db : DB) : DB :=
  {| draftPicks := filter (fun dp => dpid dp ≠ key) (draftPicks db);
     nextDpid := nextDpid db;
     draftOrder := draftOrder db;
     players := players db;
     lastDbChange := lastDbChange db |}.

Definition put_draftOrder (order : list PickRealized) (db : DB) : DB :=
  {| draftPicks := draftPicks db;
     nextDpid := nextDpid db;
     draftOrder := order;
     players := players db;
     lastDbChange := lastDbChange db |}.

Definition genPicks (g : G) (season : Z) (db : DB) : DB :=
  foldl (fun db tid =>
           foldl (fun db round => add_draftPick tid tid round season db)
                 db [1; 2])
        db (seqZ 0 (numTeams g)).

(** *** genOrder *)

(** [draftPicksIndexed], indexed on [originalTid] and then on [round]. *)
Definition indexPicks (picks : list DraftPick) : gmap Z (gmap Z Z) :=
  foldl (fun idx dp =>
           let inner := default ∅ (idx !! dp_originalTid dp) in
           <[dp_originalTid dp := <[dp_round dp := dp_tid dp]> inner]> idx)
        ∅ picks.

(** [draftPicksIndexed[t][r].tid] *)
Definition pickOwner (idx : gmap Z (gmap Z Z)) (t r : Z) : res Z :=
  of_option (idx !! t ≫= fun inner => inner !! r).

(** "First round - lottery winners"; [i] is the loop index. *)
Fixpoint lotteryWinners (idx : gmap Z (gmap Z Z)) (teams : list TeamFiltered)
    (i : nat) (firstThree : list nat) : res (list PickRealized) :=
  match firstThree with
  | [] => Ok []
  | w :: ws =>
      t <-- of_option (teams !! w) ;;
      owner <-- pickOwner idx (t_tid t) 1 ;;
      rest <-- lotteryWinners idx teams (S i) ws ;;
      Ok ({| round := 1; pick := Z.of_nat i + 1; tid := owner;
             originalTid := t_tid t |} :: rest)
  end.

(** "First round - everyone else"; [ts] are the teams from index [i] on. *)
Fixpoint restOfRound1 (idx : gmap Z (gmap Z Z)) (firstThree : list nat)
    (i : nat) (ts : list TeamFiltered) (pick : Z) : res (list PickRealized) :=
  match ts with
  | [] => Ok []
  | t :: ts' =>
      if bool_decide (i ∈ firstThree) then
        restOfRound1 idx firstThree (S i) ts' pick
      else
        owner <-- pickOwner idx (t_tid t) 1 ;;
        rest <-- restOfRound1 idx firstThree (S i) ts' (pick + 1) ;;
        Ok ({| round := 1; pick := pick; tid := owner;
               originalTid := t_tid t |} :: rest)
  end.

Definition round2Cmp (a b : TeamFiltered) : Q :=
  let r := (winp a - winp b)%Q in
  if Qeq_bool r 0 then inject_Z (randVal b - randVal a) else r.

(** "Second round" *)
Fixpoint secondRound (idx : gmap Z (gmap Z Z)) (i : nat)
    (ts : list TeamFiltered) : res (list PickRealized) :=
  match ts with
  | [] => Ok []
  | t :: ts' =>
      owner <-- pickOwner idx (t_tid t) 2 ;;
      rest <-- secondRound idx (S i) ts' ;;
      Ok ({| round := 2; pick := Z.of_nat i + 1; tid := owner;
             originalTid := t_tid t |} :: rest)
  end.

(** [teams] is the result of [getCopy.teams] for the season. The calls of
    [logLotteryChances] and [logLotteryWinners] only append to the event
    log, and every lookup they make in [draftPicksIndexed] is made again
    by the first-round loops, so they are left out. *)
Definition genOrder (g : G) (rnd : Random) (fuel : nat)
    (teams : list TeamFiltered) (db : DB) : res DB :=
  lot <-- lottery g rnd fuel teams ;;
  let teams := l_teams lot in
  let firstThree := l_firstThree lot in
  let draftPicks0 := indexGetAll_draftPicksBySeason (season g) db in
  let db :=
    if bool_decide (length draftPicks0 = 0%nat)
    then genPicks g (season g) db else db in
  let draftPicks := indexGetAll_draftPicksBySeason (season g) db in
  let draftPicksIndexed := indexPicks draftPicks in
  winners <-- lotteryWinners draftPicksIndexed teams 0 firstThree ;;
  others <-- restOfRound1 draftPicksIndexed firstThree 0 teams 4 ;;
  let teams := JS.sort round2Cmp teams in
  second <-- secondRound draftPicksIndexed 0 teams ;;
  let draftOrder := winners ++ others ++ second in
  let db := foldl (fun db dp => delete_draftPick (dpid dp) db) db draftPicks in
  Ok (put_draftOrder draftOrder db).

(** *** genOrderFantasy *)

(** The state of the reshuffling loop: the array and the counter [i]. *)
Definition fantasyCond (g : G) (position : Z) (s : list Z * nat) : bool :=
  negb (bool_decide (s.1 !! Z.to_nat (position - 1) = Some (userTid g)))
  && (s.2 <? 1000)%nat.

Definition fantasyBody (rnd : Random) (s : list Z * nat)
    : res (list Z * nat) :=
  Ok (shuffle rnd (S s.2) s.1, S s.2).

(** The shuffle and the [if (position ...) { while ... }] statement;
    [position = None] is [undefined]. *)
Definition fantasyShuffle (g : G) (rnd : Random) (fuel : nat)
    (position : option Z) : res (list Z * nat) :=
  let tids := shuffle rnd 0%nat (seqZ 0 (numTeams g)) in
  match position with
  | Some p =>
      if (1 <=? p) && (p <=? numTeams g) then
        JS.while fuel (fantasyCond g p) (fantasyBody rnd) (tids, 0%nat)
      else Ok (tids, 0%nat)
  | None => Ok (tids, 0%nat)
  end.

(** [rounds] is the number of rounds left, [13 - round]. *)
Fixpoint snake (rounds : nat) (round : Z) (tids : list Z) : list PickRealized :=
  match rounds with
  | O => []
  | S n =>
      imap (fun i t => {| round := round; pick := Z.of_nat i + 1; tid := t;
                          originalTid := t |}) tids
        ++ snake n (round + 1) (reverse tids)
  end.

Definition genOrderFantasy (g : G) (rnd : Random) (fuel : nat)
    (position : option Z) (db : DB) : res DB :=
  s <-- fantasyShuffle g rnd fuel position ;;
  Ok (put_draftOrder (snake 12 1 s.1) db).

(** *** getRookieSalaries *)

Definition baseRookieSalaries : list Q :=
  [5000; 4500; 4000; 3500; 3000; 2750; 2500; 2250; 2000; 1900; 1800; 1700;
   1600; 1500; 1400; 1300; 1200; 1100; 1000; 1000; 1000; 1000; 1000; 1000;
   1000; 1000; 1000; 1000; 1000; 1000; 500; 500; 500; 500; 500; 500; 500;
   500; 500; 500; 500; 500; 500; 500; 500; 500; 500; 500; 500; 500; 500;
   500; 500; 500; 500; 500; 500; 500; 500; 500]%Q.

(** [a.pop()]: drops the last element, does nothing on the empty array. *)
Definition pop (l : list Q) : list Q := take (length l - 1) l.

(** The two [while] loops that adjust the length of the table. *)
Definition resizeSalaries (g : G) (fuel : nat) (l : list Q) : res (list Q) :=
  l <-- JS.while fuel (fun l => Z.of_nat (length l) <? numTeams g * 2)
          (fun l => Ok (l ++ [500%Q])) l ;;
  JS.while fuel (fun l => numTeams g * 2 <? Z.of_nat (length l))
    (fun l => Ok (pop l)) l.

(** The body of the rescaling loop for one entry. The steps are exact
    here; the source rounds the result of each one to a double, so that an
    entry whose exact value before [Math.round] ends in 5 can come out one
    multiple of 10 lower. *)
Definition rescale (g : G) (s : Q) : Q :=
  let s := (s - 500)%Q in
  let s := (s * (((25 # 100) * maxContract g - minContract g) / 4500))%Q in
  let s := (s + minContract g)%Q in
  (JS.Math_round (s / 10) * 10)%Q.

Definition needsRescale (g : G) : bool :=
  negb (Qeq_bool (minContract g) 500) || negb (Qeq_bool (maxContract g) 20000).

Definition getRookieSalaries_fuel (fuel : nat) (g : G) : res (list Q) :=
  rookieSalaries <-- resizeSalaries g fuel baseRookieSalaries ;;
  if needsRescale g then Ok (rescale g <$> rookieSalaries)
  else Ok rookieSalaries.

(** Each loop runs at most [2 * numTeams + 60] times: the first adds an
    entry per round while the table is too short, the second removes one
    while it is too long. *)
Definition getRookieSalaries (g : G) : res (list Q) :=
  getRookieSalaries_fuel (Z.to_nat (numTeams g * 2) + 60) g.

(** [a[i]] for a number [i]: [None] is [undefined]. *)
Definition lookupZ {A} (l : list A) (i : Z) : option A :=
  if 0 <=? i then l !! Z.to_nat i else None.

(** *** selectPlayer *)

Definition set_player (i : nat) (p : Player) (db : DB) : DB :=
  {| draftPicks := draftPicks db;
     nextDpid := nextDpid db;
     draftOrder := draftOrder db;
     players := <[i := p]> (players db);
     lastDbChange := lastDbChange db |}.

(** Modelled from the spec: [player.setContract] and [player.addStatsRow]
    are not part of the sources at hand. Following section 3 of the
    specification ("contract fields written by RookieContractModel") the
    first stores the contract it is given on the player; the second adds
    one statistics row, for the playoffs or not. *)
Definition setContract (p : Player) (c : Contract) : Player :=
  {| pid := pid p; p_tid := p_tid p; value := value p; ratings := ratings p;
     draft := draft p; contract := Some c; statsRows := statsRows p |}.

Definition addStatsRow (p : Player) (playoffs : bool) : Player :=
  {| pid := pid p; p_tid := p_tid p; value := value p; ratings := ratings p;
     draft := draft p; contract := contract p;
     statsRows := statsRows p ++ [playoffs] |}.

Definition set_p_tid (t : Z) (p : Player) : Player :=
  {| pid := pid p; p_tid := t; value := value p; ratings := ratings p;
     draft := draft p; contract := contract p; statsRows := statsRows p |}.

Definition set_draft (d : DraftInfo) (p : Player) : Player :=
  {| pid := pid p; p_tid := p_tid p; value := value p; ratings := ratings p;
     draft := Some d; contract := contract p; statsRows := statsRows p |}.

Definition inFantasyDraft (g : G) : bool :=
  bool_decide (phase g = FANTASY_DRAFT (PHASE g)).

(** The player object after the statements of [selectPlayer]. *)
Definition draftPlayer (g : G) (pk : PickRealized) (p : Player) : res Player :=
  let p := set_p_tid (tid pk) p in
  p <-- (if negb (inFantasyDraft g) then
           r <-- of_option (ratings p !! 0%nat) ;;
           Ok (set_draft {| d_round := round pk; d_pick := pick pk;
                            d_tid := tid pk; d_year := season g;
                            d_originalTid := originalTid pk; d_pot := pot r;
                            d_ovr := ovr r; d_skills := skills r |} p)
         else Ok p) ;;
  p <-- (if negb (inFantasyDraft g) then
           rookieSalaries <-- getRookieSalaries g ;;
           let i := pick pk - 1 + numTeams g * (round pk - 1) in
           let years := 4 - round pk in
           Ok (setContract p {| amount := lookupZ rookieSalaries i;
                                exp := season g + years |})
         else Ok p) ;;
  if inFantasyDraft g && (default 0 (nextPhase g) <=? PLAYOFFS (PHASE g)) then
    Ok (addStatsRow p (bool_decide (nextPhase g = Some (PLAYOFFS (PHASE g)))))
  else Ok p.

(** [idb.cache.get('players', pid)] hands out the stored object, so the
    assignments change the store. *)
Definition selectPlayer (g : G) (db : DB) (pk : PickRealized) (pid0 : Z)
    : res DB :=
  ip <-- of_option (list_find (fun p => pid p = pid0) (players db)) ;;
  p <-- draftPlayer g pk ip.2 ;;
  Ok (set_player ip.1 p db).

(** *** untilUserOrEnd *)

Definition set_phase (ph : Z) (np : option Z) (g : G) : G :=
  {| PHASE := PHASE g; PLAYER := PLAYER g; numTeams := numTeams g;
     season := season g; phase := ph; nextPhase := np; userTid := userTid g;
     userTids := userTids g; autoPlaySeasons := autoPlaySeasons g;
     minContract := minContract g; maxContract := maxContract g |}.

Definition set_players (ps : list Player) (db : DB) : DB :=
  {| draftPicks := draftPicks db; nextDpid := nextDpid db;
     draftOrder := draftOrder db; players := ps;
     lastDbChange := lastDbChange db |}.

Definition updateLastDbChange (db : DB) : DB :=
  {| draftPicks := draftPicks db; nextDpid := nextDpid db;
     draftOrder := draftOrder db; players := players db;
     lastDbChange := S (lastDbChange db) |}.

Definition retag (from to : Z) (p : Player) : Player :=
  if bool_decide (p_tid p = from) then set_p_tid to p else p.

(** Modelled from the spec: [player.addToFreeAgents] and [phase.newPhase]
    are not part of the sources at hand. Following section 4.3 of the
    specification, at the end of a fantasy draft the undrafted players
    become free agents and the displaced draft class is restored, and at
    the end of an ordinary draft the phase advances to "after draft".

    [draftOrder] is the array held by the stored draft order row, so what
    is left of the queue is what the store holds afterwards. *)
Definition afterDoneAuto (g : G) (draftOrder : list PickRealized)
    (pids : list Z) (db : DB) : res (list Z * G * DB) :=
  let db := put_draftOrder draftOrder db in
  if bool_decide (length draftOrder = 0%nat) then
    if inFantasyDraft g then
      let ps := retag (UNDRAFTED (PLAYER g)) (FREE_AGENT (PLAYER g))
                  <$> players db in
      let ps := retag (UNDRAFTED_FANTASY_TEMP (PLAYER g)) (UNDRAFTED (PLAYER g))
                  <$> ps in
      ph <-- match nextPhase g with Some ph => Ok ph | None => Err Unmodelled end ;;
      Ok (pids, set_phase ph None g, updateLastDbChange (set_players ps db))
    else
      Ok (pids, set_phase (AFTER_DRAFT (PHASE g)) (nextPhase g) g, db)
  else
    Ok (pids, g, updateLastDbChange db).

Definition isUserPick (g : G) (pk : PickRealized) : bool :=
  bool_decide (tid pk ∈ userTids g) && Qeq_bool (autoPlaySeasons g) 0.

(** [autoSelectPlayer]: every call that goes on has shifted one pick off
    the queue, so the recursion follows the queue. [k] counts the calls of
    [random.gauss]. *)
Fixpoint autoSelectPlayer (g : G) (rnd : Random) (k : nat)
    (draftOrder : list PickRealized) (playersAll : list Player)
    (pids : list Z) (db : DB) : res (list Z * G * DB) :=
  match draftOrder with
  | [] => afterDoneAuto g [] pids db
  | pk :: rest =>
      if isUserPick g pk then afterDoneAuto g (pk :: rest) pids db
      else
        let selection := JS.floor_abs (gauss rnd k) in
        p <-- of_option (playersAll !! selection) ;;
        db' <-- selectPlayer g db pk (pid p) ;;
        autoSelectPlayer g rnd (S k) rest (delete selection playersAll)
          (pids ++ [pid p]) db'
  end.

Definition untilUserOrEnd (g : G) (rnd : Random) (db : DB)
    : res (list Z * G * DB) :=
  let playersAll :=
    JS.sort (fun a b => (value b - value a)%Q)
      (filter (fun p => p_tid p = UNDRAFTED (PLAYER g)) (players db)) in
  autoSelectPlayer g rnd 0 (draftOrder db) playersAll [] db.

End Draft.

(** ** Sample data for the examples *)

Module Sample.
Import Draft.

Definition PHASE0 : PHASE_t :=
  {| FANTASY_DRAFT := -1; PLAYOFFS := 3; AFTER_DRAFT := 6; FREE_AGENCY := 8 |}.

Definition PLAYER0 : PLAYER_t :=
  {| UNDRAFTED := -2; UNDRAFTED_FANTASY_TEMP := -6; FREE_AGENT := -1 |}.

(** A league of [n] teams in phase [ph] with the given contract bounds. *)
Definition league (n ph : Z) (minC maxC : Q) : G :=
  {| PHASE := PHASE0; PLAYER := PLAYER0; numTeams := n; season := 2017;
     phase := ph; nextPhase := None; userTid := 0; userTids := [0];
     autoPlaySeasons := 0; minContract := minC; maxContract := maxC |}.

Definition prospect (i : Z) (v : Q) : Player :=
  {| pid := i; p_tid := -2; value := v;
     ratings := [{| pot := 60; ovr := 40; skills := [] |}];
     draft := None; contract := None; statsRows := [] |}.

Definition db_with (order : list PickRealized) (ps : list Player) : DB :=
  {| draftPicks := []; nextDpid := 0; draftOrder := order; players := ps;
     lastDbChange := 0 |}.

Definition pick_of (r p t : Z) : PickRealized :=
  {| round := r; pick := p; tid := t; originalTid := t |}.

(** A random source whose gaussian samples are all [x]. *)
Definition rnd_gauss (x : Q) : Random :=
  {| shuffle := λ _ l, l; randInt := λ _, 0; gauss := λ _, x |}.

Definition team (i : Z) (w : Q) (rounds : Z) : TeamFiltered :=
  {| t_tid := i; cid := 0; winp := w; playoffRoundsWon := rounds; randVal := 0 |}.

(** Fourteen teams with the same record. *)
Definition tied14 : list TeamFiltered :=
  (λ i, team i (1 # 2) (-1)) <$> seqZ 0 14.

(** Fourteen teams with different records; team 13 is the worst. *)
Definition ladder14 : list TeamFiltered :=
  (λ i, team i ((20 - i) # 40) (-1)) <$> seqZ 0 14.

(** A random source that does not shuffle and draws the given integers,
    then 0. *)
Definition rnd_draws (ds : list Z) : Random :=
  {| shuffle := λ _ l, l; randInt := λ k, default 0 (ds !! k);
     gauss := λ _, 0%Q |}.

Definition values (r : res (list Q)) : option (list Q) :=
  match r with
  | Ok l => Some (Qred <$> l)
  | Err _ => None
  end.

End Sample.

(** ** Vocabulary of the statements *)

Module Props.
Import Schedule Draft.

Definition entryAllStar (e : ScheduleEntry) : bool :=
  isAllStar (homeTid e, awayTid e).

Definition entryTids (e : ScheduleEntry) : list Z := [homeTid e; awayTid e].

(** Team ids of the matchups placed on day [d], in schedule order. *)
Definition tidsOfDay (d : nat) (s : list ScheduleEntry) : list Z :=
  concat (entryTids <$> filter (λ e, day e = d) s).

(** The statement of the specification, read literally, for one input. *)
Definition noRepeatInDay (tids : list (Z * Z)) : Prop :=
  ∀ d, NoDup (filter (λ t, t ≠ -1 ∧ t ≠ -2) (tidsOfDay d (setSchedule tids))).

Definition aloneOnDay (s : list ScheduleEntry) (i : nat) : Prop :=
  ∀ e j e', s !! i = Some e → s !! j = Some e' → j ≠ i → day e' ≠ day e.

Definition allStarAlone (tids : list (Z * Z)) : Prop :=
  ∀ i, tids !! i = Some (-1, -2) → aloneOnDay (setSchedule tids) i.

Definition afterAllStarAlone (tids : list (Z * Z)) : Prop :=
  ∀ i, tids !! i = Some (-1, -2) → aloneOnDay (setSchedule tids) (S i).

Definition scheduleClaim (tids : list (Z * Z)) : Prop :=
  noRepeatInDay tids ∧ allStarAlone tids ∧ afterAllStarAlone tids.

(** The table before rescaling, in the words of the specification: the
    base table padded with the minimum salary, or cut at the end, to
    [2 * numTeams] entries. *)
Definition resized (g : G) : list Q :=
  if 60 <=? numTeams g * 2
  then baseRookieSalaries ++ replicate (Z.to_nat (numTeams g * 2) - 60) 500%Q
  else take (Z.to_nat (numTeams g * 2)) baseRookieSalaries.

Definition descending (l : list Q) : Prop :=
  ∀ i x y, l !! i = Some x → l !! S i = Some y → (y <= x)%Q.

(** The statement of the specification about rescaling, for one [g]. *)
Definition rescaleClaim (g : G) : Prop :=
  needsRescale g = true →
  ∃ l, getRookieSalaries g = Ok l ∧ l = rescale g <$> resized g ∧ descending l.

Fixpoint descb (l : list Q) : bool :=
  match l with
  | x :: t => match t with
              | y :: _ => Qle_bool y x && descb t
              | [] => true
              end
  | [] => true
  end.

(** The rookie contract and the draft record [selectPlayer] writes for a
    pick, given the salary table and the player's current ratings. *)
Definition rookieContract (g : G) (pk : PickRealized) (table : list Q)
    : Contract :=
  {| amount := lookupZ table (pick pk - 1 + numTeams g * (round pk - 1));
     exp := season g + (4 - round pk) |}.

Definition draftRecord (g : G) (pk : PickRealized) (r : Ratings) : DraftInfo :=
  {| d_round := round pk; d_pick := pick pk; d_tid := tid pk;
     d_year := season g; d_originalTid := originalTid pk; d_pot := pot r;
     d_ovr := ovr r; d_skills := skills r |}.

(** The statement of the specification about the selection index: in an
    automatic pick from a non-empty pool the indexed access finds a
    player. *)
Definition selectionInBounds (rnd : Random) (k : nat) (playersAll : list Player)
    : Prop :=
  playersAll ≠ [] → is_Some (playersAll !! JS.floor_abs (gauss rnd k)).

(** The array after [n] more calls of [random.shuffle], the last call so
    far being call number [i]. *)
Fixpoint reshuffled (rnd : Random) (i n : nat) (tids : list Z) : list Z :=
  match n with
  | O => tids
  | S n' => reshuffled rnd (S i) n' (shuffle rnd (S i) tids)
  end.

(** The user's team is at position [p] (counted from 1). *)
Definition userAt (g : G) (p : Z) (tids : list Z) : Prop :=
  tids !! Z.to_nat (p - 1) = Some (userTid g).

(** The sum of an array of numbers. *)
Definition Qsum (l : list Q) : Q := foldr Qplus 0%Q l.

(** The values the inner loop of [updateChances] writes, in order. *)
Fixpoint spreadVals (n : nat) (newVal remainder : Q) : list Q :=
  match n with
  | O => []
  | S n' =>
      (if JS.Qltb 0 remainder then (newVal + 1)%Q else newVal)
        :: spreadVals n' newVal
             (if JS.Qltb 0 remainder then (remainder - 1)%Q else remainder)
  end.

(** A list of non-negative integer weights as an array of numbers. *)
Definition weights (ws : list Z) : list Q := inject_Z <$> ws.

Definition Zsum (ws : list Z) : Z := foldr Z.add 0 ws.

(** The weights of a fully tied group of [k] teams with total weight [t]
    after the final pass: the quotient, and one more for the first
    [t mod k] members. *)
Definition evenShares (t : Z) (k : nat) : list Z :=
  replicate (Z.to_nat (t mod Z.of_nat k)) (t / Z.of_nat k + 1)
    ++ replicate (k - Z.to_nat (t mod Z.of_nat k)) (t / Z.of_nat k).

Definition distinctWinp (teams : list TeamFiltered) : Prop :=
  ∀ i j ti tj, i ≠ j → teams !! i = Some ti → teams !! j = Some tj →
               ¬ (winp ti == winp tj)%Q.

(** The position a draw selects in the cumulative chances: the result of
    [findIndex] for the [k]-th draw, and the set of positions selected by
    the draws [n], ..., [n + m - 1]. *)
Definition bucket (rnd : Random) (chances : list Q) (k : nat) : option nat :=
  JS.findIndex (λ c, JS.Qltb (inject_Z (randInt rnd k)) c) chances.

Definition bucketsDrawn (rnd : Random) (chances : list Q) (n m : nat)
    : gset nat :=
  list_to_set (omap (bucket rnd chances) (seq n m)).

(** The clipped size of a group of [val] teams that starts at [tc]. *)
Definition clip (len tc val : nat) : nat :=
  if (len <=? tc + val)%nat then (val - (tc + val - len))%nat else val.

(** The count stored for the key [w], 0 when there is none. *)
Fixpoint getc (w : Q) (acc : list (Q * nat)) : nat :=
  match acc with
  | [] => 0
  | (k, c) :: rest => if Qeq_bool k w then c else getc w rest
  end.

(** The number of teams whose win percentage is [w]. *)
Fixpoint cnt (w : Q) (teams : list TeamFiltered) : nat :=
  match teams with
  | [] => 0
  | t :: ts => ((if Qeq_bool (winp t) w then 1 else 0) + cnt w ts)%nat
  end.

Fixpoint keysDistinct (ks : list Q) : Prop :=
  match ks with
  | [] => True
  | k :: rest => (∀ k', k' ∈ rest → ¬ (k' == k)%Q) ∧ keysDistinct rest
  end.

(** What the drawing loop keeps true: the winners are different positions
    of the team list, at most three, and the teams keep their ids. *)
Definition drawInv (tids : list Z) (s : DrawState) : Prop :=
  NoDup (ds_firstThree s)
  ∧ (∀ i, i ∈ ds_firstThree s → (i < length (ds_teams s))%nat)
  ∧ (length (ds_firstThree s) ≤ 3)%nat
  ∧ t_tid <$> ds_teams s = tids.

Definition baseWeights : list Z :=
  [250; 199; 156; 119; 88; 63; 43; 28; 17; 11; 8; 7; 6; 5].

(** The team ids at the positions that did not win the lottery, in order;
    [i] is the position of the first id of the list. *)
Fixpoint others (firstThree : list nat) (i : nat) (tids : list Z) : list Z :=
  match tids with
  | [] => []
  | t :: rest =>
      if bool_decide (i ∈ firstThree) then others firstThree (S i) rest
      else t :: others firstThree (S i) rest
  end.

Definition roundTids (r : Z) (db : DB) : list Z :=
  originalTid <$> filter (λ e, round e = r) (draftOrder db).

(** [draftPicksIndexed[t][r]] is defined. *)
Definition owned (idx : gmap Z (gmap Z Z)) (t r : Z) : Prop :=
  is_Some (idx !! t ≫= λ inner : gmap Z Z, inner !! r).

(** The draft picks of season [s] include one of round [r] first owned by
    team [t]. *)
Definition hasPick (picks : list DraftPick) (t r : Z) : Prop :=
  ∃ dp, dp ∈ picks ∧ dp_originalTid dp = t ∧ dp_round dp = r.

End Props.

(** ** Further vocabulary

    The terms in which the further properties of the schedule and of the
    draft module are stated. *)

Module Terms.
Import Schedule Draft Sample Props.

(** A matchup is put on a new day only when it has to be: when the day of
    [e'] is the one after the day of the entry [e] just before it, one of
    the two is the all-star game or a team of [e'] already plays on the day
    of [e]. *)
Definition newDayForced (s : list ScheduleEntry) : Prop :=
  ∀ pre e e' post,
    s = pre ++ e :: e' :: post → day e' = S (day e) →
    entryAllStar e = true ∨ entryAllStar e' = true
    ∨ homeTid e' ∈ tidsOfDay (day e) (pre ++ [e])
    ∨ awayTid e' ∈ tidsOfDay (day e) (pre ++ [e]).

(** The records [genPicks] adds for the teams [tids], the first of them
    under the key [key]: a first-round and a second-round pick per team,
    owned by the team itself. *)
Fixpoint freshPicks (tids : list Z) (s key : Z) : list DraftPick :=
  match tids with
  | [] => []
  | t :: ts =>
      {| dpid := key; dp_tid := t; dp_originalTid := t; dp_round := 1;
         dp_season := s |}
      :: {| dpid := key + 1; dp_tid := t; dp_originalTid := t; dp_round := 2;
            dp_season := s |}
      :: freshPicks ts s (key + 2)
  end.

(** The keys of the stored draft picks are pairwise different and below
    the next key the store hands out. *)
Definition keysFresh (db : DB) : Prop :=
  NoDup (dpid <$> draftPicks db)
  ∧ Forall (λ dp, dpid dp < nextDpid db) (draftPicks db).

(** The draft picks the order is built from: those stored for the season,
    or the ones created when there are none. *)
Definition picksUsed (g : G) (db : DB) : list DraftPick :=
  match indexGetAll_draftPicksBySeason (season g) db with
  | [] => freshPicks (seqZ 0 (numTeams g)) (season g) (nextDpid db)
  | stored => stored
  end.

(** The order [lotterySort] sorts by: the teams that missed the playoffs
    come first, then the lower win percentage, then the lower random
    value. *)
Definition lotteryBefore (a b : TeamFiltered) : Prop :=
  (madePlayoffs a = false ∧ madePlayoffs b = true)
  ∨ (madePlayoffs a = madePlayoffs b
     ∧ ((winp a < winp b)%Q ∨ ((winp a == winp b)%Q ∧ randVal a ≤ randVal b))).

(** The order of the second round: the lower win percentage first, then
    the higher random value. *)
Definition round2Before (a b : TeamFiltered) : Prop :=
  (winp a < winp b)%Q ∨ ((winp a == winp b)%Q ∧ randVal b ≤ randVal a).

(** Every element of the list stands in relation [R] to the ones after
    it. *)
Definition ordered {A} (R : A → A → Prop) (l : list A) : Prop :=
  ∀ i j a b, (i < j)%nat → l !! i = Some a → l !! j = Some b → R a b.

(** The team list after the lottery: the winners' random values are lowered
    by 30. *)
Definition markWinners (firstThree : list nat) (ts : list TeamFiltered)
    : list TeamFiltered :=
  imap (λ i t, if bool_decide (i ∈ firstThree)
               then set_randVal (randVal t - 30) t else t) ts.

(** A random source that reverses instead of shuffling and draws the
    given integers, then 0. *)
Definition rnd_reverse (ds : list Z) : Random :=
  {| shuffle := λ _ l, reverse l; randInt := λ k, default 0 (ds !! k);
     gauss := λ _, 0%Q |}.

(** The win percentage shared by a group of tied teams. *)
Definition groupKey (grp : list TeamFiltered) : Q :=
  match grp with
  | [] => 0%Q
  | t :: _ => winp t
  end.

(** A team list in ascending order of win percentage, cut into its groups
    of tied teams: every group is non-empty, its members have one win
    percentage, and the groups come in strictly ascending order. *)
Definition tiedGroups (groups : list (list TeamFiltered)) : Prop :=
  Forall (λ grp, grp ≠ [] ∧ Forall (λ t, winp t == groupKey grp)%Q grp) groups
  ∧ StronglySorted (λ a b, (groupKey a < groupKey b)%Q) groups.

(** The weights after the final pass, for groups of the given sizes that
    lie one behind the other from the start of the table: every group
    shares the total of its slots evenly, the first members taking the
    remainder; a group that reaches past the end of the table is cut
    there. *)
Fixpoint averaged (sizes : list nat) (ws : list Z) : list Z :=
  match sizes with
  | [] => ws
  | n :: rest =>
      match ws with
      | [] => []
      | _ =>
          let m := (n `min` length ws)%nat in
          evenShares (Zsum (take m ws)) m ++ averaged rest (drop m ws)
      end
  end.

(** The sorted pairs of [updateChances] for the counting function
    [count]: in ascending order of their keys, which are pairwise
    different, each with its positive count. *)
Definition counted (l : list (Q * nat)) (count : Q → nat) : Prop :=
  StronglySorted (λ x y : Q * nat, Is_true (Qle_bool x.1 y.1)) l
  ∧ keysDistinct l.*1
  ∧ Forall (λ kc : Q * nat, (1 ≤ kc.2)%nat) l
  ∧ ∀ w, getc w l = count w.

(** The entries of round [r] in a draft order. *)
Definition roundEntries (r : Z) (order : list PickRealized) : list PickRealized :=
  filter (λ e, round e = r) order.

(** The players [untilUserOrEnd] chooses from: the undrafted ones. *)
Definition undrafted (g : G) (db : DB) : list Player :=
  filter (λ p, p_tid p = UNDRAFTED (PLAYER g)) (players db).

(** A team id that is none of the two markers of undrafted players. *)
Definition realTeam (g : G) (t : Z) : Prop :=
  t ≠ UNDRAFTED (PLAYER g) ∧ t ≠ UNDRAFTED_FANTASY_TEMP (PLAYER g).

(** The store holds a player [x] on team [t]. *)
Definition onTeam (db : DB) (x t : Z) : Prop :=
  ∃ q, q ∈ players db ∧ pid q = x ∧ p_tid q = t.



End Terms.

(** * Properties *)

(** ** setSchedule *)

Module ScheduleFacts.
Import Schedule Props.

Lemma assignDays_cons seen d p h a rest :
  assignDays seen d p ((h, a) :: rest) =
  let newDay := bool_decide (h ∈ seen) || bool_decide (a ∈ seen) || isAllStar (h, a) || p in
  {| day := if newDay then S d else d; homeTid := h; awayTid := a |}
    :: assignDays ((if newDay then ∅ else seen) ∪ {[h]} ∪ {[a]})
         (if newDay then S d else d) (isAllStar (h, a)) rest.
Proof. reflexivity. Qed.

Lemma assignDays_lookup seen d p l i e :
  assignDays seen d p l !! i = Some e → l !! i = Some (homeTid e, awayTid e).
Proof.
  revert seen d p i. induction l as [|[h a] rest IH]; intros seen d p i; [done|].
  rewrite assignDays_cons. cbv zeta. destruct i as [|i]; simpl.
  - intros [= <-]. done.
  - apply IH.
Qed.

Lemma assignDays_ge seen d p l e :
  e ∈ assignDays seen d p l → (d ≤ day e)%nat.
Proof.
  revert seen d p. induction l as [|[h a] rest IH]; intros seen d p.
  - simpl. by intros ?%elem_of_nil.
  - rewrite assignDays_cons. cbv zeta. intros [->|Hin]%elem_of_cons.
    + simpl. destruct (_ || _); lia.
    + apply IH in Hin. destruct (_ || _); lia.
Qed.

Lemma assignDays_same_day seen d p l e :
  e ∈ assignDays seen d p l → day e = d →
  homeTid e ∉ seen ∧ awayTid e ∉ seen ∧ p = false ∧ entryAllStar e = false.
Proof.
  revert seen d p. induction l as [|[h a] rest IH]; intros seen d p.
  - simpl. by intros ?%elem_of_nil.
  - rewrite assignDays_cons. cbv zeta.
    destruct (bool_decide (h ∈ seen) || bool_decide (a ∈ seen) || isAllStar (h, a) || p) eqn:Hnew.
    + intros [->|Hin]%elem_of_cons; simpl; [lia|].
      apply assignDays_ge in Hin. lia.
    + apply orb_false_elim in Hnew as [Hnew ->].
      apply orb_false_elim in Hnew as [Hnew Has].
      apply orb_false_elim in Hnew as [Hh Ha].
      apply bool_decide_eq_false in Hh, Ha.
      intros [->|Hin]%elem_of_cons; simpl.
      * intros _. done.
      * intros Hd. destruct (IH _ _ _ Hin Hd) as (H1 & H2 & _ & H4).
        repeat split; [set_solver|set_solver|done].
Qed.

Lemma assignDays_pairs seen d p l i j ei ej :
  (i < j)%nat →
  assignDays seen d p l !! i = Some ei → assignDays seen d p l !! j = Some ej →
  (day ei ≤ day ej)%nat ∧
  (day ei = day ej →
     entryAllStar ei = false ∧ entryAllStar ej = false ∧
     homeTid ej ∉ entryTids ei ∧ awayTid ej ∉ entryTids ei).
Proof.
  revert seen d p i j. induction l as [|[h a] rest IH]; intros seen d p i j Hij; [done|].
  rewrite assignDays_cons. cbv zeta.
  destruct j as [|j]; [lia|]. destruct i as [|i]; simpl.
  - intros [= <-] Hj. simpl.
    apply list_elem_of_lookup_2 in Hj.
    split; [by apply assignDays_ge in Hj|].
    intros Hd. symmetry in Hd.
    destruct (assignDays_same_day _ _ _ _ _ Hj Hd) as (H1 & H2 & H3 & H4).
    unfold entryAllStar, entryTids. simpl. repeat split; [done|done|set_solver|set_solver].
  - apply IH. lia.
Qed.

Lemma assignDays_after_allStar seen d p l i e e' :
  l !! i = Some (-1, -2) →
  assignDays seen d p l !! i = Some e → assignDays seen d p l !! (S i) = Some e' →
  day e' = S (day e).
Proof.
  revert seen d p i. induction l as [|[h a] rest IH]; intros seen d p i; [done|].
  rewrite assignDays_cons. cbv zeta. destruct i as [|i]; simpl.
  - intros [= -> ->] [= <-]. destruct rest as [|[h' a'] rest]; [done|].
    rewrite assignDays_cons. cbv zeta. simpl. intros [= <-]. simpl.
    rewrite !orb_true_r. done.
  - apply IH.
Qed.

Lemma tidsOfDay_cons d e s :
  tidsOfDay d (e :: s) =
  if decide (day e = d) then entryTids e ++ tidsOfDay d s else tidsOfDay d s.
Proof.
  unfold tidsOfDay. rewrite filter_cons. by case_decide.
Qed.

Lemma assignDays_tidsOfDay seen d0 p l :
  Forall (λ m : Z * Z, m.1 ≠ m.2) l →
  ∀ d, NoDup (tidsOfDay d (assignDays seen d0 p l)) ∧
       (d = d0 → ∀ t, t ∈ tidsOfDay d (assignDays seen d0 p l) → t ∉ seen) ∧
       ((d < d0)%nat → tidsOfDay d (assignDays seen d0 p l) = []).
Proof.
  intros Hl. revert seen d0 p. induction Hl as [|[h a] rest Hne _ IH]; intros seen d0 p d.
  - simpl. split; [constructor|]. split; [by intros _ t ?%elem_of_nil|done].
  - rewrite assignDays_cons. cbv zeta. simpl in Hne.
    destruct (bool_decide (h ∈ seen) || bool_decide (a ∈ seen) || isAllStar (h, a) || p) eqn:Hnew;
      rewrite tidsOfDay_cons; simpl; unfold entryTids; simpl.
    + destruct (IH (∅ ∪ {[h]} ∪ {[a]}) (S d0) (isAllStar (h, a)) d) as (N & In & Lt).
      destruct (decide (_ = d)) as [Hd|Hd].
      * subst d. split.
        { apply NoDup_cons. split; [|apply NoDup_cons; split; [|done]].
          - intros [?|Hin]%elem_of_cons; [done|]. apply In in Hin; [set_solver|done].
          - intros Hin. apply In in Hin; [set_solver|done]. }
        split; [lia|lia].
      * split; [done|]. split.
        { intros ->. rewrite Lt; [|lia]. by intros t ?%elem_of_nil. }
        intros ?. apply Lt. lia.
    + apply orb_false_elim in Hnew as [Hnew ->].
      apply orb_false_elim in Hnew as [Hnew Has].
      apply orb_false_elim in Hnew as [Hh Ha].
      apply bool_decide_eq_false in Hh, Ha.
      destruct (IH (seen ∪ {[h]} ∪ {[a]}) d0 (isAllStar (h, a)) d) as (N & In & Lt).
      destruct (decide (_ = d)) as [Hd|Hd].
      * subst d. split.
        { apply NoDup_cons. split; [|apply NoDup_cons; split; [|done]].
          - intros [?|Hin]%elem_of_cons; [done|]. apply In in Hin; [set_solver|done].
          - intros Hin. apply In in Hin; [set_solver|done]. }
        split; [|lia]. intros _ t [->|[->|Hin]%elem_of_cons]%elem_of_cons; [done|done|].
        apply In in Hin; [set_solver|done].
      * split; [done|]. split; [done|]. done.
Qed.

(** The scenarios of section 8 of the specification. *)
Example setSchedule_scenario :
  day <$> setSchedule [(0, 1); (2, 3); (0, 2)] = [1; 1; 2]%nat.
Proof. reflexivity. Qed.

Example setSchedule_allStar_scenario :
  day <$> setSchedule [(0, 1); (-1, -2); (0, 1); (2, 3)] = [1; 2; 3; 3]%nat.
Proof. reflexivity. Qed.

(** C4 (as amended): for every input list, two different matchups placed
    on the same day never share a team id, so when every matchup is between
    two different teams no team id appears twice within a day; an all-star
    matchup (-1, -2) has its day to itself; and the matchup that follows it
    starts a new day, later than the day of every matchup before it. That
    following day may then receive further matchups. *)
Theorem setSchedule_days (tids : list (Z * Z)) :
  let s := setSchedule tids in
  (∀ i j ei ej, i ≠ j → s !! i = Some ei → s !! j = Some ej →
     day ei = day ej → ∀ t, t ∈ entryTids ei → t ∉ entryTids ej)
  ∧ (Forall (λ m : Z * Z, m.1 ≠ m.2) tids → ∀ d, NoDup (tidsOfDay d s))
  ∧ allStarAlone tids
  ∧ (∀ i j e' e'', tids !! i = Some (-1, -2) → s !! (S i) = Some e' →
       (j ≤ i)%nat → s !! j = Some e'' → (day e'' < day e')%nat).
Proof.
  cbv zeta. unfold setSchedule. repeat split.
  - intros i j ei ej Hne Hi Hj Hd t Ht Ht'.
    destruct (Nat.lt_total i j) as [Hlt|[?|Hlt]]; [|done|].
    + destruct (assignDays_pairs _ _ _ _ _ _ _ _ Hlt Hi Hj) as [_ H].
      destruct (H Hd) as (_ & _ & H1 & H2).
      unfold entryTids in Ht'. set_solver.
    + destruct (assignDays_pairs _ _ _ _ _ _ _ _ Hlt Hj Hi) as [_ H].
      destruct (H (eq_sym Hd)) as (_ & _ & H1 & H2).
      unfold entryTids in Ht. set_solver.
  - intros Hl d. by apply assignDays_tidsOfDay.
  - intros i Hi e j e' He He' Hne Hd. unfold setSchedule in *.
    assert (entryAllStar e = true) as Has.
    { apply assignDays_lookup in He. rewrite Hi in He.
      injection He as H1 H2. unfold entryAllStar. rewrite <- H1, <- H2. done. }
    destruct (Nat.lt_total i j) as [Hlt|[?|Hlt]]; [|done|].
    + destruct (assignDays_pairs _ _ _ _ _ _ _ _ Hlt He He') as [_ H].
      destruct (H (eq_sym Hd)) as (H1 & _). congruence.
    + destruct (assignDays_pairs _ _ _ _ _ _ _ _ Hlt He' He) as [_ H].
      destruct (H Hd) as (_ & H1 & _). congruence.
  - intros i j e' e'' Hi He' Hji He''.
    destruct (lookup_lt_is_Some_2 (assignDays ∅ 1 false tids) i) as [e He].
    { apply lookup_lt_Some in He'. lia. }
    rewrite (assignDays_after_allStar _ _ _ _ _ _ _ Hi He He').
    destruct (decide (j = i)) as [->|Hne].
    + rewrite He in He''. injection He'' as ->. lia.
    + assert (j < i)%nat as Hlt by lia.
      destruct (assignDays_pairs _ _ _ _ _ _ _ _ Hlt He'' He) as [H _]. lia.
Qed.

Lemma setSchedule_days_witness :
  NoDup (tidsOfDay 3 (setSchedule [(0, 1); (-1, -2); (0, 1); (2, 3)])).
Proof.
  apply (setSchedule_days [(0, 1); (-1, -2); (0, 1); (2, 3)]).
  repeat constructor; simpl; lia.
Defined.

(** The literal statement fails: the matchup after the all-star game
    shares its day with the next one, and a matchup of a team with itself
    repeats the team within its day. *)
Lemma scheduleClaim_counterexample :
  ¬ scheduleClaim [(-1, -2); (0, 1); (2, 3)] ∧ ¬ scheduleClaim [(3, 3)].
Proof.
  split.
  - intros (_ & _ & H).
    refine (H 0%nat eq_refl {| day := 3; homeTid := 0; awayTid := 1 |} 2%nat
              {| day := 3; homeTid := 2; awayTid := 3 |} eq_refl eq_refl _ eq_refl).
    lia.
  - intros (H & _). specialize (H 1%nat). vm_compute in H.
    apply NoDup_cons in H as [H _]. apply H. by left.
Qed.

End ScheduleFacts.

(** ** getRookieSalaries *)

Module RookieFacts.
Import Draft Sample Props.

Lemma while_push (target : Z) (fuel : nat) (l : list Q) :
  (Z.to_nat (target - Z.of_nat (length l)) ≤ fuel)%nat →
  JS.while fuel (λ l, Z.of_nat (length l) <? target)
    (λ l, Ok (l ++ [500%Q])) l
  = Ok (l ++ replicate (Z.to_nat (target - Z.of_nat (length l))) 500%Q).
Proof.
  revert l. induction fuel as [|fuel IH]; intros l Hf; simpl.
  - destruct (Z.ltb_spec (Z.of_nat (length l)) target) as [Hlt|Hge]; [lia|].
    replace (Z.to_nat _) with 0%nat by lia. by rewrite app_nil_r.
  - destruct (Z.ltb_spec (Z.of_nat (length l)) target) as [Hlt|Hge].
    + rewrite IH; rewrite length_app; simpl; [|lia].
      replace (Z.to_nat (target - Z.of_nat (length l)))
        with (S (Z.to_nat (target - Z.of_nat (length l + 1)%nat))) by lia.
      simpl. by rewrite <- app_assoc.
    + replace (Z.to_nat _) with 0%nat by lia. by rewrite app_nil_r.
Qed.

Lemma while_pop (target : Z) (fuel : nat) (l : list Q) :
  0 ≤ target → (length l - Z.to_nat target ≤ fuel)%nat →
  JS.while fuel (λ l, target <? Z.of_nat (length l)) (λ l, Ok (pop l)) l
  = Ok (take (Z.to_nat target) l).
Proof.
  intros Ht. revert l. induction fuel as [|fuel IH]; intros l Hf; simpl.
  - destruct (Z.ltb_spec target (Z.of_nat (length l))) as [Hlt|Hge]; [lia|].
    rewrite take_ge; [done|lia].
  - destruct (Z.ltb_spec target (Z.of_nat (length l))) as [Hlt|Hge].
    + rewrite IH.
      * unfold pop. rewrite take_take. f_equal. f_equal. lia.
      * unfold pop. rewrite length_take. lia.
    + rewrite take_ge; [done|lia].
Qed.

Lemma resizeSalaries_ok (g : G) (fuel : nat) :
  0 ≤ numTeams g → (Z.to_nat (numTeams g * 2) + 60 ≤ fuel)%nat →
  resizeSalaries g fuel baseRookieSalaries = Ok (resized g).
Proof.
  intros Hn Hf. unfold resizeSalaries.
  assert (length baseRookieSalaries = 60%nat) as Hlen by reflexivity.
  rewrite while_push; [|lia]. cbn [res_bind].
  rewrite while_pop; [|lia|rewrite length_app, length_replicate; lia].
  f_equal. unfold resized. rewrite Hlen.
  destruct (Z.leb_spec 60 (numTeams g * 2)) as [Hge|Hlt].
  - rewrite take_ge; [|rewrite length_app, length_replicate; lia].
    do 2 f_equal. lia.
  - replace (Z.to_nat (numTeams g * 2 - Z.of_nat 60)) with 0%nat by lia.
    cbn [replicate]. by rewrite app_nil_r.
Qed.

Lemma resized_length (g : G) :
  0 ≤ numTeams g → length (resized g) = Z.to_nat (numTeams g * 2).
Proof.
  intros Hn. unfold resized.
  assert (length baseRookieSalaries = 60%nat) as Hlen by reflexivity.
  destruct (Z.leb_spec 60 (numTeams g * 2)).
  - rewrite length_app, length_replicate. lia.
  - rewrite length_take. lia.
Qed.

Lemma getRookieSalaries_fuel_ok (g : G) (fuel : nat) :
  0 ≤ numTeams g → (Z.to_nat (numTeams g * 2) + 60 ≤ fuel)%nat →
  getRookieSalaries_fuel fuel g
  = Ok (if needsRescale g then rescale g <$> resized g else resized g).
Proof.
  intros Hn Hf. unfold getRookieSalaries_fuel.
  rewrite resizeSalaries_ok by done. cbn [res_bind]. by destruct (needsRescale g).
Qed.

(** C10: for [numTeams >= 1] the table has exactly [2 * numTeams] entries;
    before any rescaling it is the 60-entry base table with entries of 500
    appended at the end when [2 * numTeams] exceeds 60, and with entries
    removed from the end when it is smaller. The loops of the function
    finish within the bound the model gives them, and any larger bound
    gives the same table. *)
Theorem getRookieSalaries_length (g : G) :
  1 ≤ numTeams g →
  ∃ l, getRookieSalaries g = Ok l
       ∧ length l = Z.to_nat (2 * numTeams g)
       ∧ l = (if needsRescale g then rescale g <$> resized g else resized g)
       ∧ (60 ≤ 2 * numTeams g →
            resized g = baseRookieSalaries
                          ++ replicate (Z.to_nat (2 * numTeams g) - 60) 500%Q)
       ∧ (2 * numTeams g < 60 →
            resized g = take (Z.to_nat (2 * numTeams g)) baseRookieSalaries)
       ∧ (∀ fuel, (Z.to_nat (numTeams g * 2) + 60 ≤ fuel)%nat →
            getRookieSalaries_fuel fuel g = Ok l).
Proof.
  intros Hn. eexists. split.
  { unfold getRookieSalaries. apply getRookieSalaries_fuel_ok; lia. }
  split.
  { destruct (needsRescale g); rewrite ?length_fmap, resized_length; lia. }
  split; [done|]. split; [|split].
  - intros H. unfold resized.
    destruct (Z.leb_spec 60 (numTeams g * 2)); [|lia].
    do 3 f_equal. lia.
  - intros H. unfold resized.
    destruct (Z.leb_spec 60 (numTeams g * 2)); [lia|].
    do 2 f_equal. lia.
  - intros fuel Hf. apply getRookieSalaries_fuel_ok; lia.
Qed.

Lemma descb_descending (l : list Q) : descb l = true → descending l.
Proof.
  induction l as [|x t IH]; intros Hb i a b; [done|].
  destruct t as [|y t]; [by destruct i|].
  simpl in Hb. apply andb_true_iff in Hb as [Hxy Ht].
  destruct i as [|i]; simpl.
  - intros [= <-] [= <-]. by apply Qle_bool_iff.
  - apply (IH Ht i).
Qed.

Lemma base_descending : descending baseRookieSalaries.
Proof. apply descb_descending. vm_compute. reflexivity. Qed.

Lemma base_ge_500 : Forall (λ x, 500 <= x)%Q baseRookieSalaries.
Proof.
  apply Forall_forall. intros x Hx.
  assert (forallb (Qle_bool 500) baseRookieSalaries = true) as Hb
    by (vm_compute; reflexivity).
  rewrite forallb_forall in Hb. apply Qle_bool_iff, Hb. by apply list_elem_of_In.
Qed.

Lemma resized_descending (g : G) : descending (resized g).
Proof.
  unfold resized. destruct (Z.leb_spec 60 (numTeams g * 2)) as [Hge|Hlt].
  - intros i x y Hx Hy.
    apply lookup_app_Some in Hy as [Hy|[Hlen Hy]].
    + apply (base_descending i x y); [|done].
      rewrite lookup_app_l in Hx; [done|]. apply lookup_lt_Some in Hy. lia.
    + apply lookup_replicate in Hy as [-> _].
      apply lookup_app_Some in Hx as [Hx|[_ Hx]].
      * apply list_elem_of_lookup_2 in Hx.
        exact (proj1 (Forall_forall _ _) base_ge_500 x Hx).
      * apply lookup_replicate in Hx as [-> _]. apply Qle_refl.
  - intros i x y Hx Hy.
    apply lookup_take_Some in Hx as [Hx _], Hy as [Hy _].
    by apply (base_descending i x y).
Qed.

Lemma Math_round_mono (x y : Q) :
  (x <= y)%Q → (JS.Math_round x <= JS.Math_round y)%Q.
Proof.
  intros H. unfold JS.Math_round. rewrite <- Zle_Qle.
  apply Qfloor_resp_le. lra.
Qed.

Lemma rescale_mono (g : G) (x y : Q) :
  (minContract g <= (25 # 100) * maxContract g)%Q →
  (x <= y)%Q → (rescale g x <= rescale g y)%Q.
Proof.
  intros Hk Hxy. unfold rescale.
  set (k := (((25 # 100) * maxContract g - minContract g) / 4500)%Q).
  assert (0 <= k)%Q as Hk0.
  { unfold k. apply Qle_shift_div_l; [reflexivity|]. lra. }
  assert ((x - 500) * k <= (y - 500) * k)%Q as Hm.
  { apply Qmult_le_compat_r; [lra|done]. }
  apply Qmult_le_compat_r; [|discriminate].
  apply Math_round_mono.
  apply Qmult_le_compat_r; [lra|discriminate].
Qed.

Lemma needsRescale_false (g : G) :
  needsRescale g = false ↔ (minContract g == 500 ∧ maxContract g == 20000)%Q.
Proof.
  unfold needsRescale. rewrite orb_false_iff, !negb_false_iff, !Qeq_bool_iff.
  done.
Qed.

(** C8 (as amended): with [minContract = 500] and [maxContract = 20000]
    the result is the unscaled table, adjusted only in length; for any
    other values every entry is rescaled, and the rescaled table is
    descending whenever [minContract <= maxContract / 4], that is when the
    scaling factor is not negative. *)
Theorem getRookieSalaries_scaling (g : G) :
  0 ≤ numTeams g →
  ((minContract g == 500)%Q → (maxContract g == 20000)%Q →
     getRookieSalaries g = Ok (resized g) ∧ descending (resized g))
  ∧ (¬ (minContract g == 500 ∧ maxContract g == 20000)%Q →
       getRookieSalaries g = Ok (rescale g <$> resized g)
       ∧ ((minContract g <= (25 # 100) * maxContract g)%Q →
            descending (rescale g <$> resized g))).
Proof.
  intros Hn. split.
  - intros Hmin Hmax. split; [|apply resized_descending].
    unfold getRookieSalaries. rewrite getRookieSalaries_fuel_ok by (done || lia).
    by rewrite (proj2 (needsRescale_false g)).
  - intros Hne. split.
    + unfold getRookieSalaries. rewrite getRookieSalaries_fuel_ok by (done || lia).
      destruct (needsRescale g) eqn:E; [done|].
      by apply needsRescale_false in E.
    + intros Hk i x y Hx Hy.
      apply list_lookup_fmap_Some in Hx as (x0 & -> & Hx).
      apply list_lookup_fmap_Some in Hy as (y0 & -> & Hy).
      apply rescale_mono; [done|]. by apply (resized_descending g i).
Qed.

Lemma getRookieSalaries_length_witness :
  ∃ l, getRookieSalaries (league 32 5 500 20000) = Ok l
       ∧ length l = 64%nat.
Proof.
  destruct (getRookieSalaries_length (league 32 5 500 20000)) as (l & H1 & H2 & _).
  - simpl. lia.
  - exists l. split; [exact H1|exact H2].
Defined.

Lemma getRookieSalaries_scaling_witness :
  getRookieSalaries (league 30 5 750 30000)
    = Ok (rescale (league 30 5 750 30000) <$> resized (league 30 5 750 30000))
  ∧ descending (rescale (league 30 5 750 30000) <$> resized (league 30 5 750 30000)).
Proof.
  destruct (getRookieSalaries_scaling (league 30 5 750 30000)) as [_ H].
  - simpl. lia.
  - destruct H as [H1 H2].
    + intros [H _]. vm_compute in H. discriminate.
    + split; [exact H1|]. apply H2. vm_compute. discriminate.
Defined.

(** With [minContract = 1000] and [maxContract = 2000] the scaling factor
    is negative and the rescaled table goes up. *)
Lemma rescaleClaim_counterexample :
  Qred <$> take 3 (rescale (league 30 5 1000 2000)
                     <$> resized (league 30 5 1000 2000))
  = [500; 560; 610]%Q
  ∧ ¬ rescaleClaim (league 30 5 1000 2000).
Proof.
  split; [vm_compute; reflexivity|].
  intros H. destruct (H eq_refl) as (l & _ & -> & Hd).
  specialize (Hd 0%nat _ _ eq_refl eq_refl).
  vm_compute in Hd. by apply Hd.
Qed.

End RookieFacts.

(** ** selectPlayer and untilUserOrEnd *)

Module SelectFacts.
Import Draft Sample Props.

Lemma inFantasyDraft_true (g : G) :
  inFantasyDraft g = true ↔ phase g = FANTASY_DRAFT (PHASE g).
Proof. unfold inFantasyDraft. apply bool_decide_eq_true. Qed.

Lemma draftPlayer_ordinary (g : G) (pk : PickRealized) (p p' : Player) :
  phase g ≠ FANTASY_DRAFT (PHASE g) →
  draftPlayer g pk p = Ok p' →
  ∃ table r, getRookieSalaries g = Ok table ∧ ratings p !! 0%nat = Some r
    ∧ p' = setContract (set_draft (draftRecord g pk r) (set_p_tid (tid pk) p))
             (rookieContract g pk table).
Proof.
  intros Hph. unfold draftPlayer.
  destruct (inFantasyDraft g) eqn:E; [by apply inFantasyDraft_true in E|].
  cbn [negb andb res_bind]. simpl ratings.
  destruct (ratings p !! 0%nat) as [r|]; [|done]. cbn [of_option res_bind].
  destruct (getRookieSalaries g) as [table|]; [|done]. cbn [res_bind].
  intros [= <-]. by exists table, r.
Qed.

Lemma draftPlayer_fantasy (g : G) (pk : PickRealized) (p p' : Player) :
  phase g = FANTASY_DRAFT (PHASE g) →
  draftPlayer g pk p = Ok p' →
  p_tid p' = tid pk ∧ contract p' = contract p ∧ draft p' = draft p.
Proof.
  intros Hph. unfold draftPlayer.
  rewrite (proj2 (inFantasyDraft_true g) Hph). cbn [negb andb res_bind].
  by destruct (_ <=? _); intros [= <-].
Qed.

(** C7: a successful [selectPlayer] replaces the stored player [pid] by
    one owned by the drafting team. Outside the fantasy-draft phase that
    player carries the draft record of the pick and a contract that expires
    in season [season + (4 - round)] with the amount found in the rookie
    salary table at index [pick - 1 + numTeams * (round - 1)]; in the
    fantasy-draft phase the contract and the draft record stay as they
    were. *)
Theorem selectPlayer_contract (g : G) (db db' : DB) (pk : PickRealized)
    (pid0 : Z) :
  selectPlayer g db pk pid0 = Ok db' →
  ∃ i p p',
    players db !! i = Some p ∧ pid p = pid0
    ∧ players db' = <[i := p']> (players db)
    ∧ p_tid p' = tid pk
    ∧ (phase g ≠ FANTASY_DRAFT (PHASE g) →
         ∃ table r,
           getRookieSalaries g = Ok table ∧ ratings p !! 0%nat = Some r
           ∧ contract p' = Some (rookieContract g pk table)
           ∧ exp (rookieContract g pk table) - season g = 4 - round pk
           ∧ draft p' = Some (draftRecord g pk r))
    ∧ (phase g = FANTASY_DRAFT (PHASE g) →
         contract p' = contract p ∧ draft p' = draft p).
Proof.
  unfold selectPlayer.
  destruct (list_find _ (players db)) as [[i p]|] eqn:Hfind; [|done].
  apply list_find_Some in Hfind as (Hi & Hpid & _).
  cbn [of_option res_bind fst snd].
  destruct (draftPlayer g pk p) as [p'|] eqn:Hp; [|done]. cbn [res_bind].
  intros [= <-]. exists i, p, p'. simpl players.
  split; [done|]. split; [done|]. split; [done|]. split; [|split].
  - destruct (decide (phase g = FANTASY_DRAFT (PHASE g))) as [Hph|Hph].
    + by destruct (draftPlayer_fantasy _ _ _ _ Hph Hp).
    + by destruct (draftPlayer_ordinary _ _ _ _ Hph Hp) as (? & ? & _ & _ & ->).
  - intros Hph.
    destruct (draftPlayer_ordinary _ _ _ _ Hph Hp) as (table & r & Ht & Hr & ->).
    exists table, r. split; [done|]. split; [done|]. split; [done|].
    split; [simpl; lia|done].
  - intros Hph. by destruct (draftPlayer_fantasy _ _ _ _ Hph Hp) as (_ & ? & ?).
Qed.

(** [selectPlayer] succeeds for a stored player that has a ratings row. *)
Lemma selectPlayer_succeeds (g : G) (db : DB) (pk : PickRealized) (pid0 : Z)
    (i : nat) (p : Player) :
  0 ≤ numTeams g →
  list_find (λ q, pid q = pid0) (players db) = Some (i, p) →
  ratings p ≠ [] →
  ∃ db', selectPlayer g db pk pid0 = Ok db'.
Proof.
  intros Hn Hf Hr. unfold selectPlayer. rewrite Hf.
  cbn [of_option res_bind fst snd]. unfold draftPlayer, getRookieSalaries.
  rewrite RookieFacts.getRookieSalaries_fuel_ok by (done || lia).
  destruct (ratings p) as [|r rs] eqn:Hrs; [done|].
  simpl ratings. rewrite Hrs.
  destruct (inFantasyDraft g); cbn [negb andb res_bind of_option lookup list_lookup];
    [destruct (_ <=? _)|]; cbn [res_bind]; by eexists.
Qed.

Lemma selectPlayer_contract_witness :
  ∃ db', selectPlayer (league 30 5 500 20000) (db_with [] [prospect 7 50])
           (pick_of 2 5 3) 7 = Ok db'
    ∧ contract <$> players db' = [Some {| amount := Some 500%Q; exp := 2019 |}].
Proof.
  eexists. split; [vm_compute; reflexivity|].
  destruct (selectPlayer_contract (league 30 5 500 20000)
              (db_with [] [prospect 7 50]) _ (pick_of 2 5 3) 7 eq_refl)
    as (i & p & p' & _ & _ & _ & _ & _ & _).
  reflexivity.
Defined.

Lemma isUserPick_true (g : G) (pk : PickRealized) :
  isUserPick g pk = true ↔ tid pk ∈ userTids g ∧ (autoPlaySeasons g == 0)%Q.
Proof.
  unfold isUserPick. by rewrite andb_true_iff, bool_decide_eq_true, Qeq_bool_iff.
Qed.

Lemma put_draftOrder_same (db : DB) : put_draftOrder (draftOrder db) db = db.
Proof. by destruct db. Qed.

(** C5: when the pick at the front of the queue belongs to a team in
    [userTids] and [autoPlaySeasons] equals 0, [autoSelectPlayer] returns
    at once: the list of drafted players is as it was, no player record
    changes, and the queue still starts with that pick. So a call of
    [untilUserOrEnd] that finds such a pick first returns no player ids and
    leaves the stored order as it was. The test on [autoPlaySeasons] is an
    equality: the pick is held back only when the count is 0. *)
Theorem untilUserOrEnd_pause (g : G) (rnd : Random) (db : DB)
    (pk : PickRealized) (rest : list PickRealized) :
  tid pk ∈ userTids g → (autoPlaySeasons g == 0)%Q →
  (∀ k playersAll pids,
     autoSelectPlayer g rnd k (pk :: rest) playersAll pids db
     = Ok (pids, g, updateLastDbChange (put_draftOrder (pk :: rest) db)))
  ∧ (draftOrder db = pk :: rest →
       untilUserOrEnd g rnd db = Ok ([], g, updateLastDbChange db)
       ∧ draftOrder (updateLastDbChange db) = pk :: rest
       ∧ players (updateLastDbChange db) = players db)
  ∧ (∀ g', ¬ (autoPlaySeasons g' == 0)%Q → isUserPick g' pk = false).
Proof.
  intros Htid Hauto.
  assert (isUserPick g pk = true) as Hu by by apply isUserPick_true.
  assert (∀ k playersAll pids,
     autoSelectPlayer g rnd k (pk :: rest) playersAll pids db
     = Ok (pids, g, updateLastDbChange (put_draftOrder (pk :: rest) db))) as H1.
  { intros k playersAll pids. simpl. by rewrite Hu. }
  split; [done|split].
  - intros Hq. split; [|by rewrite <- Hq].
    unfold untilUserOrEnd. rewrite Hq, H1. by rewrite <- Hq, put_draftOrder_same.
  - intros g' Hne. destruct (isUserPick g' pk) eqn:E; [|done].
    apply isUserPick_true in E as [_ E]. done.
Qed.

Lemma untilUserOrEnd_pause_witness :
  untilUserOrEnd (league 30 5 500 20000) (rnd_gauss 0)
    (db_with [pick_of 1 1 0; pick_of 1 2 1] [prospect 7 50])
  = Ok ([], league 30 5 500 20000,
        updateLastDbChange (db_with [pick_of 1 1 0; pick_of 1 2 1] [prospect 7 50])).
Proof.
  apply (untilUserOrEnd_pause (league 30 5 500 20000) (rnd_gauss 0)
           (db_with [pick_of 1 1 0; pick_of 1 2 1] [prospect 7 50])
           (pick_of 1 1 0) [pick_of 1 2 1]).
  - simpl. set_solver.
  - reflexivity.
  - reflexivity.
Defined.

Lemma floor_abs_lt (x : Q) (n : nat) :
  (JS.floor_abs x < n)%nat ↔ (Qabs x < inject_Z (Z.of_nat n))%Q.
Proof.
  unfold JS.floor_abs.
  assert (0 <= Qabs x)%Q as Hnn by apply Qabs_nonneg.
  assert (0 ≤ Qfloor (Qabs x)) as Hf.
  { change 0 with (Qfloor 0). by apply Qfloor_resp_le. }
  split.
  - intros H. assert (Qfloor (Qabs x) + 1 ≤ Z.of_nat n) as Hz by lia.
    apply Qlt_le_trans with (inject_Z (Qfloor (Qabs x) + 1)).
    + apply Qlt_floor.
    + by rewrite <- Zle_Qle.
  - intros H. assert (Qfloor (Qabs x) < Z.of_nat n); [|lia].
    rewrite Zlt_Qlt. eapply Qle_lt_trans; [apply Qfloor_le|done].
Qed.

(** The selection index is used as drawn: it is a position of the pool
    exactly when the absolute value of the sample is below the size of the
    pool, and an automatic pick whose sample is not throws, whatever the
    pool holds. *)
Lemma autoSelectPlayer_out_of_pool (g : G) (rnd : Random) (k : nat)
    (pk : PickRealized) (rest : list PickRealized) (playersAll : list Player)
    (pids : list Z) (db : DB) :
  isUserPick g pk = false →
  (inject_Z (Z.of_nat (length playersAll)) <= Qabs (gauss rnd k))%Q →
  autoSelectPlayer g rnd k (pk :: rest) playersAll pids db = Err TypeError.
Proof.
  intros Hu Hout. simpl. rewrite Hu.
  destruct (playersAll !! JS.floor_abs (gauss rnd k)) as [p|] eqn:Hp; [|done].
  apply lookup_lt_Some, floor_abs_lt in Hp. exfalso.
  by apply (Qlt_irrefl (Qabs (gauss rnd k))), (Qlt_le_trans _ _ _ Hp).
Qed.

(** C6: the index [floor(|gauss(0, 2)|)] is not kept within the pool. With
    two undrafted players and a sample of 2.5 the index is 2, no player is
    found there and [untilUserOrEnd] throws, against "0=best prospect,
    1=next best prospect, etc.". The same happens in the middle of a
    draft: with three players and two picks the first pick takes the
    player at index 2 and the second throws, though two players are
    left. *)
Theorem untilUserOrEnd_index_unclamped :
  ¬ selectionInBounds (rnd_gauss (5 # 2)) 0 [prospect 7 50; prospect 8 40]
  ∧ untilUserOrEnd (league 30 5 500 20000) (rnd_gauss (5 # 2))
      (db_with [pick_of 1 2 1] [prospect 7 50; prospect 8 40])
    = Err TypeError
  ∧ (λ r, r.1.1) <$> (match untilUserOrEnd (league 30 5 500 20000)
                              (rnd_gauss (5 # 2))
                              (db_with [pick_of 1 1 1]
                                 [prospect 7 50; prospect 8 40; prospect 9 30])
                      with Ok r => Some r | Err _ => None end)
    = Some [9]
  ∧ untilUserOrEnd (league 30 5 500 20000) (rnd_gauss (5 # 2))
      (db_with [pick_of 1 1 1; pick_of 1 2 2]
         [prospect 7 50; prospect 8 40; prospect 9 30])
    = Err TypeError.
Proof.
  split; [|split; [|split]].
  - intros H. destruct H as [p Hp]; [done|]. vm_compute in Hp. discriminate.
  - apply autoSelectPlayer_out_of_pool; [reflexivity|]. vm_compute. discriminate.
  - vm_compute. reflexivity.
  - vm_compute. reflexivity.
Qed.

End SelectFacts.

(** ** genOrderFantasy *)

Module FantasyFacts.
Import Draft Sample Props.

Lemma fantasyCond_true (g : G) (p : Z) (tids : list Z) (i : nat) :
  fantasyCond g p (tids, i) = true ↔ ¬ userAt g p tids ∧ (i < 1000)%nat.
Proof.
  unfold fantasyCond, userAt. simpl.
  rewrite andb_true_iff, negb_true_iff, bool_decide_eq_false, Nat.ltb_lt. done.
Qed.

Lemma fantasy_loop (g : G) (rnd : Random) (p : Z) (fuel : nat) :
  ∀ (tids : list Z) (i : nat),
    (i ≤ 1000)%nat → (1000 - i ≤ fuel)%nat →
    ∃ n, JS.while fuel (fantasyCond g p) (fantasyBody rnd) (tids, i)
           = Ok (reshuffled rnd i n tids, (i + n)%nat)
         ∧ (i + n ≤ 1000)%nat
         ∧ (∀ m, (m < n)%nat → ¬ userAt g p (reshuffled rnd i m tids))
         ∧ (userAt g p (reshuffled rnd i n tids) ∨ (i + n)%nat = 1000%nat).
Proof.
  induction fuel as [|fuel IH]; intros tids i Hi Hf.
  - exists 0%nat. simpl.
    destruct (fantasyCond g p (tids, i)) eqn:E.
    + apply fantasyCond_true in E. lia.
    + rewrite Nat.add_0_r. split; [done|]. split; [lia|]. split; [lia|]. right. lia.
  - simpl. destruct (fantasyCond g p (tids, i)) eqn:E.
    + apply fantasyCond_true in E as [Hmiss Hlt].
      unfold fantasyBody at 1. cbn [res_bind fst snd].
      destruct (IH (shuffle rnd (S i) tids) (S i)) as (n & Hw & Hn & Hm & He);
        [lia|lia|].
      exists (S n). simpl reshuffled.
      replace (i + S n)%nat with (S i + n)%nat by lia.
      split; [done|]. split; [lia|]. split; [|done].
      intros [|m] Hlm; [done|]. simpl. apply Hm. lia.
    + exists 0%nat. rewrite Nat.add_0_r. simpl.
      split; [done|]. split; [lia|]. split; [lia|].
      destruct (decide (tids !! Z.to_nat (p - 1) = Some (userTid g))) as [?|Hmiss]; [by left|].
      right. destruct (decide (i < 1000)%nat) as [Hlt|?]; [|lia].
      assert (fantasyCond g p (tids, i) = true) by by apply fantasyCond_true.
      congruence.
Qed.

(** C9: for a position [1 <= p <= numTeams] the reshuffling loop of
    [genOrderFantasy] stops by itself after at most 1000 reshuffles: any
    bound of at least 1000 iterations is never reached. It stops at the
    first shuffle that puts the user's team at position [p], or after the
    1000th reshuffle; in either case the array it has then is the one the
    snake order is built from, and the function returns normally. *)
Theorem genOrderFantasy_terminates (g : G) (rnd : Random) (fuel : nat)
    (p : Z) (db : DB) :
  1 ≤ p ≤ numTeams g → (1000 ≤ fuel)%nat →
  ∃ n tids,
    (n ≤ 1000)%nat
    ∧ tids = reshuffled rnd 0 n (shuffle rnd 0%nat (seqZ 0 (numTeams g)))
    ∧ fantasyShuffle g rnd fuel (Some p) = Ok (tids, n)
    ∧ (∀ m, (m < n)%nat →
         ¬ userAt g p (reshuffled rnd 0 m (shuffle rnd 0%nat (seqZ 0 (numTeams g)))))
    ∧ (userAt g p tids ∨ n = 1000%nat)
    ∧ genOrderFantasy g rnd fuel (Some p) db
      = Ok (put_draftOrder (snake 12 1 tids) db).
Proof.
  intros [Hp1 Hp2] Hf.
  destruct (fantasy_loop g rnd p fuel (shuffle rnd 0%nat (seqZ 0 (numTeams g))) 0)
    as (n & Hw & Hn & Hm & He); [lia|lia|].
  exists n, (reshuffled rnd 0 n (shuffle rnd 0%nat (seqZ 0 (numTeams g)))).
  assert (fantasyShuffle g rnd fuel (Some p)
          = Ok (reshuffled rnd 0 n (shuffle rnd 0%nat (seqZ 0 (numTeams g))), n))
    as Hs.
  { unfold fantasyShuffle.
    destruct (Z.leb_spec 1 p); [|lia]. destruct (Z.leb_spec p (numTeams g)); [|lia].
    done. }
  split; [lia|]. split; [done|]. split; [done|]. split; [done|]. split.
  - destruct He as [?|?]; [by left|right; lia].
  - unfold genOrderFantasy. by rewrite Hs.
Qed.

Lemma genOrderFantasy_terminates_witness :
  ∃ n tids,
    (n ≤ 1000)%nat
    ∧ fantasyShuffle (league 30 (-1) 500 20000) (rnd_gauss 0) 1000 (Some 5)
      = Ok (tids, n)
    ∧ genOrderFantasy (league 30 (-1) 500 20000) (rnd_gauss 0) 1000 (Some 5)
        (db_with [] [])
      = Ok (put_draftOrder (snake 12 1 tids) (db_with [] [])).
Proof.
  destruct (genOrderFantasy_terminates (league 30 (-1) 500 20000) (rnd_gauss 0)
              1000 5 (db_with [] []))
    as (n & tids & Hn & _ & Hs & _ & _ & Hg).
  - simpl. lia.
  - lia.
  - exists n, tids. split; [exact Hn|]. split; [exact Hs|exact Hg].
Defined.

Example genOrderFantasy_budget :
  (λ s, (s.1, s.2)) <$> (match fantasyShuffle (league 4 (-1) 500 20000) (rnd_gauss 0) 5000 (Some 3)
   with Ok s => Some s | Err _ => None end)
  = Some ([0; 1; 2; 3], 1000%nat).
Proof. vm_compute. reflexivity. Qed.

End FantasyFacts.

(** ** updateChances and the lottery *)

Module LotteryFacts.
Import Draft Sample Props.

Lemma Qltb_lt (a b : Q) : JS.Qltb a b = true ↔ (a < b)%Q.
Proof.
  unfold JS.Qltb. rewrite negb_true_iff. split.
  - intros H. apply Qnot_le_lt. intros Hle. apply Qle_bool_iff in Hle. congruence.
  - intros H. destruct (Qle_bool b a) eqn:E; [|done].
    apply Qle_bool_iff in E. by apply Qlt_not_le in H.
Qed.

Lemma foldl_Qplus (x : Q) (l : list Q) : (foldl Qplus x l == x + Qsum l)%Q.
Proof.
  unfold Qsum. revert x. induction l as [|y l IH]; intros x; simpl; [lra|].
  rewrite IH. lra.
Qed.

Lemma Qsum_weights (ws : list Z) : (Qsum (weights ws) == inject_Z (Zsum ws))%Q.
Proof.
  induction ws as [|w ws IH]; simpl; [reflexivity|].
  rewrite IH. by rewrite inject_Z_plus.
Qed.

Lemma spread_ok (n i : nat) (newVal remainder : Q) (chances : list Q) :
  (i + n ≤ length chances)%nat →
  spread n i newVal remainder chances
  = Ok (take i chances ++ spreadVals n newVal remainder ++ drop (i + n) chances).
Proof.
  revert i remainder chances.
  induction n as [|n IH]; intros i remainder chances Hlen.
  - simpl. by rewrite Nat.add_0_r, take_drop.
  - cbn [spread spreadVals]. unfold JS.array_set.
    destruct (decide (i < length chances)%nat) as [Hi|]; [|lia].
    cbn [res_bind]. rewrite IH by (rewrite length_insert; lia).
    f_equal. rewrite drop_insert_lt by lia.
    destruct (lookup_lt_is_Some_2 chances i Hi) as [c Hc].
    rewrite (take_S_r (<[i:=_]> chances) i
               (if JS.Qltb 0 remainder then (newVal + 1)%Q else newVal))
      by (by rewrite list_lookup_insert_eq).
    rewrite take_insert_ge by lia. rewrite <- app_assoc. simpl.
    by replace (i + S n)%nat with (S (i + n)) by lia.
Qed.

Lemma spreadVals_length (n : nat) (newVal remainder : Q) :
  length (spreadVals n newVal remainder) = n.
Proof.
  revert remainder. induction n as [|n IH]; intros r; simpl; [done|].
  by rewrite IH.
Qed.

(** With an integer remainder [r], the first [r] values are one more than
    [newVal]. *)
Lemma spreadVals_replicate (n : nat) (newVal remainder : Q) (r : Z) :
  (remainder == inject_Z r)%Q →
  spreadVals n newVal remainder
  = replicate (Z.to_nat r `min` n) (newVal + 1)%Q
      ++ replicate (n - Z.to_nat r `min` n) newVal.
Proof.
  revert remainder r. induction n as [|n IH]; intros remainder r Hr.
  - by rewrite Nat.min_0_r.
  - cbn [spreadVals]. destruct (JS.Qltb 0 remainder) eqn:E.
    + apply Qltb_lt in E. rewrite Hr in E.
      assert (0 < r) as Hpos. { rewrite Zlt_Qlt. exact E. }
      rewrite (IH _ (r - 1)).
      * replace (Z.to_nat r `min` S n)%nat with (S (Z.to_nat (r - 1) `min` n)) by lia.
        simpl. do 3 f_equal.
      * rewrite Hr. unfold Z.sub. rewrite inject_Z_plus.
        change (inject_Z (- (1))) with (-1 # 1)%Q. lra.
    + assert (r ≤ 0) as Hr0.
      { destruct (Z.lt_ge_cases 0 r) as [Hlt|?]; [|done].
        assert (JS.Qltb 0 remainder = true); [|congruence].
        apply Qltb_lt. rewrite Hr. change 0%Q with (inject_Z 0).
        by rewrite <- Zlt_Qlt. }
      rewrite (IH _ r Hr).
      replace (Z.to_nat r) with 0%nat by lia.
      by rewrite !Nat.min_0_l, !Nat.sub_0_r.
Qed.

Lemma Qsum_Forall2 (l k : list Q) : Forall2 Qeq l k → (Qsum l == Qsum k)%Q.
Proof.
  induction 1 as [|x y l k Hxy _ IH]; [reflexivity|].
  unfold Qsum in *. simpl. by rewrite Hxy, IH.
Qed.

Lemma Forall2_Qeq_refl (l : list Q) : Forall2 Qeq l l.
Proof. induction l; constructor; [reflexivity|done]. Qed.

Lemma reduce_add_weights (l : list Q) (zs : list Z) :
  Forall2 Qeq l (weights zs) → zs ≠ [] →
  ∃ total, JS.reduce_add l = Ok total ∧ (total == inject_Z (Zsum zs))%Q.
Proof.
  intros Hl Hne. destruct zs as [|z zs]; [done|].
  apply Forall2_cons_inv_r in Hl as (x & l' & Hx & Hl & ->).
  eexists. split; [reflexivity|].
  rewrite foldl_Qplus.
  change (x + Qsum l')%Q with (Qsum (x :: l')).
  rewrite (Qsum_Forall2 (x :: l') (weights (z :: zs))) by by constructor.
  apply Qsum_weights.
Qed.

Lemma Qtrunc_nonneg (q : Q) : (0 <= q)%Q → JS.Qtrunc q = Qfloor q.
Proof.
  destruct q as [n d]. unfold Qle, JS.Qtrunc, Qfloor. simpl. intros H.
  apply Z.quot_div_nonneg; lia.
Qed.

Lemma Qfloor_div (t v : Z) : 0 < v → Qfloor (inject_Z t / inject_Z v) = t / v.
Proof.
  intros Hv. destruct v as [|p|p]; [lia| |lia].
  unfold Qfloor, Qdiv, Qmult, Qinv, inject_Z. simpl. by rewrite Z.mul_1_r.
Qed.

(** [total % val] and [(total - remainder) / val] for a non-negative
    integer total. *)
Lemma rem_weights (total : Q) (t v : Z) :
  (total == inject_Z t)%Q → 0 ≤ t → 0 < v →
  (JS.rem total (inject_Z v) == inject_Z (t mod v))%Q
  ∧ ((total - JS.rem total (inject_Z v)) / inject_Z v == inject_Z (t / v))%Q.
Proof.
  intros Ht Hnn Hv.
  assert (0 < inject_Z v)%Q as Hvq.
  { change 0%Q with (inject_Z 0). by rewrite <- Zlt_Qlt. }
  assert (JS.Qtrunc (total / inject_Z v) = t / v) as Htr.
  { rewrite Qtrunc_nonneg.
    - rewrite Ht. by apply Qfloor_div.
    - rewrite Ht. apply Qle_shift_div_l; [done|].
      rewrite Qmult_0_l. change 0%Q with (inject_Z 0). by rewrite <- Zle_Qle. }
  assert (JS.rem total (inject_Z v) == inject_Z (t mod v))%Q as Hrem.
  { unfold JS.rem. rewrite Htr, Ht.
    rewrite (Z.mod_eq t v) by lia. unfold Z.sub.
    rewrite inject_Z_plus, inject_Z_opp, inject_Z_mult. ring. }
  split; [done|].
  rewrite Hrem, Ht.
  assert (inject_Z t - inject_Z (t mod v) == inject_Z v * inject_Z (t / v))%Q
    as ->.
  { unfold Qminus. rewrite <- inject_Z_mult, <- inject_Z_opp, <- inject_Z_plus.
    apply inject_Z_injective.
    rewrite (Z.mod_eq t v) by lia. lia. }
  field. lra.
Qed.

Lemma weights_app (l k : list Z) : weights (l ++ k) = weights l ++ weights k.
Proof. apply fmap_app. Qed.

Lemma Zsum_app (l k : list Z) : Zsum (l ++ k) = Zsum l + Zsum k.
Proof. induction l as [|x l IH]; simpl; lia. Qed.

Lemma Zsum_replicate (n : nat) (x : Z) : Zsum (replicate n x) = Z.of_nat n * x.
Proof. induction n as [|n IH]; simpl; lia. Qed.

Lemma Zsum_nonneg (l : list Z) : Forall (λ w, 0 ≤ w) l → 0 ≤ Zsum l.
Proof. induction 1; simpl; lia. Qed.

Lemma evenShares_length (t : Z) (k : nat) :
  (0 < k)%nat → length (evenShares t k) = k.
Proof.
  intros Hk. unfold evenShares. rewrite length_app, !length_replicate.
  pose proof (Z.mod_pos_bound t (Z.of_nat k)). lia.
Qed.

Lemma evenShares_sum (t : Z) (k : nat) :
  (0 < k)%nat → Zsum (evenShares t k) = t.
Proof.
  intros Hk. unfold evenShares. rewrite Zsum_app, !Zsum_replicate.
  pose proof (Z.mod_pos_bound t (Z.of_nat k)).
  rewrite Nat2Z.inj_sub by lia. rewrite Z2Nat.id by lia.
  rewrite (Z.div_mod t (Z.of_nat k)) at 5 by lia. lia.
Qed.

Lemma evenShares_nonneg (t : Z) (k : nat) :
  0 ≤ t → (0 < k)%nat → Forall (λ w, 0 ≤ w) (evenShares t k).
Proof.
  intros Ht Hk. unfold evenShares.
  assert (0 ≤ t / Z.of_nat k) by (apply Z.div_pos; lia).
  apply Forall_app. split; apply Forall_replicate; lia.
Qed.

Lemma Forall2_Qeq_replicate (n : nat) (a : Q) (z : Z) :
  (a == inject_Z z)%Q → Forall2 Qeq (replicate n a) (weights (replicate n z)).
Proof.
  intros H. unfold weights. rewrite fmap_replicate.
  induction n; simpl; by constructor.
Qed.

Lemma clip_bounds (len tc val : nat) :
  (tc < len)%nat → (1 ≤ val)%nat →
  (1 ≤ clip len tc val)%nat ∧ (tc + clip len tc val ≤ len)%nat
  ∧ (clip len tc val ≤ val)%nat
  ∧ ((len ≤ tc + val)%nat → (tc + clip len tc val)%nat = len).
Proof.
  intros Htc Hval. unfold clip.
  destruct (Nat.leb_spec len (tc + val)); lia.
Qed.

(** The averaging of one group in the final pass, on non-negative integer
    weights. *)
Lemma averageGroup_final (tc val : nat) (chances : list Q) (ws : list Z) :
  Forall2 Qeq chances (weights ws) → Forall (λ w, 0 ≤ w) ws →
  (tc < length ws)%nat → (1 ≤ val)%nat →
  let val' := clip (length ws) tc val in
  ∃ res, averageGroup true tc val chances = Ok (val', res)
    ∧ Forall2 Qeq res
        (weights (take tc ws
                    ++ evenShares (Zsum (take val' (drop tc ws))) val'
                    ++ drop (tc + val') ws)).
Proof.
  intros Hch Hnn Htc Hval val'.
  assert (length chances = length ws) as Hlen.
  { apply Forall2_length in Hch. unfold weights in Hch.
    by rewrite length_fmap in Hch. }
  destruct (clip_bounds (length ws) tc val Htc Hval) as (Hv1 & Hv2 & _ & _).
  fold val' in Hv1, Hv2.
  unfold averageGroup. rewrite Hlen. fold (clip (length ws) tc val). fold val'.
  unfold JS.slice. replace (tc + val' - tc)%nat with val' by lia.
  set (zs := take val' (drop tc ws)).
  assert (Forall2 Qeq (take val' (drop tc chances)) (weights zs)) as Hzs.
  { unfold zs, weights. rewrite fmap_take, fmap_drop.
    by apply Forall2_take, Forall2_drop. }
  assert (length zs = val') as Hzlen.
  { unfold zs. rewrite length_take, length_drop. lia. }
  destruct (reduce_add_weights _ zs Hzs) as (total & -> & Htotal).
  { intros E. rewrite E in Hzlen. simpl in Hzlen. lia. }
  cbn [res_bind].
  assert (0 ≤ Zsum zs) as Hsum.
  { apply Zsum_nonneg. unfold zs. by apply Forall_take, Forall_drop. }
  destruct (rem_weights total (Zsum zs) (Z.of_nat val') Htotal Hsum) as [Hrem Hnv];
    [lia|].
  rewrite spread_ok by lia. cbn [res_bind]. eexists. split; [reflexivity|].
  rewrite !weights_app. apply Forall2_app; [|apply Forall2_app].
  - unfold weights. rewrite fmap_take. by apply Forall2_take.
  - rewrite (spreadVals_replicate _ _ _ _ Hrem).
    pose proof (Z.mod_pos_bound (Zsum zs) (Z.of_nat val')).
    replace (Z.to_nat (Zsum zs `mod` Z.of_nat val') `min` val')%nat
      with (Z.to_nat (Zsum zs `mod` Z.of_nat val')) by lia.
    unfold evenShares. rewrite weights_app. apply Forall2_app.
    + apply Forall2_Qeq_replicate. rewrite Hnv, inject_Z_plus. reflexivity.
    + by apply Forall2_Qeq_replicate.
  - unfold weights. rewrite fmap_drop. by apply Forall2_drop.
Qed.

(** The shape of the array after one group of the final pass. *)
Lemma averaged_weights (tc val' : nat) (ws : list Z) :
  Forall (λ w, 0 ≤ w) ws → (1 ≤ val')%nat → (tc + val' ≤ length ws)%nat →
  let ws' := take tc ws ++ evenShares (Zsum (take val' (drop tc ws))) val'
               ++ drop (tc + val') ws in
  Forall (λ w, 0 ≤ w) ws' ∧ Zsum ws' = Zsum ws ∧ length ws' = length ws.
Proof.
  intros Hnn Hv Hlen ws'. unfold ws'.
  assert (0 ≤ Zsum (take val' (drop tc ws))) as Hsum.
  { apply Zsum_nonneg. by apply Forall_take, Forall_drop. }
  split; [|split].
  - apply Forall_app. split; [by apply Forall_take|].
    apply Forall_app. split; [|by apply Forall_drop].
    apply evenShares_nonneg; [done|lia].
  - transitivity (Zsum (take tc ws ++ take val' (drop tc ws)
                          ++ drop (tc + val') ws)).
    + by rewrite !Zsum_app, evenShares_sum by lia.
    + f_equal. by rewrite <- drop_drop, !take_drop.
  - rewrite !length_app, evenShares_length by lia.
    rewrite length_take, length_drop. lia.
Qed.

(** The final pass keeps the weights non-negative integers, and keeps
    their number and their sum. *)
Lemma updateChances_loop_final (wps : list (Q * nat)) :
  ∀ (tc : nat) (chances : list Q) (ws : list Z),
    Forall2 Qeq chances (weights ws) → Forall (λ w, 0 ≤ w) ws →
    (tc < length ws)%nat →
    ∃ res ws', updateChances_loop true wps tc chances = Ok res
      ∧ Forall2 Qeq res (weights ws') ∧ Forall (λ w, 0 ≤ w) ws'
      ∧ Zsum ws' = Zsum ws ∧ length ws' = length ws.
Proof.
  induction wps as [|[k val] wps IH]; intros tc chances ws Hch Hnn Htc.
  - exists chances, ws. by simpl.
  - cbn [updateChances_loop].
    destruct (Nat.ltb_spec 1 val) as [Hval|Hval].
    + destruct (averageGroup_final tc val chances ws Hch Hnn Htc) as (res & -> & Hres);
        [lia|].
      destruct (clip_bounds (length ws) tc val Htc) as (Hv1 & Hv2 & _ & _); [lia|].
      destruct (averaged_weights tc (clip (length ws) tc val) ws Hnn Hv1 Hv2)
        as (Hnn' & Hsum' & Hlen').
      cbn [res_bind fst snd].
      destruct (Nat.leb_spec (length res) (tc + clip (length ws) tc val)).
      * eexists res, _. split; [done|]. split; [exact Hres|]. done.
      * assert (length res = length ws) as Hlr.
        { apply Forall2_length in Hres. unfold weights in Hres.
          rewrite length_fmap in Hres. lia. }
        destruct (IH (tc + clip (length ws) tc val)%nat res _ Hres Hnn')
          as (res' & ws'' & Hloop & Hres' & Hnn'' & Hsum'' & Hlen''); [lia|].
        exists res', ws''. split; [done|]. split; [done|]. split; [done|].
        split; lia.
    + cbn [res_bind fst snd].
      destruct (Nat.leb_spec (length chances) (tc + val)).
      * by exists chances, ws.
      * assert (length chances = length ws) as Hlr.
        { apply Forall2_length in Hch. unfold weights in Hch.
          by rewrite length_fmap in Hch. }
        apply IH; [done|done|lia].
Qed.

(** The sum of the lottery weights is kept by the final pass of
    [updateChances]. *)
Lemma updateChances_final_sum (ws : list Z) (teams : list TeamFiltered) :
  Forall (λ w, 0 ≤ w) ws → ws ≠ [] →
  ∃ res ws', updateChances (weights ws) teams true = Ok res
    ∧ Forall2 Qeq res (weights ws') ∧ Forall (λ w, 0 ≤ w) ws'
    ∧ Zsum ws' = Zsum ws ∧ length ws' = length ws.
Proof.
  intros Hnn Hne. unfold updateChances.
  apply updateChances_loop_final; [apply Forall2_Qeq_refl|done|].
  destruct ws; [done|simpl; lia].
Qed.

(** *** The groups of [countBy] *)

Lemma Qeq_bool_compat_r (k w w' : Q) :
  (w == w')%Q → Qeq_bool k w = Qeq_bool k w'.
Proof.
  intros H. destruct (Qeq_bool k w') eqn:E.
  - apply Qeq_bool_iff. apply Qeq_bool_iff in E. by rewrite H.
  - destruct (Qeq_bool k w) eqn:E'; [|done].
    apply Qeq_bool_iff in E'. rewrite H in E'. apply Qeq_bool_iff in E'.
    congruence.
Qed.

Lemma getc_compat (w w' : Q) (acc : list (Q * nat)) :
  (w == w')%Q → getc w acc = getc w' acc.
Proof.
  intros H. induction acc as [|[k c] acc IH]; [done|]. simpl.
  by rewrite (Qeq_bool_compat_r k w w' H), IH.
Qed.

Lemma getc_countBy_add (w w' : Q) (acc : list (Q * nat)) :
  getc w (countBy_add w' acc)
  = (getc w acc + (if Qeq_bool w' w then 1 else 0))%nat.
Proof.
  induction acc as [|[k c] acc IH]; simpl.
  - destruct (Qeq_bool w' w); lia.
  - destruct (Qeq_bool k w') eqn:Ekw'; simpl.
    + apply Qeq_bool_iff in Ekw'.
      destruct (Qeq_bool k w) eqn:Ekw.
      * apply Qeq_bool_iff in Ekw.
        assert (Qeq_bool w' w = true) as ->; [|lia].
        apply Qeq_bool_iff. by rewrite <- Ekw', Ekw.
      * destruct (Qeq_bool w' w) eqn:Eww; [|lia].
        apply Qeq_bool_iff in Eww. apply Qeq_bool_neq in Ekw.
        destruct Ekw. by rewrite Ekw', Eww.
    + destruct (Qeq_bool k w) eqn:Ekw; [|exact IH].
      destruct (Qeq_bool w' w) eqn:Eww; [|lia].
      apply Qeq_bool_iff in Eww, Ekw. apply Qeq_bool_neq in Ekw'.
      destruct Ekw'. by rewrite Ekw, Eww.
Qed.

Lemma countBy_snoc (ts : list TeamFiltered) (t : TeamFiltered) :
  countBy (ts ++ [t]) = countBy_add (winp t) (countBy ts).
Proof. unfold countBy. by rewrite foldl_app. Qed.

Lemma cnt_app (w : Q) (l k : list TeamFiltered) :
  cnt w (l ++ k) = (cnt w l + cnt w k)%nat.
Proof. induction l as [|t l IH]; simpl; [done|]. rewrite IH. lia. Qed.

Lemma getc_countBy (w : Q) (teams : list TeamFiltered) :
  getc w (countBy teams) = cnt w teams.
Proof.
  induction teams as [|t ts IH] using rev_ind; [done|].
  rewrite countBy_snoc, getc_countBy_add, cnt_app, IH. simpl. lia.
Qed.

Lemma countBy_add_keys (w : Q) (acc : list (Q * nat)) :
  (countBy_add w acc).*1 = acc.*1
  ∨ ((countBy_add w acc).*1 = acc.*1 ++ [w]
     ∧ ∀ k, k ∈ acc.*1 → ¬ (k == w)%Q).
Proof.
  induction acc as [|[k c] acc IH]; cbn [countBy_add].
  - right. split; [done|]. by intros k ?%elem_of_nil.
  - destruct (Qeq_bool k w) eqn:E; [by left|]. rewrite !fmap_cons. cbn [fst].
    apply Qeq_bool_neq in E. destruct IH as [->|[-> Hk]]; [by left|].
    right. split; [done|]. by intros k' [->|?]%elem_of_cons; [|apply Hk].
Qed.

Lemma keysDistinct_snoc (ks : list Q) (w : Q) :
  keysDistinct ks → (∀ k, k ∈ ks → ¬ (k == w)%Q) → keysDistinct (ks ++ [w]).
Proof.
  induction ks as [|k ks IH]; intros Hd Hw; simpl.
  - split; [|done]. by intros k' ?%elem_of_nil.
  - destruct Hd as [Hk Hd]. split.
    + intros k' [Hin|Hin]%elem_of_app; [by apply Hk|].
      apply list_elem_of_singleton in Hin as ->.
      intros E. apply (Hw k); [by left|]. by symmetry.
    + apply IH; [done|]. intros k' Hin. apply Hw. by right.
Qed.

Lemma countBy_keys (teams : list TeamFiltered) :
  keysDistinct (countBy teams).*1
  ∧ ∀ k, k ∈ (countBy teams).*1 → k ∈ winp <$> teams.
Proof.
  induction teams as [|t ts [IHd IHk]] using rev_ind.
  - split; [done|]. by intros k ?%elem_of_nil.
  - rewrite countBy_snoc, fmap_app.
    destruct (countBy_add_keys (winp t) (countBy ts)) as [->|[-> Hfresh]].
    + split; [done|]. intros k Hk. apply elem_of_app. left. by apply IHk.
    + split; [by apply keysDistinct_snoc|].
      intros k [Hk|Hk]%elem_of_app; apply elem_of_app; [left; by apply IHk|].
      by right.
Qed.

Lemma getc_elem (k : Q) (c : nat) (acc : list (Q * nat)) :
  keysDistinct acc.*1 → (k, c) ∈ acc → getc k acc = c.
Proof.
  induction acc as [|[k0 c0] acc IH]; intros Hd Hin; [by apply elem_of_nil in Hin|].
  simpl in *. destruct Hd as [Hk Hd].
  apply elem_of_cons in Hin as [[= -> ->]|Hin].
  - by rewrite Qeq_bool_refl.
  - destruct (Qeq_bool k0 k) eqn:E; [|by apply IH].
    apply Qeq_bool_iff in E. destruct (Hk k).
    + apply list_elem_of_fmap. by exists (k, c).
    + by symmetry.
Qed.

Lemma getc_pos (w : Q) (acc : list (Q * nat)) :
  (1 ≤ getc w acc)%nat → ∃ k, (k, getc w acc) ∈ acc ∧ (k == w)%Q.
Proof.
  induction acc as [|[k c] acc IH]; simpl; [lia|].
  destruct (Qeq_bool k w) eqn:E.
  - intros _. exists k. split; [by left|]. by apply Qeq_bool_iff.
  - intros H. destruct (IH H) as (k' & Hin & Hk'). exists k'. split; [by right|done].
Qed.

Lemma cnt_all (w : Q) (ts : list TeamFiltered) :
  Forall (λ t, winp t == w)%Q ts → cnt w ts = length ts.
Proof.
  induction 1 as [|t ts Ht _ IH]; simpl; [done|].
  apply Qeq_bool_iff in Ht. rewrite Ht, IH. done.
Qed.

#[local] Instance sortBy_key_total :
  Total (λ x y : Q * nat, Is_true (Qle_bool x.1 y.1)).
Proof.
  intros x y. destruct (Qlt_le_dec y.1 x.1) as [H|H].
  - right. apply Is_true_true, Qle_bool_iff. by apply Qlt_le_weak.
  - left. by apply Is_true_true, Qle_bool_iff.
Qed.

#[local] Instance sortBy_key_trans :
  Transitive (λ x y : Q * nat, Is_true (Qle_bool x.1 y.1)).
Proof.
  intros x y z Hxy Hyz. apply Is_true_true, Qle_bool_iff.
  apply Is_true_true, Qle_bool_iff in Hxy, Hyz. by eapply Qle_trans.
Qed.

(** In a team list whose first [n] teams share the lowest win percentage
    [w], the first group after sorting is theirs and has at least [n]
    members. *)
Lemma sortBy_key_head (teams : list TeamFiltered) (w : Q) (n : nat) :
  (1 ≤ n ≤ length teams)%nat →
  Forall (λ t, winp t == w)%Q (take n teams) →
  Forall (λ t, w <= winp t)%Q teams →
  ∃ k c rest, sortBy_key (countBy teams) = (k, c) :: rest ∧ (n ≤ c)%nat.
Proof.
  intros Hn Htied Hmin.
  assert (n ≤ cnt w teams)%nat as Hcnt.
  { rewrite <- (take_drop n teams), cnt_app, (cnt_all w _ Htied), length_take. lia. }
  destruct (countBy_keys teams) as [Hd Hkeys].
  destruct (getc_pos w (countBy teams)) as (kw & Hkw & Ekw);
    [rewrite getc_countBy; lia|].
  rewrite getc_countBy in Hkw.
  pose proof (merge_sort_Permutation
                (λ x y : Q * nat, Is_true (Qle_bool x.1 y.1)) (countBy teams)) as Hperm.
  pose proof (StronglySorted_merge_sort
                (λ x y : Q * nat, Is_true (Qle_bool x.1 y.1)) (countBy teams)) as Hsorted.
  fold (sortBy_key (countBy teams)) in Hperm, Hsorted.
  assert ((kw, cnt w teams) ∈ sortBy_key (countBy teams)) as Hin by by rewrite Hperm.
  destruct (sortBy_key (countBy teams)) as [|[k c] rest] eqn:Hs;
    [by apply elem_of_nil in Hin|].
  exists k, c, rest. split; [done|].
  assert ((k, c) ∈ countBy teams) as Hkc by (rewrite <- Hperm; by left).
  assert (w <= k)%Q as Hwk.
  { assert (k ∈ winp <$> teams) as Hk.
    { apply Hkeys. apply list_elem_of_fmap. by exists (k, c). }
    apply list_elem_of_fmap in Hk as (t & -> & Ht).
    by apply (proj1 (Forall_forall _ _) Hmin). }
  assert (k == w)%Q as Ek.
  { apply elem_of_cons in Hin as [[= <- _]|Hin]; [done|].
    apply StronglySorted_inv in Hsorted as [_ Hall].
    apply (proj1 (Forall_forall _ _) Hall) in Hin. simpl in Hin.
    apply Is_true_true, Qle_bool_iff in Hin. rewrite Ekw in Hin.
    by apply Qle_antisym. }
  rewrite <- (getc_elem k c (countBy teams) Hd Hkc).
  rewrite (getc_compat k w _ Ek), getc_countBy. done.
Qed.

Lemma cnt_pos (w : Q) (ts : list TeamFiltered) :
  (1 ≤ cnt w ts)%nat → ∃ j t, ts !! j = Some t ∧ (winp t == w)%Q.
Proof.
  induction ts as [|t ts IH]; simpl; [lia|].
  destruct (Qeq_bool (winp t) w) eqn:E.
  - intros _. exists 0%nat, t. split; [done|]. by apply Qeq_bool_iff.
  - intros H. destruct (IH H) as (j & t' & Hj & Ht'). by exists (S j), t'.
Qed.

Lemma cnt_distinct (w : Q) (ts : list TeamFiltered) :
  distinctWinp ts → (cnt w ts ≤ 1)%nat.
Proof.
  induction ts as [|t ts IH]; intros Hd; simpl; [lia|].
  assert (distinctWinp ts) as Hd'.
  { intros i j ti tj Hij Hi Hj. apply (Hd (S i) (S j)); [lia|done|done]. }
  specialize (IH Hd'). destruct (Qeq_bool (winp t) w) eqn:E; [|lia].
  apply Qeq_bool_iff in E.
  destruct (cnt w ts) as [|n] eqn:Hc; [lia|].
  destruct (cnt_pos w ts) as (j & t' & Hj & Ht'); [lia|].
  destruct (Hd 0%nat (S j) t t'); [lia|done|done|]. by rewrite E, Ht'.
Qed.

Lemma countBy_distinct (teams : list TeamFiltered) :
  distinctWinp teams → Forall (λ kc : Q * nat, (kc.2 ≤ 1)%nat) (countBy teams).
Proof.
  intros Hd. apply Forall_forall. intros [k c] Hin. simpl.
  rewrite <- (getc_elem k c (countBy teams)); [|apply countBy_keys|done].
  rewrite getc_countBy. by apply cnt_distinct.
Qed.

Lemma updateChances_loop_ones (isFinal : bool) (wps : list (Q * nat)) :
  Forall (λ kc : Q * nat, (kc.2 ≤ 1)%nat) wps →
  ∀ tc chances, updateChances_loop isFinal wps tc chances = Ok chances.
Proof.
  induction 1 as [|[k val] wps Hval _ IH]; intros tc chances; [done|].
  cbn [updateChances_loop]. simpl in Hval.
  destruct (Nat.ltb_spec 1 val); [lia|]. cbn [res_bind fst snd].
  by destruct (_ <=? _)%nat.
Qed.

(** One group, any pass: the group is cut to end at the end of the array,
    the array keeps its length, and the entries outside the group stay. *)
Lemma averageGroup_clip (isFinal : bool) (tc val : nat) (chances : list Q) :
  (tc < length chances)%nat → (1 ≤ val)%nat →
  ∃ res, averageGroup isFinal tc val chances
         = Ok (clip (length chances) tc val, res)
    ∧ length res = length chances
    ∧ take tc res = take tc chances
    ∧ drop (tc + clip (length chances) tc val) res
      = drop (tc + clip (length chances) tc val) chances.
Proof.
  intros Htc Hval.
  destruct (clip_bounds (length chances) tc val Htc Hval) as (Hv1 & Hv2 & _ & _).
  unfold averageGroup. fold (clip (length chances) tc val).
  set (val' := clip (length chances) tc val) in *.
  unfold JS.slice. replace (tc + val' - tc)%nat with val' by lia.
  destruct (take val' (drop tc chances)) as [|x xs] eqn:Hs.
  { apply (f_equal length) in Hs. rewrite length_take, length_drop in Hs.
    simpl in Hs. lia. }
  cbn [JS.reduce_add res_bind]. rewrite spread_ok by lia. cbn [res_bind].
  eexists. split; [reflexivity|].
  assert (length (take tc chances) = tc) as Hlt by (rewrite length_take; lia).
  split; [|split].
  - rewrite !length_app, spreadVals_length, length_take, length_drop. lia.
  - by rewrite take_app_length'.
  - rewrite app_assoc. rewrite drop_app_length'; [done|].
    rewrite length_app, spreadVals_length. lia.
Qed.

Lemma averageGroup_nonfinal (val : nat) (chances : list Q) :
  (1 ≤ length chances ≤ val)%nat →
  ∃ total, (total == Qsum chances)%Q
    ∧ averageGroup false 0 val chances
      = Ok (length chances,
            replicate (length chances)
              ((total - 0) / inject_Z (Z.of_nat (length chances)))%Q).
Proof.
  intros [H1 H2]. unfold averageGroup. fold (clip (length chances) 0 val).
  destruct (clip_bounds (length chances) 0 val) as (_ & _ & _ & Hc); [lia|lia|].
  simpl in Hc. rewrite Hc by lia.
  unfold JS.slice. rewrite Nat.add_0_l, Nat.sub_0_r, drop_0, firstn_all.
  destruct chances as [|x xs] eqn:Hch; [simpl in H1; lia|]. rewrite <- Hch in *.
  exists (foldl Qplus x xs). split.
  { rewrite foldl_Qplus. by rewrite Hch. }
  rewrite Hch at 1. cbn [JS.reduce_add res_bind].
  rewrite spread_ok by lia. cbn [res_bind].
  rewrite (spreadVals_replicate _ _ _ 0) by reflexivity.
  rewrite take_0, Nat.add_0_l, drop_all. simpl Z.to_nat.
  by rewrite Nat.min_0_l, Nat.sub_0_r, app_nil_r.
Qed.

Lemma updateChances_tied_final (ws : list Z) (teams : list TeamFiltered) (w : Q) :
  (1 ≤ length ws ≤ length teams)%nat →
  Forall (λ t, winp t == w)%Q (take (length ws) teams) →
  Forall (λ t, w <= winp t)%Q teams →
  Forall (λ x, 0 ≤ x) ws →
  ∃ res, updateChances (weights ws) teams true = Ok res
    ∧ Forall2 Qeq res (weights (evenShares (Zsum ws) (length ws))).
Proof.
  intros Hn Htied Hmin Hnn.
  destruct (sortBy_key_head teams w (length ws) Hn Htied Hmin)
    as (k & c & rest & Hs & Hc).
  unfold updateChances. rewrite Hs. cbn [updateChances_loop].
  assert (length (weights ws) = length ws) as Hlen by apply length_fmap.
  destruct (Nat.ltb_spec 1 c) as [Hc1|Hc1].
  - destruct (averageGroup_final 0 c (weights ws) ws) as (res & -> & Hres);
      [apply Forall2_Qeq_refl|done|lia|lia|].
    destruct (clip_bounds (length ws) 0 c) as (_ & _ & _ & Hclip); [lia|lia|].
    simpl in Hclip. rewrite Hclip in * by lia.
    rewrite ?Nat.add_0_l, take_0, drop_0, firstn_all, drop_all, app_nil_r in Hres.
    simpl in Hres.
    cbn [res_bind fst snd].
    assert (length res = length ws) as Hlr.
    { apply Forall2_length in Hres. unfold weights in Hres.
      rewrite length_fmap, evenShares_length in Hres; lia. }
    destruct (Nat.leb_spec (length res) (0 + length ws)); [|lia].
    by exists res.
  - cbn [res_bind fst snd].
    destruct (Nat.leb_spec (length (weights ws)) (0 + c)); [|lia].
    exists (weights ws). split; [done|].
    assert (length ws = 1)%nat as Hl1 by lia.
    destruct ws as [|z [|? ?]]; simpl in Hl1; try lia.
    unfold evenShares. change (Z.of_nat (length [z])) with 1.
    rewrite Z.mod_1_r, Z.div_1_r. simpl. rewrite Z.add_0_r.
    apply Forall2_Qeq_refl.
Qed.

Lemma updateChances_tied_nonfinal (chances : list Q) (teams : list TeamFiltered)
    (w : Q) :
  (1 ≤ length chances ≤ length teams)%nat →
  Forall (λ t, winp t == w)%Q (take (length chances) teams) →
  Forall (λ t, w <= winp t)%Q teams →
  ∃ res, updateChances chances teams false = Ok res
    ∧ length res = length chances
    ∧ Forall (λ c, c == Qsum chances / inject_Z (Z.of_nat (length chances)))%Q res.
Proof.
  intros Hn Htied Hmin.
  destruct (sortBy_key_head teams w (length chances) Hn Htied Hmin)
    as (k & c & rest & Hs & Hc).
  unfold updateChances. rewrite Hs. cbn [updateChances_loop].
  destruct (Nat.ltb_spec 1 c) as [Hc1|Hc1].
  - destruct (averageGroup_nonfinal c chances) as (total & Htotal & ->); [lia|].
    cbn [res_bind fst snd]. rewrite length_replicate.
    destruct (Nat.leb_spec (length chances) (0 + length chances)); [|lia].
    eexists. split; [done|]. split; [by rewrite length_replicate|].
    apply Forall_replicate. rewrite Htotal. unfold Qminus. by rewrite Qplus_0_r.
  - cbn [res_bind fst snd].
    destruct (Nat.leb_spec (length chances) (0 + c)); [|lia].
    exists chances. split; [done|]. split; [done|].
    destruct chances as [|x [|? ?]]; simpl in *; try lia.
    constructor; [|done]. unfold Qsum. simpl. field.
Qed.

(** C2: [updateChances] on a weight table and a team list.
    - If the win percentages of the teams are pairwise different, the table
      is returned as it is.
    - If the teams in the range of the table (the first [k] teams of a list
      in ascending order, [k] the length of the table) share one win
      percentage, then after the final pass every weight of a table of
      non-negative integers is the quotient [total / k], plus one for the
      first [total mod k] entries, and the sum is still [total]; after a
      non-final pass no remainder is set apart and every weight is the
      exact quotient of [total] by [k].
    - A group that would run past the end of the table is cut to end at
      the end of the table: the table never grows. *)
Theorem updateChances_ties (chances : list Q) (teams : list TeamFiltered) :
  (∀ isFinal, distinctWinp teams →
     updateChances chances teams isFinal = Ok chances)
  ∧ (∀ w, (1 ≤ length chances ≤ length teams)%nat →
       Forall (λ t, winp t == w)%Q (take (length chances) teams) →
       Forall (λ t, w <= winp t)%Q teams →
       (∀ ws, chances = weights ws → Forall (λ x, 0 ≤ x) ws →
          ∃ res, updateChances chances teams true = Ok res
            ∧ Forall2 Qeq res (weights (evenShares (Zsum ws) (length ws)))
            ∧ (Qsum res == Qsum chances)%Q)
       ∧ (∃ res, updateChances chances teams false = Ok res
            ∧ length res = length chances
            ∧ Forall (λ c, c == Qsum chances
                                / inject_Z (Z.of_nat (length chances)))%Q res))
  ∧ (∀ isFinal tc val,
       (tc < length chances)%nat → (1 < val)%nat →
       (length chances ≤ tc + val)%nat →
       ∃ res, averageGroup isFinal tc val chances
              = Ok ((length chances - tc)%nat, res)
         ∧ length res = length chances).
Proof.
  split; [|split].
  - intros isFinal Hd. unfold updateChances.
    apply updateChances_loop_ones.
    unfold sortBy_key. rewrite merge_sort_Permutation.
    by apply countBy_distinct.
  - intros w Hn Htied Hmin. split.
    + intros ws -> Hnn.
      assert (length (weights ws) = length ws) as Hlen by apply length_fmap.
      rewrite Hlen in *.
      destruct (updateChances_tied_final ws teams w Hn Htied Hmin Hnn)
        as (res & Hres & Hshares).
      exists res. split; [done|]. split; [done|].
      rewrite (Qsum_Forall2 _ _ Hshares), !Qsum_weights.
      rewrite evenShares_sum; [reflexivity|lia].
    + by apply (updateChances_tied_nonfinal chances teams w).
  - intros isFinal tc val Htc Hval Hlen.
    destruct (averageGroup_clip isFinal tc val chances Htc) as (res & Hres & Hl & _);
      [lia|].
    destruct (clip_bounds (length chances) tc val Htc) as (_ & _ & _ & Hc); [lia|].
    exists res. split; [|done]. rewrite Hres. do 2 f_equal. lia.
Qed.

(** *** The lottery draw *)

Lemma while_inv {S} (I : S → Prop) (cond : S → bool) (body : S → res S) :
  (∀ s s', I s → cond s = true → body s = Ok s' → I s') →
  ∀ fuel s s', I s → JS.while fuel cond body s = Ok s' → I s' ∧ cond s' = false.
Proof.
  intros Hstep. induction fuel as [|fuel IH]; intros s s' Hs; simpl.
  - destruct (cond s) eqn:E; [done|]. by intros [= <-].
  - destruct (cond s) eqn:E; [|by intros [= <-]].
    destruct (body s) as [s1|] eqn:Hb; [|done]. cbn [res_bind].
    apply IH. by apply (Hstep s).
Qed.

Lemma drawStep_inv (rnd : Random) (chances : list Q) (tids : list Z)
    (s s' : DrawState) :
  drawInv tids s → (length (ds_firstThree s) <? 3)%nat = true →
  drawStep rnd chances s = Ok s' → drawInv tids s'.
Proof.
  intros (Hnd & Hlt & Hlen & Htids) Hc. apply Nat.ltb_lt in Hc.
  unfold drawStep.
  destruct (JS.findIndex _ chances) as [i|]; [|done]. cbn [of_option res_bind].
  case_bool_decide as Hin.
  - intros [= <-]. done.
  - destruct (ds_teams s !! i) as [t|] eqn:Ht; [|done]. cbn [of_option res_bind].
    intros [= <-]. unfold drawInv. simpl. split; [|split; [|split]].
    + apply NoDup_app. split; [done|]. split; [|apply NoDup_singleton].
      intros x Hx ->%list_elem_of_singleton. done.
    + intros j. rewrite length_insert.
      intros [Hj| ->%list_elem_of_singleton]%elem_of_app; [by apply Hlt|].
      by apply lookup_lt_Some in Ht.
    + rewrite length_app. simpl. lia.
    + rewrite list_fmap_insert. simpl. rewrite list_insert_id; [done|].
      by rewrite list_lookup_fmap, Ht.
Qed.

(** A position that has already won is rejected: only the count of draws
    changes, and the loop draws again. *)
Lemma drawStep_duplicate (rnd : Random) (chances : list Q) (s : DrawState)
    (i : nat) :
  JS.findIndex (λ c, JS.Qltb (inject_Z (randInt rnd (ds_draws s))) c) chances
    = Some i →
  i ∈ ds_firstThree s →
  drawStep rnd chances s
  = Ok {| ds_teams := ds_teams s; ds_firstThree := ds_firstThree s;
          ds_draws := S (ds_draws s) |}.
Proof.
  intros Hi Hin. unfold drawStep. rewrite Hi. cbn [of_option res_bind].
  by rewrite bool_decide_eq_true_2.
Qed.

Lemma assignRandVals_tids (vs : list Z) (ts ts' : list TeamFiltered) :
  assignRandVals vs ts = Ok ts' → t_tid <$> ts' = t_tid <$> ts.
Proof.
  revert vs ts'. induction ts as [|t ts IH]; intros vs ts'; simpl.
  - by intros [= <-].
  - destruct vs as [|v vs]; [done|].
    destruct (assignRandVals vs ts) as [ts1|] eqn:E; [|done]. cbn [res_bind].
    intros [= <-]. simpl. f_equal. by apply (IH vs).
Qed.

Lemma insert_sorted_Permutation {A} (cmp : A → A → Q) (x : A) (l : list A) :
  JS.insert_sorted cmp x l ≡ₚ x :: l.
Proof.
  induction l as [|y l IH]; simpl; [done|].
  destruct (Qle_bool (cmp x y) 0); [done|]. rewrite IH. apply Permutation_swap.
Qed.

Lemma sort_Permutation {A} (cmp : A → A → Q) (l : list A) : JS.sort cmp l ≡ₚ l.
Proof.
  induction l as [|x l IH]; [done|]. unfold JS.sort in *. simpl.
  by rewrite insert_sorted_Permutation, IH.
Qed.

Lemma lotterySort_tids (g : G) (rnd : Random) (ts ts' : list TeamFiltered) :
  lotterySort g rnd ts = Ok ts' → t_tid <$> ts' ≡ₚ t_tid <$> ts.
Proof.
  unfold lotterySort.
  destruct (assignRandVals _ ts) as [ts1|] eqn:E; [|done]. cbn [res_bind].
  intros [= <-]. rewrite sort_Permutation. by rewrite (assignRandVals_tids _ _ _ E).
Qed.

Lemma Qsum_scale (l : list Q) (a b : Q) :
  (Qsum ((λ c, c / a * b)%Q <$> l) == Qsum l / a * b)%Q.
Proof.
  unfold Qsum. induction l as [|x l IH]; simpl.
  - unfold Qdiv. ring.
  - rewrite IH. unfold Qdiv. ring.
Qed.

(** The weights always add up to 1000 when the cumulative sums are taken
    (section 3 of the specification). *)
Lemma updateChances_base_total (teams : list TeamFiltered) :
  ∃ chances total,
    updateChances baseChances teams true = Ok chances
    ∧ length chances = 14%nat
    ∧ JS.reduce_add chances = Ok total
    ∧ (total == 1000)%Q ∧ (Qsum chances == 1000)%Q.
Proof.
  destruct (updateChances_final_sum baseWeights teams)
    as (res & ws' & Hres & Heq & _ & Hsum & Hlen).
  { unfold baseWeights. repeat constructor; lia. }
  { done. }
  change (weights baseWeights) with baseChances in Hres.
  assert (length res = 14%nat) as Hl.
  { apply Forall2_length in Heq. unfold weights in Heq.
    rewrite length_fmap, Hlen in Heq. exact Heq. }
  assert (Qsum res == 1000)%Q as Hs.
  { rewrite (Qsum_Forall2 _ _ Heq), Qsum_weights, Hsum. reflexivity. }
  destruct res as [|x xs] eqn:Hr; [done|].
  exists (x :: xs), (foldl Qplus x xs). split; [done|]. split; [done|].
  split; [done|]. split; [|done]. by rewrite foldl_Qplus.
Qed.

(** What a completed lottery guarantees. *)
Lemma lottery_facts (g : G) (rnd : Random) (fuel : nat)
    (teams : list TeamFiltered) (lot : Lottery) :
  lottery g rnd fuel teams = Ok lot →
  length (l_firstThree lot) = 3%nat
  ∧ NoDup (l_firstThree lot)
  ∧ (∀ i, i ∈ l_firstThree lot → (i < length (l_teams lot))%nat)
  ∧ t_tid <$> l_teams lot ≡ₚ t_tid <$> teams
  ∧ length (l_chancePct lot) = 14%nat
  ∧ (Qsum (l_chancePct lot) == 100)%Q.
Proof.
  unfold lottery.
  destruct (lotterySort g rnd teams) as [teams1|] eqn:Hsort; [|done].
  cbn [res_bind].
  destruct (updateChances_base_total teams1)
    as (chances & total & Hup & Hlen & Hred & Htotal & Hsum).
  rewrite Hup. cbn [res_bind]. rewrite Hred. cbn [res_bind].
  destruct (JS.while fuel _ _ _) as [s|] eqn:Hw; [|done]. cbn [res_bind].
  intros [= <-]. simpl.
  apply (while_inv (drawInv (t_tid <$> teams1))) in Hw
    as [(Hnd & Hlt & Hle & Htids) Hc].
  - apply Nat.ltb_ge in Hc. split; [lia|]. split; [done|]. split; [done|].
    split; [rewrite Htids; by apply (lotterySort_tids g rnd)|].
    split; [by rewrite length_fmap|].
    rewrite Qsum_scale, Hsum, Htotal. reflexivity.
  - intros s0 s1. apply drawStep_inv.
  - unfold drawInv. simpl. split; [constructor|]. split; [|split; [lia|done]].
    by intros i ?%elem_of_nil.
Qed.

(** C3: in every run of the lottery of [genOrder] that completes, the
    winners of picks 1 to 3 are three different positions of the sorted
    team list (a position drawn again is rejected and the draw repeated),
    and the percentage chances computed before the cumulative sums add up
    to 100. *)
Theorem lottery_winners (g : G) (rnd : Random) (fuel : nat)
    (teams : list TeamFiltered) (lot : Lottery) :
  lottery g rnd fuel teams = Ok lot →
  length (l_firstThree lot) = 3%nat
  ∧ NoDup (l_firstThree lot)
  ∧ (∀ i, i ∈ l_firstThree lot → (i < length (l_teams lot))%nat)
  ∧ length (l_chancePct lot) = 14%nat
  ∧ (Qsum (l_chancePct lot) == 100)%Q.
Proof.
  intros H. destruct (lottery_facts g rnd fuel teams lot H)
    as (H1 & H2 & H3 & _ & H5 & H6).
  done.
Qed.

(** *** Completion of the lottery *)

Lemma findIndex_Some {A} (P : A → bool) (l : list A) (i : nat) :
  JS.findIndex P l = Some i → (i < length l)%nat.
Proof.
  revert i. induction l as [|x l IH]; intros i; simpl; [done|].
  destruct (P x); [intros [= <-]; lia|].
  destruct (JS.findIndex P l) as [j|]; [|done]. intros [= <-].
  specialize (IH j eq_refl). lia.
Qed.

Lemma findIndex_exists {A} (P : A → bool) (l : list A) (x : A) :
  x ∈ l → P x = true → is_Some (JS.findIndex P l).
Proof.
  induction l as [|y l IH]; intros Hin Hx; [by apply elem_of_nil in Hin|].
  simpl. destruct (P y) eqn:E; [done|].
  apply elem_of_cons in Hin as [->|Hin]; [congruence|].
  destruct (IH Hin Hx) as [j ->]. done.
Qed.

Lemma cumsum_from_length (prev : Q) (l : list Q) :
  length (cumsum_from prev l) = length l.
Proof. revert prev. induction l as [|x l IH]; intros prev; simpl; [done|]. by rewrite IH. Qed.

Lemma cumsum_length (l : list Q) : length (cumsum l) = length l.
Proof. destruct l; simpl; [done|]. by rewrite cumsum_from_length. Qed.

Lemma cumsum_from_last (prev : Q) (l : list Q) :
  ∃ c, last (prev :: cumsum_from prev l) = Some c ∧ (c == prev + Qsum l)%Q.
Proof.
  revert prev. induction l as [|x l IH]; intros prev.
  - exists prev. split; [done|]. unfold Qsum. simpl. lra.
  - destruct (IH (x + prev)%Q) as (c & Hc & Hs). exists c. split; [exact Hc|].
    rewrite Hs. unfold Qsum. simpl. lra.
Qed.

Lemma cumsum_last (l : list Q) :
  l ≠ [] → ∃ c, c ∈ cumsum l ∧ (c == Qsum l)%Q.
Proof.
  destruct l as [|x l]; [done|]. intros _.
  destruct (cumsum_from_last x l) as (c & Hc & Hs). exists c. split; [|done].
  simpl. apply last_Some in Hc as [l' Hl']. rewrite Hl'.
  apply elem_of_app. right. by left.
Qed.

Lemma bucketsDrawn_S (rnd : Random) (chances : list Q) (n m i : nat) :
  bucket rnd chances n = Some i →
  bucketsDrawn rnd chances n (S m) = {[i]} ∪ bucketsDrawn rnd chances (S n) m.
Proof. intros Hi. unfold bucketsDrawn. simpl. by rewrite Hi. Qed.

(** The drawing loop returns when the draws it may make select at least
    three different positions, all of them positions of teams. *)
Lemma drawLoop_completes (rnd : Random) (chances : list Q) (fuel : nat) :
  ∀ s : DrawState,
    (∀ k, (ds_draws s ≤ k < ds_draws s + fuel)%nat →
          ∃ i, bucket rnd chances k = Some i ∧ (i < length (ds_teams s))%nat) →
    (3 ≤ length (ds_firstThree s)
         + size (bucketsDrawn rnd chances (ds_draws s) fuel
                   ∖ list_to_set (ds_firstThree s)))%nat →
    ∃ s', JS.while fuel (λ s, (length (ds_firstThree s) <? 3)%nat)
            (drawStep rnd chances) s = Ok s'.
Proof.
  induction fuel as [|fuel IH]; intros s Hb Hsize; simpl.
  - destruct (Nat.ltb_spec (length (ds_firstThree s)) 3) as [Hlt|Hge]; [|by eexists].
    unfold bucketsDrawn in Hsize. simpl in Hsize.
    rewrite difference_disjoint_L, size_empty in Hsize by set_solver. lia.
  - destruct (Nat.ltb_spec (length (ds_firstThree s)) 3) as [Hlt|Hge]; [|by eexists].
    destruct (Hb (ds_draws s)) as (i & Hi & Hil); [lia|].
    rewrite (bucketsDrawn_S _ _ _ _ _ Hi) in Hsize.
    unfold drawStep. fold (bucket rnd chances (ds_draws s)). rewrite Hi.
    cbn [of_option res_bind]. case_bool_decide as Hin.
    + cbn [res_bind]. apply IH; simpl.
      * intros k Hk. apply Hb. lia.
      * replace (({[i]} ∪ bucketsDrawn rnd chances (S (ds_draws s)) fuel)
                   ∖ list_to_set (ds_firstThree s))
          with (bucketsDrawn rnd chances (S (ds_draws s)) fuel
                  ∖ list_to_set (C:=gset nat) (ds_firstThree s)) in Hsize; [done|].
        apply set_eq. intros x. set_solver.
    + destruct (lookup_lt_is_Some_2 (ds_teams s) i Hil) as [t Ht].
      rewrite Ht. cbn [of_option res_bind]. apply IH; simpl.
      * intros k Hk. rewrite length_insert. apply Hb. lia.
      * rewrite length_app, list_to_set_app_L. simpl.
        set (B := bucketsDrawn rnd chances (S (ds_draws s)) fuel) in *.
        set (F := list_to_set (C:=gset nat) (ds_firstThree s)) in *.
        assert (size (({[i]} ∪ B) ∖ F) ≤ 1 + size (B ∖ (F ∪ ({[i]} ∪ ∅))))%nat;
          [|lia].
        etrans; [apply (subseteq_size _ ({[i]} ∪ B ∖ (F ∪ ({[i]} ∪ ∅))))|].
        { intros x. destruct (decide (x = i)); set_solver. }
        rewrite size_union by set_solver. by rewrite size_singleton.
Qed.

Lemma assignRandVals_ok (vs : list Z) (ts : list TeamFiltered) :
  (length ts ≤ length vs)%nat →
  ∃ ts', assignRandVals vs ts = Ok ts' ∧ length ts' = length ts.
Proof.
  revert vs. induction ts as [|t ts IH]; intros vs Hlen; simpl.
  - by exists [].
  - destruct vs as [|v vs]; simpl in Hlen; [lia|].
    destruct (IH vs) as (ts' & -> & Hl); [lia|]. cbn [res_bind].
    eexists. split; [done|]. simpl. by rewrite Hl.
Qed.

(** The lottery completes when every team gets a random value, there are
    at least as many teams as lottery chances, the draws are integers from
    0 to 999, and the draws the loop may make select at least three
    different positions. *)
Lemma lottery_completes (g : G) (rnd : Random) (fuel : nat)
    (teams : list TeamFiltered) :
  (length teams ≤ length (shuffle rnd 0%nat (seqZ 0 (numTeams g))))%nat →
  (14 ≤ length teams)%nat →
  (∀ k, (k < fuel)%nat → 0 ≤ randInt rnd k ≤ 999) →
  (∀ teams1 chances,
     lotterySort g rnd teams = Ok teams1 →
     updateChances baseChances teams1 true = Ok chances →
     (3 ≤ size (bucketsDrawn rnd (cumsum chances) 0 fuel))%nat) →
  ∃ lot, lottery g rnd fuel teams = Ok lot.
Proof.
  intros Hvals H14 Hdraws Hthree. unfold lottery.
  destruct (assignRandVals_ok _ teams Hvals) as (ts' & Hassign & Hlen').
  assert (lotterySort g rnd teams = Ok (JS.sort lotteryCmp ts')) as Hsort.
  { unfold lotterySort. by rewrite Hassign. }
  rewrite Hsort. cbn [res_bind].
  set (teams1 := JS.sort lotteryCmp ts') in *.
  assert (length teams1 = length teams) as Hlen1.
  { unfold teams1. by rewrite sort_Permutation. }
  destruct (updateChances_base_total teams1)
    as (chances & total & Hup & Hlen & Hred & Htotal & Hsum).
  rewrite Hup. cbn [res_bind]. rewrite Hred. cbn [res_bind].
  destruct (cumsum_last chances) as (c & Hc & Hcs); [by destruct chances|].
  destruct (drawLoop_completes rnd (cumsum chances) fuel
              {| ds_teams := teams1; ds_firstThree := []; ds_draws := 0 |})
    as (s' & ->).
  - simpl. intros k Hk.
    destruct (findIndex_exists
                (λ c0, JS.Qltb (inject_Z (randInt rnd k)) c0) (cumsum chances) c Hc)
      as [i Hi].
    { apply Qltb_lt. rewrite Hcs, Hsum.
      change 1000%Q with (inject_Z 1000). rewrite <- Zlt_Qlt.
      destruct (Hdraws k); lia. }
    exists i. split; [exact Hi|].
    apply findIndex_Some in Hi. rewrite cumsum_length in Hi. lia.
  - simpl. rewrite difference_empty_L. apply (Hthree teams1 chances); done.
  - cbn [res_bind]. by eexists.
Qed.

Example updateChances_tied14_final :
  values (updateChances baseChances tied14 true)
  = Some [72; 72; 72; 72; 72; 72; 71; 71; 71; 71; 71; 71; 71; 71]%Q.
Proof. vm_compute. reflexivity. Qed.

Example updateChances_tied14_display :
  values (updateChances baseChances tied14 false)
  = Some (replicate 14 (500 # 7)).
Proof. vm_compute. reflexivity. Qed.

Example updateChances_ladder14 :
  updateChances baseChances ladder14 true = Ok baseChances.
Proof. vm_compute. reflexivity. Qed.

Example lottery_ladder14 :
  (λ lot, (l_firstThree lot, t_tid <$> l_teams lot))
    <$> (match lottery (league 14 5 500 20000) (rnd_draws [100; 100; 300; 900]) 10 ladder14
         with Ok lot => Some lot | Err _ => None end)
  = Some ([0; 1; 6]%nat, [13; 12; 11; 10; 9; 8; 7; 6; 5; 4; 3; 2; 1; 0]).
Proof. vm_compute. reflexivity. Qed.

Lemma updateChances_ties_witness :
  ∃ res, updateChances baseChances tied14 true = Ok res
    ∧ Forall2 Qeq res (weights (evenShares 1000 14))
    ∧ (Qsum res == Qsum baseChances)%Q.
Proof.
  destruct (updateChances_ties baseChances tied14) as (_ & Htied & _).
  destruct (Htied (1 # 2)%Q) as [Hfinal _].
  - simpl. lia.
  - apply Forall_forall. intros t Ht. vm_compute in Ht.
    repeat (apply elem_of_cons in Ht as [->|Ht]; [reflexivity|]).
    by apply elem_of_nil in Ht.
  - apply Forall_forall. intros t Ht. vm_compute in Ht.
    repeat (apply elem_of_cons in Ht as [->|Ht]; [discriminate|]).
    by apply elem_of_nil in Ht.
  - apply (Hfinal baseWeights); [reflexivity|].
    unfold baseWeights. repeat constructor; lia.
Defined.

Lemma lottery_winners_witness :
  ∃ lot, lottery (league 14 5 500 20000) (rnd_draws [100; 100; 300; 900]) 10
           ladder14 = Ok lot
    ∧ length (l_firstThree lot) = 3%nat ∧ NoDup (l_firstThree lot)
    ∧ (Qsum (l_chancePct lot) == 100)%Q.
Proof.
  destruct (lottery (league 14 5 500 20000) (rnd_draws [100; 100; 300; 900]) 10
              ladder14) as [lot|e] eqn:H.
  - exists lot. split; [reflexivity|].
    destruct (lottery_winners _ _ _ _ _ H) as (H1 & H2 & _ & _ & H5).
    split; [exact H1|]. split; [exact H2|exact H5].
  - exfalso. vm_compute in H. discriminate.
Defined.

End LotteryFacts.

(** ** genOrder *)

Module OrderFacts.
Import Draft Sample Props LotteryFacts.

Lemma lotteryWinners_tids (idx : gmap Z (gmap Z Z)) (teams : list TeamFiltered)
    (firstThree : list nat) :
  ∀ i out, lotteryWinners idx teams i firstThree = Ok out →
    Forall2 (λ e w, (t_tid <$> teams) !! w = Some (originalTid e)) out firstThree
    ∧ Forall (λ e, round e = 1) out.
Proof.
  induction firstThree as [|w ws IH]; intros i out; simpl.
  - intros [= <-]. split; constructor.
  - destruct (teams !! w) as [t|] eqn:Ht; [|done]. cbn [of_option res_bind].
    destruct (pickOwner idx (t_tid t) 1) as [owner|]; [|done]. cbn [res_bind].
    destruct (lotteryWinners idx teams (S i) ws) as [rest|] eqn:Hr; [|done].
    cbn [res_bind]. intros [= <-]. destruct (IH _ _ Hr) as [H1 H2].
    split; constructor; try done. simpl. by rewrite list_lookup_fmap, Ht.
Qed.

Lemma restOfRound1_tids (idx : gmap Z (gmap Z Z)) (firstThree : list nat)
    (ts : list TeamFiltered) :
  ∀ i pk out, restOfRound1 idx firstThree i ts pk = Ok out →
    originalTid <$> out = others firstThree i (t_tid <$> ts)
    ∧ Forall (λ e, round e = 1) out.
Proof.
  induction ts as [|t ts IH]; intros i pk out; simpl.
  - intros [= <-]. split; [done|constructor].
  - case_bool_decide; [apply IH|].
    destruct (pickOwner idx (t_tid t) 1) as [owner|]; [|done]. cbn [res_bind].
    destruct (restOfRound1 idx firstThree (S i) ts (pk + 1)) as [rest|] eqn:Hr;
      [|done].
    cbn [res_bind]. intros [= <-]. destruct (IH _ _ _ Hr) as [H1 H2].
    split; [by rewrite fmap_cons, H1|by constructor].
Qed.

Lemma secondRound_tids (idx : gmap Z (gmap Z Z)) (ts : list TeamFiltered) :
  ∀ i out, secondRound idx i ts = Ok out →
    originalTid <$> out = t_tid <$> ts ∧ Forall (λ e, round e = 2) out.
Proof.
  induction ts as [|t ts IH]; intros i out; simpl.
  - intros [= <-]. split; [done|constructor].
  - destruct (pickOwner idx (t_tid t) 2) as [owner|]; [|done]. cbn [res_bind].
    destruct (secondRound idx (S i) ts) as [rest|] eqn:Hr; [|done].
    cbn [res_bind]. intros [= <-]. destruct (IH _ _ Hr) as [H1 H2].
    split; [by rewrite fmap_cons, H1|by constructor].
Qed.

Lemma others_below (F : list nat) (w : nat) (tids : list Z) :
  ∀ i, (w < i)%nat → others (w :: F) i tids = others F i tids.
Proof.
  induction tids as [|t tids IH]; intros i Hw; simpl; [done|].
  rewrite (IH (S i)) by lia.
  assert (bool_decide (i ∈ w :: F) = bool_decide (i ∈ F)) as ->; [|done].
  apply bool_decide_ext. rewrite elem_of_cons. split; [|by right].
  intros [->|?]; [lia|done].
Qed.

Lemma others_remove (F : list nat) (tids : list Z) :
  ∀ i j x, tids !! j = Some x → (i + j)%nat ∉ F →
    others F i tids ≡ₚ x :: others ((i + j)%nat :: F) i tids.
Proof.
  induction tids as [|t tids IH]; intros i j x Hj Hnin; [done|].
  destruct j as [|j]; simpl in *.
  - injection Hj as ->. rewrite Nat.add_0_r in *.
    rewrite (bool_decide_eq_false_2 _ Hnin).
    rewrite (bool_decide_eq_true_2 (i ∈ i :: F)) by by left.
    by rewrite others_below by lia.
  - replace (i + S j)%nat with (S i + j)%nat in * by lia.
    assert (bool_decide (i ∈ (S i + j)%nat :: F) = bool_decide (i ∈ F)) as ->.
    { apply bool_decide_ext. rewrite elem_of_cons. split; [|by right].
      intros [?|?]; [lia|done]. }
    case_bool_decide.
    + by apply IH.
    + rewrite (IH (S i) j x Hj Hnin). apply Permutation_swap.
Qed.

Lemma others_nil (tids : list Z) : ∀ i, others [] i tids = tids.
Proof.
  induction tids as [|t tids IH]; intros i; simpl; [done|].
  by rewrite IH.
Qed.

(** The winners followed by everyone else are all the teams. *)
Lemma winners_others (tids : list Z) (F : list nat) (W : list Z) :
  NoDup F → Forall2 (λ x w, tids !! w = Some x) W F →
  W ++ others F 0 tids ≡ₚ tids.
Proof.
  intros Hnd HW. induction HW as [|x w W F Hx HW IH]; simpl.
  - by rewrite others_nil.
  - apply NoDup_cons in Hnd as [Hw Hnd].
    rewrite <- (IH Hnd) at 2.
    rewrite (others_remove F tids 0 w x Hx Hw). simpl.
    by rewrite Permutation_middle.
Qed.

Lemma filter_all {A} (P : A → Prop) `{!∀ x, Decision (P x)} (l : list A) :
  Forall P l → filter P l = l.
Proof.
  induction 1 as [|x l Hx _ IH]; [done|]. by rewrite filter_cons_True, IH.
Qed.

Lemma filter_none {A} (P : A → Prop) `{!∀ x, Decision (P x)} (l : list A) :
  Forall (λ x, ¬ P x) l → filter P l = [].
Proof.
  induction 1 as [|x l Hx _ IH]; [done|]. by rewrite filter_cons_False.
Qed.

Lemma filter_round_app (r : Z) (l1 l2 : list PickRealized) (r1 r2 : Z) :
  Forall (λ e, round e = r1) l1 → Forall (λ e, round e = r2) l2 →
  filter (λ e, round e = r) (l1 ++ l2)
  = (if decide (r1 = r) then l1 else []) ++ (if decide (r2 = r) then l2 else []).
Proof.
  intros H1 H2. rewrite filter_app. f_equal.
  - case_decide as E.
    + apply filter_all, (Forall_impl _ _ _ H1). intros e He. congruence.
    + apply filter_none, (Forall_impl _ _ _ H1). intros e He. congruence.
  - case_decide as E.
    + apply filter_all, (Forall_impl _ _ _ H2). intros e He. congruence.
    + apply filter_none, (Forall_impl _ _ _ H2). intros e He. congruence.
Qed.

Lemma delete_all_draftPicks (l : list DraftPick) :
  ∀ db, draftPicks (foldl (λ db dp, delete_draftPick (dpid dp) db) db l)
        = filter (λ x, dpid x ∉ dpid <$> l) (draftPicks db).
Proof.
  induction l as [|dp l IH]; intros db; simpl.
  - symmetry. apply filter_all, Forall_forall. intros x _. apply not_elem_of_nil.
  - rewrite IH. simpl. rewrite list_filter_filter. apply list_filter_iff.
    intros x. rewrite not_elem_of_cons. tauto.
Qed.

Lemma deleted_season (s : Z) (db : DB) :
  indexGetAll_draftPicksBySeason s
    (foldl (λ db dp, delete_draftPick (dpid dp) db) db
       (indexGetAll_draftPicksBySeason s db)) = [].
Proof.
  unfold indexGetAll_draftPicksBySeason at 1. rewrite delete_all_draftPicks.
  rewrite list_filter_filter. apply filter_none, Forall_forall.
  intros x Hx [Hs Hnin]. apply Hnin. apply list_elem_of_fmap. exists x.
  split; [done|]. unfold indexGetAll_draftPicksBySeason.
  by apply list_elem_of_filter.
Qed.

(** C1: when [genOrder] completes, the first-round entries of the order it
    stores name every team of the season exactly once as [originalTid]
    (they are a rearrangement of the team list), and so do the second-round
    entries; and no draft pick of the season is left in the store. *)
Theorem genOrder_covers (g : G) (rnd : Random) (fuel : nat)
    (teams : list TeamFiltered) (db db' : DB) :
  genOrder g rnd fuel teams db = Ok db' →
  roundTids 1 db' ≡ₚ t_tid <$> teams
  ∧ roundTids 2 db' ≡ₚ t_tid <$> teams
  ∧ (NoDup (t_tid <$> teams) → NoDup (roundTids 1 db') ∧ NoDup (roundTids 2 db'))
  ∧ indexGetAll_draftPicksBySeason (season g) db' = [].
Proof.
  unfold genOrder.
  destruct (lottery g rnd fuel teams) as [lot|] eqn:Hlot; [|done].
  cbn [res_bind].
  destruct (lottery_facts g rnd fuel teams lot Hlot) as (_ & Hnd & _ & Hperm & _).
  set (db1 := if bool_decide (length (indexGetAll_draftPicksBySeason (season g) db) = 0%nat)
              then genPicks g (season g) db else db).
  set (idx := indexPicks (indexGetAll_draftPicksBySeason (season g) db1)).
  destruct (lotteryWinners idx (l_teams lot) 0 (l_firstThree lot))
    as [winners|] eqn:Hw; [|done]. cbn [res_bind].
  destruct (restOfRound1 idx (l_firstThree lot) 0 (l_teams lot) 4)
    as [rest|] eqn:Hr; [|done]. cbn [res_bind].
  destruct (secondRound idx 0 (JS.sort round2Cmp (l_teams lot)))
    as [second|] eqn:Hs; [|done]. cbn [res_bind].
  intros [= <-].
  destruct (lotteryWinners_tids _ _ _ _ _ Hw) as [Hw1 Hw2].
  destruct (restOfRound1_tids _ _ _ _ _ _ Hr) as [Hr1 Hr2].
  destruct (secondRound_tids _ _ _ _ Hs) as [Hs1 Hs2].
  assert (roundTids 1 (put_draftOrder (winners ++ rest ++ second)
            (foldl (λ db dp, delete_draftPick (dpid dp) db) db1
               (indexGetAll_draftPicksBySeason (season g) db1)))
          ≡ₚ t_tid <$> teams) as H1.
  { unfold roundTids. simpl draftOrder. rewrite app_assoc.
    rewrite (filter_round_app 1 (winners ++ rest) second 1 2);
      [|by apply Forall_app|done].
    simpl. rewrite app_nil_r, fmap_app, Hr1, <- Hperm.
    apply winners_others; [done|].
    apply Forall2_fmap_l. exact Hw1. }
  assert (roundTids 2 (put_draftOrder (winners ++ rest ++ second)
            (foldl (λ db dp, delete_draftPick (dpid dp) db) db1
               (indexGetAll_draftPicksBySeason (season g) db1)))
          ≡ₚ t_tid <$> teams) as H2.
  { unfold roundTids. simpl draftOrder. rewrite app_assoc.
    rewrite (filter_round_app 2 (winners ++ rest) second 1 2);
      [|by apply Forall_app|done].
    simpl. rewrite Hs1, <- Hperm. by rewrite sort_Permutation. }
  split; [done|]. split; [done|]. split.
  - intros Hnd'. by rewrite H1, H2.
  - apply deleted_season.
Qed.

(** *** Completion of genOrder *)

Lemma indexPicks_snoc (l : list DraftPick) (dp : DraftPick) :
  indexPicks (l ++ [dp])
  = <[dp_originalTid dp :=
        <[dp_round dp := dp_tid dp]>
          (default ∅ (indexPicks l !! dp_originalTid dp))]> (indexPicks l).
Proof. unfold indexPicks. by rewrite foldl_app. Qed.

Lemma indexPicks_owned (picks : list DraftPick) (t r : Z) :
  hasPick picks t r → owned (indexPicks picks) t r.
Proof.
  induction picks as [|dp l IH] using rev_ind; intros (dp0 & Hin & Ht & Hr).
  - by apply elem_of_nil in Hin.
  - rewrite indexPicks_snoc. unfold owned.
    destruct (decide (dp_originalTid dp = t)) as [Et|Et].
    + rewrite Et, lookup_insert_eq. simpl.
      destruct (decide (dp_round dp = r)) as [Er|Er].
      * rewrite Er, lookup_insert_eq. done.
      * rewrite lookup_insert_ne by done.
        apply elem_of_app in Hin as [Hin|Hin].
        -- destruct (IH (ex_intro _ dp0 (conj Hin (conj Ht Hr)))) as [o Ho].
           destruct (indexPicks l !! t) as [inner|]; [|done]. simpl in *.
           by exists o.
        -- apply list_elem_of_singleton in Hin as ->. congruence.
    + rewrite lookup_insert_ne by done.
      apply elem_of_app in Hin as [Hin|Hin].
      * by apply IH; exists dp0.
      * apply list_elem_of_singleton in Hin as ->. congruence.
Qed.

Lemma pickOwner_owned (idx : gmap Z (gmap Z Z)) (t r : Z) :
  owned idx t r → ∃ o, pickOwner idx t r = Ok o.
Proof. intros [o Ho]. exists o. unfold pickOwner. by rewrite Ho. Qed.

Lemma lotteryWinners_ok (idx : gmap Z (gmap Z Z)) (teams : list TeamFiltered)
    (firstThree : list nat) :
  (∀ w, w ∈ firstThree → (w < length teams)%nat) →
  (∀ t, t ∈ teams → owned idx (t_tid t) 1) →
  ∀ i, ∃ out, lotteryWinners idx teams i firstThree = Ok out.
Proof.
  intros Hlt Hown. induction firstThree as [|w ws IH]; intros i; simpl.
  - by eexists.
  - destruct (lookup_lt_is_Some_2 teams w) as [t Ht]; [apply Hlt; by left|].
    rewrite Ht. cbn [of_option res_bind].
    destruct (pickOwner_owned idx (t_tid t) 1) as [o ->].
    { apply Hown. by apply list_elem_of_lookup_2 in Ht. }
    cbn [res_bind].
    assert (∀ w', w' ∈ ws → (w' < length teams)%nat) as Hlt'
      by (intros w' Hw'; apply Hlt; by right).
    destruct (IH Hlt' (S i)) as [out ->].
    cbn [res_bind]. by eexists.
Qed.

Lemma restOfRound1_ok (idx : gmap Z (gmap Z Z)) (firstThree : list nat)
    (ts : list TeamFiltered) :
  (∀ t, t ∈ ts → owned idx (t_tid t) 1) →
  ∀ i pk, ∃ out, restOfRound1 idx firstThree i ts pk = Ok out.
Proof.
  induction ts as [|t ts IH]; intros Hown i pk; simpl.
  - by eexists.
  - assert (∀ t', t' ∈ ts → owned idx (t_tid t') 1) as Hown'
      by (intros t' Ht'; apply Hown; by right).
    case_bool_decide; [by apply IH|].
    destruct (pickOwner_owned idx (t_tid t) 1) as [o ->]; [apply Hown; by left|].
    cbn [res_bind]. destruct (IH Hown' (S i) (pk + 1)) as [out ->].
    cbn [res_bind]. by eexists.
Qed.

Lemma secondRound_ok (idx : gmap Z (gmap Z Z)) (ts : list TeamFiltered) :
  (∀ t, t ∈ ts → owned idx (t_tid t) 2) →
  ∀ i, ∃ out, secondRound idx i ts = Ok out.
Proof.
  induction ts as [|t ts IH]; intros Hown i; simpl.
  - by eexists.
  - assert (∀ t', t' ∈ ts → owned idx (t_tid t') 2) as Hown'
      by (intros t' Ht'; apply Hown; by right).
    destruct (pickOwner_owned idx (t_tid t) 2) as [o ->]; [apply Hown; by left|].
    cbn [res_bind]. destruct (IH Hown' (S i)) as [out ->].
    cbn [res_bind]. by eexists.
Qed.

Lemma genPicks_keeps (s : Z) (l : list Z) :
  ∀ db dp, dp ∈ draftPicks db →
    dp ∈ draftPicks
           (foldl (λ db tid,
                     foldl (λ db round, add_draftPick tid tid round s db) db [1; 2])
                  db l).
Proof.
  induction l as [|t l IH]; intros db dp Hin; simpl; [done|].
  apply IH. simpl. apply elem_of_app. left. apply elem_of_app. by left.
Qed.

Lemma genPicks_covers (g : G) (s : Z) (db : DB) (t r : Z) :
  0 ≤ t < numTeams g → r = 1 ∨ r = 2 →
  hasPick (indexGetAll_draftPicksBySeason s (genPicks g s db)) t r.
Proof.
  intros Ht Hr. unfold genPicks.
  assert (t ∈ seqZ 0 (numTeams g)) as Hin by (apply elem_of_seqZ; lia).
  revert db. induction (seqZ 0 (numTeams g)) as [|t' l IH]; intros db;
    [by apply elem_of_nil in Hin|].
  apply elem_of_cons in Hin as [<-|Hin]; [|by apply IH].
  simpl.
  exists {| dpid := (if decide (r = 1) then nextDpid db else nextDpid db + 1);
            dp_tid := t; dp_originalTid := t; dp_round := r; dp_season := s |}.
  split; [|done]. unfold indexGetAll_draftPicksBySeason.
  apply list_elem_of_filter. split; [done|]. apply genPicks_keeps. simpl.
  destruct Hr as [-> | ->]; simpl.
  - apply elem_of_app. left. apply elem_of_app. right. by left.
  - apply elem_of_app. right. by left.
Qed.

(** [genOrder] completes when its lottery does and every team has its two
    picks: either the store holds picks of the season, among them a
    first-round and a second-round pick of every team, or it holds none
    and the team ids are those of the league, for which the picks are
    then created. *)
Lemma genOrder_completes (g : G) (rnd : Random) (fuel : nat)
    (teams : list TeamFiltered) (db : DB) (lot : Lottery) :
  lottery g rnd fuel teams = Ok lot →
  (indexGetAll_draftPicksBySeason (season g) db = [] →
     ∀ t, t ∈ teams → 0 ≤ t_tid t < numTeams g) →
  (indexGetAll_draftPicksBySeason (season g) db ≠ [] →
     ∀ t r, t ∈ teams → r = 1 ∨ r = 2 →
       hasPick (indexGetAll_draftPicksBySeason (season g) db) (t_tid t) r) →
  ∃ db', genOrder g rnd fuel teams db = Ok db'.
Proof.
  intros Hlot Hnone Hsome. unfold genOrder. rewrite Hlot. cbn [res_bind].
  destruct (lottery_facts g rnd fuel teams lot Hlot) as (_ & _ & Hlt & Hperm & _).
  set (db1 := if bool_decide (length (indexGetAll_draftPicksBySeason (season g) db) = 0%nat)
              then genPicks g (season g) db else db).
  set (idx := indexPicks (indexGetAll_draftPicksBySeason (season g) db1)).
  assert (∀ t r, t ∈ l_teams lot → r = 1 ∨ r = 2 → owned idx (t_tid t) r) as Hown.
  { intros t r Ht Hr.
    assert (t_tid t ∈ t_tid <$> teams) as Hin.
    { rewrite <- Hperm. apply list_elem_of_fmap. by exists t. }
    apply list_elem_of_fmap in Hin as (t0 & Heq & Ht0).
    apply indexPicks_owned. unfold db1. case_bool_decide as Hempty.
    - apply length_zero_iff_nil in Hempty.
      apply genPicks_covers; [|done]. rewrite Heq. by apply Hnone.
    - rewrite Heq. apply Hsome; [|done|done].
      intros E. by rewrite E in Hempty. }
  destruct (lotteryWinners_ok idx (l_teams lot) (l_firstThree lot) Hlt) with (i := 0%nat)
    as [winners ->].
  { intros t Ht. apply Hown; [done|by left]. }
  cbn [res_bind].
  destruct (restOfRound1_ok idx (l_firstThree lot) (l_teams lot)) with (i := 0%nat) (pk := 4)
    as [rest ->].
  { intros t Ht. apply Hown; [done|by left]. }
  cbn [res_bind].
  destruct (secondRound_ok idx (JS.sort round2Cmp (l_teams lot))) with (i := 0%nat)
    as [second ->].
  { intros t Ht. rewrite sort_Permutation in Ht. apply Hown; [done|by right]. }
  cbn [res_bind]. by eexists.
Qed.

Example genOrder_ladder14 :
  (λ db, (take 5 (roundTids 1 db), take 3 (roundTids 2 db), length (draftPicks db)))
    <$> (match genOrder (league 14 5 500 20000) (rnd_draws [100; 100; 300; 900]) 10 ladder14
               (genPicks (league 14 5 500 20000) 2018 (db_with [] []))
         with Ok db => Some db | Err _ => None end)
  = Some ([13; 12; 7; 11; 10], [13; 12; 11], 28%nat).
Proof. vm_compute. reflexivity. Qed.

Lemma genOrder_covers_witness :
  ∃ db', genOrder (league 14 5 500 20000) (rnd_draws [100; 100; 300; 900]) 10
           ladder14 (genPicks (league 14 5 500 20000) 2018 (db_with [] []))
         = Ok db'
    ∧ roundTids 1 db' ≡ₚ t_tid <$> ladder14
    ∧ roundTids 2 db' ≡ₚ t_tid <$> ladder14
    ∧ indexGetAll_draftPicksBySeason 2017 db' = [].
Proof.
  destruct (genOrder (league 14 5 500 20000) (rnd_draws [100; 100; 300; 900]) 10
              ladder14 (genPicks (league 14 5 500 20000) 2018 (db_with [] [])))
    as [db'|e] eqn:H.
  - exists db'. split; [reflexivity|].
    destruct (genOrder_covers _ _ _ _ _ _ H) as (H1 & H2 & _ & H4).
    split; [exact H1|]. split; [exact H2|exact H4].
  - exfalso. vm_compute in H. discriminate.
Defined.

End OrderFacts.

(** * Further properties *)

(** ** setSchedule: the shape of the schedule *)

Module ScheduleMore.
Import Schedule Draft Sample Props Terms.

Lemma assignDays_matchups seen d p l :
  (λ e, (homeTid e, awayTid e)) <$> assignDays seen d p l = l.
Proof.
  revert seen d p. induction l as [|[h a] rest IH]; intros seen d p; [done|].
  rewrite ScheduleFacts.assignDays_cons. cbv zeta. rewrite fmap_cons, IH. done.
Qed.

Lemma assignDays_head_day seen d p l e :
  assignDays seen d p l !! 0%nat = Some e → day e = d ∨ day e = S d.
Proof.
  destruct l as [|[h a] rest]; [done|].
  rewrite ScheduleFacts.assignDays_cons. cbv zeta. intros [= <-]. simpl.
  destruct (_ || _); auto.
Qed.

Lemma assignDays_step seen d p l i e e' :
  assignDays seen d p l !! i = Some e →
  assignDays seen d p l !! S i = Some e' →
  day e' = day e ∨ day e' = S (day e).
Proof.
  revert seen d p i. induction l as [|[h a] rest IH]; intros seen d p i; [done|].
  rewrite ScheduleFacts.assignDays_cons. cbv zeta. destruct i as [|i]; simpl.
  - intros [= <-] He'. simpl. by eapply assignDays_head_day.
  - apply IH.
Qed.

(** X1: [setSchedule] writes one record per matchup, in the order of the
    input; the first record is on day 1, or on day 2 when it is the
    all-star game; and from one record to the next the day stays or goes up
    by one, so no day number is skipped after the first. *)
Theorem setSchedule_shape (tids : list (Z * Z)) :
  let s := setSchedule tids in
  (λ e, (homeTid e, awayTid e)) <$> s = tids
  ∧ length s = length tids
  ∧ (∀ e, s !! 0%nat = Some e →
       day e = if entryAllStar e then 2%nat else 1%nat)
  ∧ (∀ i e e', s !! i = Some e → s !! S i = Some e' →
       day e' = day e ∨ day e' = S (day e)).
Proof.
  cbv zeta. unfold setSchedule. split; [apply assignDays_matchups|].
  split.
  { rewrite <- (assignDays_matchups ∅ 1 false tids) at 2. by rewrite length_fmap. }
  split; [|apply assignDays_step].
  destruct tids as [|[h a] rest]; [done|].
  rewrite ScheduleFacts.assignDays_cons. cbv zeta. intros e [= <-].
  unfold entryAllStar. simpl.
  rewrite !bool_decide_eq_false_2 by set_solver. simpl.
  rewrite orb_false_r. by destruct (isAllStar (h, a)).
Qed.

Lemma tidsOfDay_app d s1 s2 :
  tidsOfDay d (s1 ++ s2) = tidsOfDay d s1 ++ tidsOfDay d s2.
Proof. unfold tidsOfDay. by rewrite filter_app, fmap_app, concat_app. Qed.

Lemma tidsOfDay_singleton e :
  tidsOfDay (day e) [e] = [homeTid e; awayTid e].
Proof.
  unfold tidsOfDay. rewrite filter_cons_True by done. by rewrite filter_nil.
Qed.

(** The set of teams of the running day holds only teams of records
    already written for that day. *)
Lemma assignDays_forced l :
  ∀ pre0 e0 seen,
    (∀ t, t ∈ seen → t ∈ tidsOfDay (day e0) (pre0 ++ [e0])) →
    ∀ pre e e' post,
      (pre0 ++ [e0]) ++ assignDays seen (day e0) (entryAllStar e0) l
        = pre ++ e :: e' :: post →
      (length pre0 ≤ length pre)%nat →
      day e' = S (day e) →
      entryAllStar e = true ∨ entryAllStar e' = true
      ∨ homeTid e' ∈ tidsOfDay (day e) (pre ++ [e])
      ∨ awayTid e' ∈ tidsOfDay (day e) (pre ++ [e]).
Proof.
  induction l as [|[h a] rest IH]; intros pre0 e0 seen Hseen pre e e' post Heq Hlen Hday.
  - simpl in Heq. rewrite app_nil_r in Heq.
    apply (f_equal length) in Heq. rewrite !length_app in Heq. simpl in Heq. lia.
  - rewrite ScheduleFacts.assignDays_cons in Heq. cbv zeta in Heq.
    set (nd := bool_decide (h ∈ seen) || bool_decide (a ∈ seen)
               || isAllStar (h, a) || entryAllStar e0) in *.
    set (e1 := {| day := if nd then S (day e0) else day e0;
                  homeTid := h; awayTid := a |}) in *.
    destruct (decide (length pre = length pre0)) as [Hl|Hl].
    + (* the pair is (e0, e1) *)
      rewrite <- app_assoc in Heq. simpl in Heq.
      apply app_inj_1 in Heq as [-> Heq]; [|done].
      injection Heq as <- <- _.
      simpl in Hday. destruct nd eqn:Hnd; [|simpl in Hday; lia].
      unfold nd in Hnd.
      apply orb_true_iff in Hnd as [Hnd|Hnd]; [|by left].
      apply orb_true_iff in Hnd as [Hnd|Hnd]; [|by right; left].
      apply orb_true_iff in Hnd as [Hnd|Hnd]; apply bool_decide_eq_true in Hnd.
      * right; right; left. simpl. by apply Hseen.
      * right; right; right. simpl. by apply Hseen.
    + (* the pair is further on *)
      apply (IH (pre0 ++ [e0]) e1
               ((if nd then ∅ else seen) ∪ {[h]} ∪ {[a]}) ) with (post := post);
        [| |rewrite length_app; simpl; lia|done].
      * intros t Ht. rewrite tidsOfDay_app, tidsOfDay_singleton.
        apply elem_of_app. simpl.
        apply elem_of_union in Ht as [Ht| ->%elem_of_singleton]; [|right; set_solver].
        apply elem_of_union in Ht as [Ht| ->%elem_of_singleton]; [|right; set_solver].
        left. destruct nd; [set_solver|]. by apply Hseen.
      * rewrite <- Heq. rewrite <- !app_assoc. done.
Qed.

(** X2: [setSchedule] never starts a new day without need: a matchup is
    placed on the day after that of the matchup before it only when one of
    the two is the all-star game or one of its teams already plays on that
    earlier day. *)
Theorem setSchedule_newDayForced (tids : list (Z * Z)) :
  newDayForced (setSchedule tids).
Proof.
  unfold setSchedule. destruct tids as [|[h a] rest].
  { intros pre e e' post Heq. by destruct pre as [|? [|? ?]]. }
  rewrite ScheduleFacts.assignDays_cons. cbv zeta.
  rewrite !bool_decide_eq_false_2 by set_solver. simpl orb. rewrite orb_false_r.
  set (e0 := {| day := if isAllStar (h, a) then 2%nat else 1%nat;
                homeTid := h; awayTid := a |}).
  intros pre e e' post Heq Hday.
  apply (assignDays_forced rest [] e0
           ((if isAllStar (h, a) then ∅ else ∅) ∪ {[h]} ∪ {[a]}))
    with (post := post); [|exact Heq|simpl; lia|done].
  intros t Ht. change ([] ++ [e0]) with [e0]. rewrite tidsOfDay_singleton.
  simpl. destruct (isAllStar (h, a)); set_solver.
Qed.

Lemma setSchedule_shape_witness :
  (λ e, (homeTid e, awayTid e)) <$> setSchedule [(-1, -2); (0, 1); (2, 3); (0, 2)]
  = [(-1, -2); (0, 1); (2, 3); (0, 2)]
  ∧ day <$> setSchedule [(-1, -2); (0, 1); (2, 3); (0, 2)] = [2; 3; 3; 4]%nat.
Proof.
  destruct (setSchedule_shape [(-1, -2); (0, 1); (2, 3); (0, 2)]) as (H1 & _).
  split; [exact H1|reflexivity].
Defined.

Lemma setSchedule_newDayForced_witness :
  entryAllStar {| day := 1; homeTid := 0; awayTid := 1 |} = true
  ∨ entryAllStar {| day := 2; homeTid := 2; awayTid := 0 |} = true
  ∨ 2 ∈ tidsOfDay 1 ([] ++ [{| day := 1; homeTid := 0; awayTid := 1 |}])
  ∨ 0 ∈ tidsOfDay 1 ([] ++ [{| day := 1; homeTid := 0; awayTid := 1 |}]).
Proof.
  apply (setSchedule_newDayForced [(0, 1); (2, 0)] []
           {| day := 1; homeTid := 0; awayTid := 1 |}
           {| day := 2; homeTid := 2; awayTid := 0 |} []);
    [vm_compute; reflexivity|reflexivity].
Defined.

End ScheduleMore.

(** ** genPicks and the structure of the order genOrder stores *)

Module PicksMore.
Import Schedule Draft Sample Props Terms.

Lemma genPicks_fold (s : Z) (tids : list Z) :
  ∀ db,
    let db' := foldl (λ db tid,
                        foldl (λ db round, add_draftPick tid tid round s db)
                              db [1; 2]) db tids in
    draftPicks db' = draftPicks db ++ freshPicks tids s (nextDpid db)
    ∧ nextDpid db' = nextDpid db + 2 * Z.of_nat (length tids)
    ∧ draftOrder db' = draftOrder db ∧ players db' = players db
    ∧ lastDbChange db' = lastDbChange db.
Proof.
  induction tids as [|t ts IH]; intros db; cbv zeta.
  - simpl. rewrite app_nil_r. repeat split; try reflexivity. lia.
  - pose proof (IH (add_draftPick t t 2 s (add_draftPick t t 1 s db))) as H.
    cbn [foldl] in H |- *. destruct H as (H1 & H2 & H3 & H4 & H5).
    rewrite H1, H2, H3, H4, H5. simpl. rewrite <- !app_assoc. simpl.
    replace (nextDpid db + 1 + 1) with (nextDpid db + 2) by lia.
    repeat split; try reflexivity. lia.
Qed.

Lemma freshPicks_keys (tids : list Z) (s key : Z) :
  dpid <$> freshPicks tids s key = seqZ key (2 * Z.of_nat (length tids)).
Proof.
  revert key. induction tids as [|t ts IH]; intros key; [done|].
  cbn [freshPicks fmap list_fmap]. simpl dpid. fold (fmap (M:=list) dpid). rewrite IH.
  replace (2 * Z.of_nat (length (t :: ts))) with (Z.succ (Z.succ (2 * Z.of_nat (length ts))))
    by (simpl length; lia).
  rewrite (seqZ_cons key) by lia. rewrite Z.pred_succ.
  rewrite (seqZ_cons (Z.succ key)) by lia. rewrite Z.pred_succ.
  do 3 f_equal. lia.
Qed.

Lemma freshPicks_slots (tids : list Z) (s key : Z) :
  (λ dp, (dp_originalTid dp, dp_round dp)) <$> freshPicks tids s key
  = tids ≫= λ t, [(t, 1); (t, 2)].
Proof.
  revert key. induction tids as [|t ts IH]; intros key; [done|].
  cbn [freshPicks fmap list_fmap]. fold (fmap (M:=list) (λ dp, (dp_originalTid dp, dp_round dp))).
  rewrite IH. done.
Qed.

Lemma freshPicks_own (tids : list Z) (s key : Z) :
  Forall (λ dp, dp_tid dp = dp_originalTid dp ∧ dp_season dp = s
                ∧ dp_originalTid dp ∈ tids)
         (freshPicks tids s key).
Proof.
  revert key. induction tids as [|t ts IH]; intros key; [constructor|].
  cbn [freshPicks]. constructor; [simpl; set_solver|].
  constructor; [simpl; set_solver|].
  eapply Forall_impl; [apply IH|]. intros dp (? & ? & ?). set_solver.
Qed.

Lemma genPicks_keys (g : G) (s : Z) (db : DB) :
  keysFresh db → keysFresh (genPicks g s db).
Proof.
  unfold genPicks.
  destruct (genPicks_fold s (seqZ 0 (numTeams g)) db) as (H1 & H2 & _).
  intros [Hnd Hlt]. unfold keysFresh. rewrite H1, H2, fmap_app, freshPicks_keys.
  split.
  - apply NoDup_app. split; [done|]. split; [|apply NoDup_seqZ].
    intros k Hk Hk'. apply elem_of_seqZ in Hk'.
    apply list_elem_of_fmap in Hk as (dp & -> & Hdp).
    apply (proj1 (Forall_forall _ _) Hlt) in Hdp. lia.
  - apply Forall_app. split.
    + eapply Forall_impl; [exact Hlt|]. intros dp ?. simpl in *. lia.
    + apply Forall_forall. intros dp Hdp.
      assert (dpid dp ∈ dpid <$> freshPicks (seqZ 0 (numTeams g)) s (nextDpid db)) as Hk
        by (apply list_elem_of_fmap; by exists dp).
      rewrite freshPicks_keys in Hk. apply elem_of_seqZ in Hk. lia.
Qed.

(** X3: [genPicks] leaves the stored picks in place and adds behind them,
    team by team for the teams 0, ..., numTeams - 1, a first-round and a
    second-round pick of the given season, each owned by the team it is
    named after; the draft order and the players are untouched. For a
    negative or zero number of teams it adds nothing. *)
Theorem genPicks_adds (g : G) (s : Z) (db : DB) :
  ∃ new,
    draftPicks (genPicks g s db) = draftPicks db ++ new
    ∧ length new = (2 * Z.to_nat (numTeams g))%nat
    ∧ (λ dp, (dp_originalTid dp, dp_round dp)) <$> new
      = seqZ 0 (numTeams g) ≫= (λ t, [(t, 1); (t, 2)])
    ∧ Forall (λ dp, dp_tid dp = dp_originalTid dp ∧ dp_season dp = s) new
    ∧ draftOrder (genPicks g s db) = draftOrder db
    ∧ players (genPicks g s db) = players db.
Proof.
  exists (freshPicks (seqZ 0 (numTeams g)) s (nextDpid db)). unfold genPicks.
  destruct (genPicks_fold s (seqZ 0 (numTeams g)) db) as (H1 & H2 & H3 & H4 & _).
  split; [exact H1|]. split.
  { rewrite <- (length_fmap dpid), freshPicks_keys, length_seqZ.
    rewrite length_seqZ. lia. }
  split; [apply freshPicks_slots|]. split.
  { eapply Forall_impl; [apply freshPicks_own|]. by intros dp (? & ? & _). }
  split; [exact H3|exact H4].
Qed.

(** *** The parts of a completed genOrder *)

Lemma season_genPicks (g : G) (db : DB) :
  indexGetAll_draftPicksBySeason (season g) db = [] →
  indexGetAll_draftPicksBySeason (season g) (genPicks g (season g) db)
  = freshPicks (seqZ 0 (numTeams g)) (season g) (nextDpid db).
Proof.
  intros Hnone. unfold indexGetAll_draftPicksBySeason in *.
  unfold genPicks.
  destruct (genPicks_fold (season g) (seqZ 0 (numTeams g)) db) as (-> & _).
  rewrite filter_app, Hnone. simpl. apply OrderFacts.filter_all.
  eapply Forall_impl; [apply freshPicks_own|]. by intros dp (_ & ? & _).
Qed.

Lemma genOrder_parts (g : G) (rnd : Random) (fuel : nat)
    (teams : list TeamFiltered) (db db' : DB) :
  genOrder g rnd fuel teams db = Ok db' →
  ∃ lot winners rest second,
    let db1 := if bool_decide (length (indexGetAll_draftPicksBySeason (season g) db) = 0%nat)
               then genPicks g (season g) db else db in
    let idx := indexPicks (picksUsed g db) in
    lottery g rnd fuel teams = Ok lot
    ∧ indexGetAll_draftPicksBySeason (season g) db1 = picksUsed g db
    ∧ lotteryWinners idx (l_teams lot) 0 (l_firstThree lot) = Ok winners
    ∧ restOfRound1 idx (l_firstThree lot) 0 (l_teams lot) 4 = Ok rest
    ∧ secondRound idx 0 (JS.sort round2Cmp (l_teams lot)) = Ok second
    ∧ db' = put_draftOrder (winners ++ rest ++ second)
              (foldl (λ db dp, delete_draftPick (dpid dp) db) db1 (picksUsed g db)).
Proof.
  unfold genOrder.
  destruct (lottery g rnd fuel teams) as [lot|] eqn:Hlot; [|done].
  cbn [res_bind].
  set (db1 := if bool_decide (length (indexGetAll_draftPicksBySeason (season g) db) = 0%nat)
              then genPicks g (season g) db else db).
  assert (indexGetAll_draftPicksBySeason (season g) db1 = picksUsed g db) as Hused.
  { unfold db1, picksUsed.
    destruct (indexGetAll_draftPicksBySeason (season g) db) as [|dp l] eqn:E.
    - rewrite bool_decide_eq_true_2 by done. by apply season_genPicks.
    - rewrite bool_decide_eq_false_2 by done. exact E. }
  rewrite Hused.
  destruct (lotteryWinners _ (l_teams lot) 0 (l_firstThree lot))
    as [winners|] eqn:Hw; [|done]. cbn [res_bind].
  destruct (restOfRound1 _ (l_firstThree lot) 0 (l_teams lot) 4)
    as [rest|] eqn:Hr; [|done]. cbn [res_bind].
  destruct (secondRound _ 0 (JS.sort round2Cmp (l_teams lot)))
    as [second|] eqn:Hs; [|done]. cbn [res_bind].
  intros [= <-]. by exists lot, winners, rest, second.
Qed.

Lemma fmap_inj_elem {A B} (f : A → B) (l : list A) (x y : A) :
  NoDup (f <$> l) → x ∈ l → y ∈ l → f x = f y → x = y.
Proof.
  induction l as [|a l IH]; intros Hnd Hx Hy E; [by apply elem_of_nil in Hx|].
  rewrite fmap_cons in Hnd. apply NoDup_cons in Hnd as [Ha Hnd].
  apply elem_of_cons in Hx as [->|Hx]; apply elem_of_cons in Hy as [->|Hy].
  - done.
  - exfalso. apply Ha. rewrite E. apply list_elem_of_fmap. by exists y.
  - exfalso. apply Ha. rewrite <- E. apply list_elem_of_fmap. by exists x.
  - by apply IH.
Qed.

Lemma filter_iff_elem {A} (P Q : A → Prop) `{!∀ x, Decision (P x)}
    `{!∀ x, Decision (Q x)} (l : list A) :
  (∀ x, x ∈ l → P x ↔ Q x) → filter P l = filter Q l.
Proof.
  induction l as [|a l IH]; intros Hiff; [done|].
  assert (filter P l = filter Q l) as E.
  { apply IH. intros x Hx. apply Hiff. by right. }
  destruct (decide (P a)) as [Ha|Ha].
  - rewrite !filter_cons_True; [by rewrite E|by apply Hiff; [left|]|done].
  - rewrite !filter_cons_False; [done| |done].
    intros HQ. apply Ha. apply Hiff; [by left|done].
Qed.

(** Deleting the picks of a season by their keys removes exactly the picks
    of the season when the keys are pairwise different. *)
Lemma delete_season (s : Z) (db : DB) :
  NoDup (dpid <$> draftPicks db) →
  draftPicks (foldl (λ db dp, delete_draftPick (dpid dp) db) db
                (indexGetAll_draftPicksBySeason s db))
  = filter (λ dp, dp_season dp ≠ s) (draftPicks db).
Proof.
  intros Hnd. rewrite OrderFacts.delete_all_draftPicks.
  apply filter_iff_elem. intros x Hx.
  unfold indexGetAll_draftPicksBySeason. split.
  - intros Hnin Hs. apply Hnin. apply list_elem_of_fmap. exists x.
    split; [done|]. by apply list_elem_of_filter.
  - intros Hs Hin. apply list_elem_of_fmap in Hin as (y & E & Hy).
    apply list_elem_of_filter in Hy as [Hys Hy].
    assert (x = y) as -> by by apply (fmap_inj_elem dpid (draftPicks db)).
    done.
Qed.

(** X4: a completed [genOrder] changes no player; it creates draft picks
    only when the store holds none for the season (the key counter then
    advances by two per team, and otherwise stays); and, when the keys in
    the store are pairwise different and below the key counter, the picks
    it leaves in the store are exactly the stored picks of the other
    seasons, in their order. *)
Theorem genOrder_frame (g : G) (rnd : Random) (fuel : nat)
    (teams : list TeamFiltered) (db db' : DB) :
  genOrder g rnd fuel teams db = Ok db' →
  players db' = players db
  ∧ lastDbChange db' = lastDbChange db
  ∧ nextDpid db'
    = (if decide (indexGetAll_draftPicksBySeason (season g) db = [])
       then nextDpid db + 2 * Z.of_nat (Z.to_nat (numTeams g)) else nextDpid db)
  ∧ (keysFresh db →
     draftPicks db' = filter (λ dp, dp_season dp ≠ season g) (draftPicks db)).
Proof.
  intros Hrun.
  destruct (genOrder_parts _ _ _ _ _ _ Hrun)
    as (lot & winners & rest & second & _ & Hused & _ & _ & _ & ->).
  rewrite <- Hused. clear Hused.
  set (db1 := if bool_decide _ then _ else db).
  assert (∀ l d, players (foldl (λ db dp, delete_draftPick (dpid dp) db) d l) = players d
                 ∧ lastDbChange (foldl (λ db dp, delete_draftPick (dpid dp) db) d l) = lastDbChange d
                 ∧ nextDpid (foldl (λ db dp, delete_draftPick (dpid dp) db) d l) = nextDpid d)
    as Hdel.
  { induction l as [|x l IH]; intros d; [done|]. simpl.
    destruct (IH (delete_draftPick (dpid x) d)) as (-> & -> & ->). done. }
  simpl. destruct (Hdel (indexGetAll_draftPicksBySeason (season g) db1) db1)
    as (-> & -> & ->).
  destruct (genPicks_fold (season g) (seqZ 0 (numTeams g)) db)
    as (Hp & Hn & _ & Hpl & Hlc).
  rewrite length_seqZ in Hn.
  pose proof (freshPicks_own (seqZ 0 (numTeams g)) (season g) (nextDpid db)) as Hown.
  pose proof (genPicks_keys g (season g) db) as Hkeys.
  unfold db1. destruct (indexGetAll_draftPicksBySeason (season g) db) as [|dp l] eqn:E.
  - rewrite bool_decide_eq_true_2 by done. rewrite decide_True by done.
    split; [exact Hpl|]. split; [exact Hlc|]. split; [exact Hn|].
    intros Hk. rewrite delete_season by apply (Hkeys Hk).
    unfold genPicks. rewrite Hp, filter_app.
    rewrite (OrderFacts.filter_none _ (freshPicks _ _ _)), app_nil_r; [done|].
    eapply Forall_impl; [exact Hown|]. intros x (_ & Hs & _) Hne. done.
  - rewrite bool_decide_eq_false_2 by done. rewrite decide_False by done.
    split; [done|]. split; [done|]. split; [done|].
    intros [Hnd _]. by apply delete_season.
Qed.

Lemma lotteryWinners_picks (idx : gmap Z (gmap Z Z)) (teams : list TeamFiltered)
    (firstThree : list nat) :
  ∀ i out, lotteryWinners idx teams i firstThree = Ok out →
    pick <$> out = seqZ (Z.of_nat i + 1) (Z.of_nat (length firstThree))
    ∧ Forall (λ e, pickOwner idx (originalTid e) (round e) = Ok (tid e)) out.
Proof.
  induction firstThree as [|w ws IH]; intros i out; simpl.
  - intros [= <-]. split; [done|constructor].
  - destruct (teams !! w) as [t|] eqn:Ht; [|done]. cbn [of_option res_bind].
    destruct (pickOwner idx (t_tid t) 1) as [owner|] eqn:Ho; [|done].
    cbn [res_bind].
    destruct (lotteryWinners idx teams (S i) ws) as [rest|] eqn:Hr; [|done].
    cbn [res_bind]. intros [= <-]. destruct (IH _ _ Hr) as [H1 H2].
    split; [|by constructor].
    rewrite fmap_cons, H1. simpl pick.
    rewrite (seqZ_cons (Z.of_nat i + 1)) by lia. f_equal. f_equal; lia.
Qed.

Lemma restOfRound1_picks (idx : gmap Z (gmap Z Z)) (firstThree : list nat)
    (ts : list TeamFiltered) :
  ∀ i pk out, restOfRound1 idx firstThree i ts pk = Ok out →
    pick <$> out = seqZ pk (Z.of_nat (length out))
    ∧ Forall (λ e, pickOwner idx (originalTid e) (round e) = Ok (tid e)) out.
Proof.
  induction ts as [|t ts IH]; intros i pk out; simpl.
  - intros [= <-]. split; [done|constructor].
  - case_bool_decide; [apply IH|].
    destruct (pickOwner idx (t_tid t) 1) as [owner|] eqn:Ho; [|done].
    cbn [res_bind].
    destruct (restOfRound1 idx firstThree (S i) ts (pk + 1)) as [rest|] eqn:Hr;
      [|done].
    cbn [res_bind]. intros [= <-]. destruct (IH _ _ _ Hr) as [H1 H2].
    split; [|by constructor].
    rewrite fmap_cons, H1. simpl pick.
    rewrite (seqZ_cons pk) by (simpl length; lia). f_equal. f_equal.
    simpl length. lia.
Qed.

Lemma secondRound_picks (idx : gmap Z (gmap Z Z)) (ts : list TeamFiltered) :
  ∀ i out, secondRound idx i ts = Ok out →
    pick <$> out = seqZ (Z.of_nat i + 1) (Z.of_nat (length ts))
    ∧ Forall (λ e, pickOwner idx (originalTid e) (round e) = Ok (tid e)) out.
Proof.
  induction ts as [|t ts IH]; intros i out; simpl.
  - intros [= <-]. split; [done|constructor].
  - destruct (pickOwner idx (t_tid t) 2) as [owner|] eqn:Ho; [|done].
    cbn [res_bind].
    destruct (secondRound idx (S i) ts) as [rest|] eqn:Hr; [|done].
    cbn [res_bind]. intros [= <-]. destruct (IH _ _ Hr) as [H1 H2].
    split; [|by constructor].
    rewrite fmap_cons, H1. simpl pick.
    rewrite (seqZ_cons (Z.of_nat i + 1)) by lia. f_equal. f_equal; lia.
Qed.

Lemma seqZ_app (m : Z) (a b : nat) :
  seqZ m (Z.of_nat a) ++ seqZ (m + Z.of_nat a) (Z.of_nat b)
  = seqZ m (Z.of_nat (a + b)).
Proof.
  revert m. induction a as [|a IH]; intros m.
  - simpl. by rewrite Z.add_0_r.
  - rewrite (seqZ_cons m) by lia. rewrite (seqZ_cons m (Z.of_nat (S a + b))) by lia.
    simpl. f_equal.
    replace (Z.pred (Z.of_nat (S a))) with (Z.of_nat a) by lia.
    replace (Z.pred (Z.of_nat (S (a + b)))) with (Z.of_nat (a + b)) by lia.
    rewrite <- IH. do 2 f_equal. lia.
Qed.

(** X5: in the order a completed [genOrder] stores, the first-round entries
    come first and carry the pick numbers 1, 2, ..., n in this order, the
    second-round entries follow and carry 1, 2, ..., n again, where n is
    the number of teams given; the order has 2 n entries. *)
Theorem genOrder_numbering (g : G) (rnd : Random) (fuel : nat)
    (teams : list TeamFiltered) (db db' : DB) :
  genOrder g rnd fuel teams db = Ok db' →
  ∃ first second,
    draftOrder db' = first ++ second
    ∧ Forall (λ e, round e = 1) first ∧ Forall (λ e, round e = 2) second
    ∧ pick <$> first = seqZ 1 (Z.of_nat (length teams))
    ∧ pick <$> second = seqZ 1 (Z.of_nat (length teams))
    ∧ length (draftOrder db') = (2 * length teams)%nat.
Proof.
  intros Hrun.
  destruct (genOrder_parts _ _ _ _ _ _ Hrun)
    as (lot & winners & rest & second & Hlot & _ & Hw & Hr & Hs & ->).
  destruct (LotteryFacts.lottery_facts g rnd fuel teams lot Hlot)
    as (H3 & Hnd & _ & Hperm & _).
  destruct (OrderFacts.lotteryWinners_tids _ _ _ _ _ Hw) as [Hw1 Hw2].
  destruct (OrderFacts.restOfRound1_tids _ _ _ _ _ _ Hr) as [Hr1 Hr2].
  destruct (OrderFacts.secondRound_tids _ _ _ _ Hs) as [Hs1 Hs2].
  destruct (lotteryWinners_picks _ _ _ _ _ Hw) as [Hwp _].
  destruct (restOfRound1_picks _ _ _ _ _ _ Hr) as [Hrp _].
  destruct (secondRound_picks _ _ _ _ Hs) as [Hsp _].
  assert (length (l_teams lot) = length teams) as Hlen.
  { rewrite <- (length_fmap t_tid (l_teams lot)), Hperm. apply length_fmap. }
  assert (length winners = 3%nat) as Hlw.
  { rewrite <- H3. by eapply Forall2_length. }
  assert (length winners + length rest = length teams)%nat as Hsum.
  { rewrite <- Hlen, <- (length_fmap t_tid (l_teams lot)).
    rewrite <- (OrderFacts.winners_others (t_tid <$> l_teams lot) (l_firstThree lot)
                  (originalTid <$> winners) Hnd).
    - rewrite length_app, length_fmap, <- Hr1, length_fmap. done.
    - apply Forall2_fmap_l. exact Hw1. }
  assert (length second = length teams) as Hls.
  { rewrite <- (length_fmap originalTid), Hs1, length_fmap.
    rewrite (Permutation_length (LotteryFacts.sort_Permutation _ _)). exact Hlen. }
  exists (winners ++ rest), second. simpl draftOrder.
  split; [by rewrite app_assoc|]. split; [by apply Forall_app|].
  split; [done|]. split; [|split].
  - rewrite fmap_app, Hwp, Hrp, H3. rewrite <- Hsum, Hlw.
    change 4 with (1 + Z.of_nat 3). apply seqZ_app.
  - rewrite Hsp. rewrite (Permutation_length (LotteryFacts.sort_Permutation _ _)).
    by rewrite Hlen.
  - rewrite !length_app. lia.
Qed.

Lemma indexPicks_from (picks : list DraftPick) (t r o : Z) :
  pickOwner (indexPicks picks) t r = Ok o →
  ∃ dp, dp ∈ picks ∧ dp_originalTid dp = t ∧ dp_round dp = r ∧ dp_tid dp = o.
Proof.
  unfold pickOwner.
  induction picks as [|dp l IH] using rev_ind.
  - unfold indexPicks. simpl. by rewrite lookup_empty.
  - rewrite OrderFacts.indexPicks_snoc.
    assert (∀ x, x ∈ l → x ∈ l ++ [dp]) as Hin
      by (intros x ?; apply elem_of_app; by left).
    destruct (decide (dp_originalTid dp = t)) as [Et|Et].
    + rewrite Et, lookup_insert_eq. simpl.
      destruct (decide (dp_round dp = r)) as [Er|Er].
      * rewrite Er, lookup_insert_eq. simpl. intros [= <-].
        exists dp. split; [|done]. apply elem_of_app. right. by left.
      * rewrite lookup_insert_ne by done. intros H.
        destruct (indexPicks l !! t) as [inner|] eqn:Ei; simpl in *.
        -- destruct (IH H) as (x & ? & ?). exists x. split; [by apply Hin|done].
        -- by rewrite lookup_empty in H.
    + rewrite lookup_insert_ne by done. intros H.
      destruct (IH H) as (x & ? & ?). exists x. split; [by apply Hin|done].
Qed.

Lemma entries_owned (picks : list DraftPick) (teams ts2 : list TeamFiltered)
    (firstThree : list nat) (winners rest second : list PickRealized) :
  lotteryWinners (indexPicks picks) teams 0 firstThree = Ok winners →
  restOfRound1 (indexPicks picks) firstThree 0 teams 4 = Ok rest →
  secondRound (indexPicks picks) 0 ts2 = Ok second →
  Forall (λ e, ∃ dp, dp ∈ picks ∧ dp_originalTid dp = originalTid e
                     ∧ dp_round dp = round e ∧ dp_tid dp = tid e)
         (winners ++ rest ++ second).
Proof.
  intros Hw Hr Hs.
  destruct (lotteryWinners_picks _ _ _ _ _ Hw) as [_ Hwo].
  destruct (restOfRound1_picks _ _ _ _ _ _ Hr) as [_ Hro].
  destruct (secondRound_picks _ _ _ _ Hs) as [_ Hso].
  rewrite !Forall_app. repeat split;
    (eapply Forall_impl; [eassumption|]); intros e He;
    by apply indexPicks_from.
Qed.

(** X6: every entry of the order a completed [genOrder] stores is owned
    by the holder of a draft pick it was built from: a stored pick of
    the season (or a created one, when none was stored) has the entry's
    first owner, round and owner. When the picks were created, every team
    picks for itself. *)
Theorem genOrder_owners (g : G) (rnd : Random) (fuel : nat)
    (teams : list TeamFiltered) (db db' : DB) :
  genOrder g rnd fuel teams db = Ok db' →
  Forall (λ e, ∃ dp, dp ∈ picksUsed g db
                     ∧ dp_originalTid dp = originalTid e
                     ∧ dp_round dp = round e ∧ dp_tid dp = tid e)
         (draftOrder db')
  ∧ (indexGetAll_draftPicksBySeason (season g) db = [] →
     Forall (λ e, tid e = originalTid e) (draftOrder db')).
Proof.
  intros Hrun.
  destruct (genOrder_parts _ _ _ _ _ _ Hrun)
    as (lot & winners & rest & second & _ & _ & Hw & Hr & Hs & ->).
  pose proof (entries_owned _ _ _ _ _ _ _ Hw Hr Hs) as Hall.
  simpl draftOrder. split; [exact Hall|]. intros Hnone.
  eapply Forall_impl; [exact Hall|]. intros e (dp & Hin & Ho & _ & Ht).
  unfold picksUsed in Hin. rewrite Hnone in Hin.
  pose proof (freshPicks_own (seqZ 0 (numTeams g)) (season g) (nextDpid db)) as Hown.
  apply (proj1 (Forall_forall _ _) Hown) in Hin as (E & _). congruence.
Qed.

Lemma genOrder_frame_witness :
  ∃ db', genOrder (league 14 5 500 20000) (rnd_draws [100; 100; 300; 900]) 10
           ladder14 (genPicks (league 14 5 500 20000) 2018 (db_with [] []))
         = Ok db'
    ∧ players db' = []
    ∧ nextDpid db' = 56
    ∧ draftPicks db'
      = filter (λ dp, dp_season dp ≠ 2017)
          (draftPicks (genPicks (league 14 5 500 20000) 2018 (db_with [] []))).
Proof.
  destruct (genOrder (league 14 5 500 20000) (rnd_draws [100; 100; 300; 900]) 10
              ladder14 (genPicks (league 14 5 500 20000) 2018 (db_with [] [])))
    as [db'|e] eqn:H.
  - exists db'. split; [reflexivity|].
    destruct (genOrder_frame _ _ _ _ _ _ H) as (H1 & _ & H3 & H4).
    split; [exact H1|]. split; [exact H3|]. apply H4.
    split; apply (bool_decide_unpack _); vm_compute; exact I.
  - exfalso. vm_compute in H. discriminate.
Defined.

Lemma genOrder_numbering_witness :
  ∃ db' first second,
    genOrder (league 14 5 500 20000) (rnd_draws [100; 100; 300; 900]) 10
      ladder14 (db_with [] []) = Ok db'
    ∧ draftOrder db' = first ++ second
    ∧ pick <$> first = seqZ 1 14 ∧ pick <$> second = seqZ 1 14
    ∧ length (draftOrder db') = 28%nat.
Proof.
  destruct (genOrder (league 14 5 500 20000) (rnd_draws [100; 100; 300; 900]) 10
              ladder14 (db_with [] [])) as [db'|e] eqn:H.
  - destruct (genOrder_numbering _ _ _ _ _ _ H)
      as (first & second & H1 & _ & _ & H4 & H5 & H6).
    exists db', first, second. split; [reflexivity|]. split; [exact H1|].
    split; [exact H4|]. split; [exact H5|exact H6].
  - exfalso. vm_compute in H. discriminate.
Defined.

Lemma genOrder_owners_witness :
  ∃ db',
    genOrder (league 14 5 500 20000) (rnd_draws [100; 100; 300; 900]) 10
      ladder14 (db_with [] []) = Ok db'
    ∧ Forall (λ e, tid e = originalTid e) (draftOrder db').
Proof.
  destruct (genOrder (league 14 5 500 20000) (rnd_draws [100; 100; 300; 900]) 10
              ladder14 (db_with [] [])) as [db'|e] eqn:H.
  - exists db'. split; [reflexivity|].
    destruct (genOrder_owners _ _ _ _ _ _ H) as [_ H2]. apply H2. reflexivity.
  - exfalso. vm_compute in H. discriminate.
Defined.

End PicksMore.

(** ** lotterySort, the lottery and the order of the two rounds *)

Module LotteryMore.
Import Schedule Draft Sample Props Terms.

Lemma lotteryCmp_le (a b : TeamFiltered) :
  Is_true (Qle_bool (lotteryCmp a b) 0) ↔ lotteryBefore a b.
Proof.
  rewrite Is_true_true, Qle_bool_iff. unfold lotteryCmp, lotteryBefore.
  destruct (madePlayoffs a), (madePlayoffs b); simpl.
  - change (Qeq_bool 0 0) with true. cbv iota.
    destruct (Qeq_bool (winp a - winp b) 0) eqn:E.
    + apply Qeq_bool_iff in E. rewrite <- (Zle_Qle _ 0).
      split.
      * intros H. right. split; [done|]. right. split; [lra|lia].
      * intros [[? _]|[_ [?|[_ ?]]]]; [done|exfalso; lra|lia].
    + apply Qeq_bool_neq in E. split.
      * intros H. right. split; [done|]. left. lra.
      * intros [[? _]|[_ [?|[? _]]]]; [done|lra|lra].
  - change (Qeq_bool 1 0) with false. cbv iota. split; [lra|].
    intros [[? _]|[? _]]; done.
  - change (Qeq_bool (-1) 0) with false. cbv iota. split; [by left|lra].
  - change (Qeq_bool 0 0) with true. cbv iota.
    destruct (Qeq_bool (winp a - winp b) 0) eqn:E.
    + apply Qeq_bool_iff in E. rewrite <- (Zle_Qle _ 0).
      split.
      * intros H. right. split; [done|]. right. split; [lra|lia].
      * intros [[_ ?]|[_ [?|[_ ?]]]]; [done|exfalso; lra|lia].
    + apply Qeq_bool_neq in E. split.
      * intros H. right. split; [done|]. left. lra.
      * intros [[_ ?]|[_ [?|[? _]]]]; [done|lra|lra].
Qed.

Lemma round2Cmp_le (a b : TeamFiltered) :
  Is_true (Qle_bool (round2Cmp a b) 0) ↔ round2Before a b.
Proof.
  rewrite Is_true_true, Qle_bool_iff. unfold round2Cmp, round2Before.
  destruct (Qeq_bool (winp a - winp b) 0) eqn:E.
  - apply Qeq_bool_iff in E. rewrite <- (Zle_Qle _ 0). split.
    + intros H. right. split; [lra|lia].
    + intros [?|[_ ?]]; [lra|lia].
  - apply Qeq_bool_neq in E. split.
    + intros H. left. lra.
    + intros [?|[? _]]; lra.
Qed.

Lemma lotteryBefore_trans (a b c : TeamFiltered) :
  lotteryBefore a b → lotteryBefore b c → lotteryBefore a c.
Proof.
  unfold lotteryBefore.
  destruct (madePlayoffs a), (madePlayoffs b), (madePlayoffs c);
    intros [[? ?]|[? H1]] [[? ?]|[? H2]]; try discriminate;
    try (by left); right; (split; [done|]);
    destruct H1 as [?|[? ?]], H2 as [?|[? ?]];
    try (left; lra); right; split; try lra; lia.
Qed.

Lemma lotteryBefore_total (a b : TeamFiltered) :
  lotteryBefore a b ∨ lotteryBefore b a.
Proof.
  unfold lotteryBefore.
  destruct (madePlayoffs a), (madePlayoffs b);
    try (by left; left); try (by right; left).
  - destruct (Q_dec (winp a) (winp b)) as [[?|?]|?].
    + left. right. split; [done|]. by left.
    + right. right. split; [done|]. by left.
    + destruct (Z.le_ge_cases (randVal a) (randVal b)).
      * left. right. split; [done|]. right. split; [done|lia].
      * right. right. split; [done|]. right. split; [lra|lia].
  - destruct (Q_dec (winp a) (winp b)) as [[?|?]|?].
    + left. right. split; [done|]. by left.
    + right. right. split; [done|]. by left.
    + destruct (Z.le_ge_cases (randVal a) (randVal b)).
      * left. right. split; [done|]. right. split; [done|lia].
      * right. right. split; [done|]. right. split; [lra|lia].
Qed.

Lemma round2Before_trans (a b c : TeamFiltered) :
  round2Before a b → round2Before b c → round2Before a c.
Proof.
  unfold round2Before. intros [?|[? ?]] [?|[? ?]];
    try (left; lra). right. split; [lra|lia].
Qed.

Lemma round2Before_total (a b : TeamFiltered) :
  round2Before a b ∨ round2Before b a.
Proof.
  unfold round2Before. destruct (Q_dec (winp a) (winp b)) as [[?|?]|?].
  - left. by left.
  - right. by left.
  - destruct (Z.le_ge_cases (randVal a) (randVal b)).
    + right. right. split; [lra|lia].
    + left. right. split; [done|lia].
Qed.

Lemma StronglySorted_ordered {A} (R : A → A → Prop) (l : list A) :
  StronglySorted R l → ordered R l.
Proof.
  induction 1 as [|x l Hl IH Hx]; intros i j a b Hij Hi Hj.
  - by rewrite lookup_nil in Hi.
  - destruct j as [|j]; [lia|]. simpl in Hj. destruct i as [|i]; simpl in Hi.
    + injection Hi as <-. apply (proj1 (Forall_forall _ _) Hx).
      by eapply list_elem_of_lookup_2.
    + apply (IH i j); [lia|done|done].
Qed.

Lemma insert_sorted_StronglySorted {A} (cmp : A → A → Q) (R : A → A → Prop)
    (x : A) (l : list A) :
  (∀ x y, Is_true (Qle_bool (cmp x y) 0) ↔ R x y) →
  (∀ x y z, R x y → R y z → R x z) → (∀ x y, R x y ∨ R y x) →
  StronglySorted R l → StronglySorted R (JS.insert_sorted cmp x l).
Proof.
  intros Hiff Htrans Htotal. induction 1 as [|y l Hl IH Hy]; simpl.
  - by repeat constructor.
  - destruct (Qle_bool (cmp x y) 0) eqn:E.
    + assert (R x y) as Hxy by (apply Hiff; by rewrite E).
      constructor; [by constructor|]. constructor; [done|].
      eapply Forall_impl; [exact Hy|]. intros z Hz. by eapply Htrans.
    + assert (R y x) as Hyx.
      { destruct (Htotal x y) as [Hxy|?]; [|done].
        apply Hiff in Hxy. by rewrite E in Hxy. }
      constructor; [done|].
      rewrite LotteryFacts.insert_sorted_Permutation. by constructor.
Qed.

(** [a.sort(cmp)] returns an ordered rearrangement whenever [cmp x y <= 0]
    is a total preorder. *)
Lemma sort_ordered {A} (cmp : A → A → Q) (R : A → A → Prop) (l : list A) :
  (∀ x y, Is_true (Qle_bool (cmp x y) 0) ↔ R x y) →
  (∀ x y z, R x y → R y z → R x z) → (∀ x y, R x y ∨ R y x) →
  ordered R (JS.sort cmp l).
Proof.
  intros Hiff Htrans Htotal. apply StronglySorted_ordered.
  induction l as [|x l IH]; [constructor|].
  by apply (insert_sorted_StronglySorted cmp R).
Qed.

Lemma assignRandVals_spec (vs : list Z) (ts ts' : list TeamFiltered) :
  assignRandVals vs ts = Ok ts' →
  ts' = zip_with set_randVal (take (length ts) vs) ts.
Proof.
  revert vs ts'. induction ts as [|t ts IH]; intros vs ts'; simpl.
  - intros [= <-]. by destruct vs.
  - destruct vs as [|v vs]; [done|].
    destruct (assignRandVals vs ts) as [ts1|] eqn:E; [|done]. cbn [res_bind].
    intros [= <-]. simpl. f_equal. by apply IH.
Qed.

Lemma assignRandVals_vals (vs : list Z) (ts ts' : list TeamFiltered) :
  assignRandVals vs ts = Ok ts' → Forall (λ t, randVal t ∈ vs) ts'.
Proof.
  revert vs ts'. induction ts as [|t ts IH]; intros vs ts'; simpl.
  - intros [= <-]. constructor.
  - destruct vs as [|v vs]; [done|].
    destruct (assignRandVals vs ts) as [ts1|] eqn:E; [|done]. cbn [res_bind].
    intros [= <-]. constructor; [by left|].
    eapply Forall_impl; [by apply (IH vs)|]. intros x ?. by right.
Qed.

Lemma lotterySort_sorted (g : G) (rnd : Random)
    (teams ts : list TeamFiltered) :
  lotterySort g rnd teams = Ok ts → ordered lotteryBefore ts.
Proof.
  unfold lotterySort.
  destruct (assignRandVals _ teams) as [ts0|] eqn:E; [|done]. cbn [res_bind].
  intros [= <-]. apply sort_ordered.
  - apply lotteryCmp_le.
  - apply lotteryBefore_trans.
  - apply lotteryBefore_total.
Qed.

(** X7: [lotterySort] gives the teams the shuffled values as [randVal],
    one each in order, and returns them rearranged so that every team
    stands before the teams that follow it in the lottery order: teams
    that missed the playoffs first, then by ascending win percentage,
    then by ascending random value. *)
Theorem lotterySort_ordered (g : G) (rnd : Random)
    (teams ts : list TeamFiltered) :
  lotterySort g rnd teams = Ok ts →
  ts ≡ₚ zip_with set_randVal
          (take (length teams) (shuffle rnd 0%nat (seqZ 0 (numTeams g)))) teams
  ∧ ordered lotteryBefore ts.
Proof.
  intros Hs. split; [|by apply (lotterySort_sorted g rnd teams)].
  unfold lotterySort in Hs.
  destruct (assignRandVals _ teams) as [ts0|] eqn:E; [|done].
  cbn [res_bind] in Hs. injection Hs as <-.
  rewrite LotteryFacts.sort_Permutation. by rewrite (assignRandVals_spec _ _ _ E).
Qed.

Lemma markWinners_step (F : list nat) (ts : list TeamFiltered) (i : nat)
    (t : TeamFiltered) :
  i ∉ F → markWinners F ts !! i = Some t →
  <[i := set_randVal (randVal t - 30) t]> (markWinners F ts)
  = markWinners (F ++ [i]) ts.
Proof.
  intros Hnin Ht. apply list_eq. intros k. unfold markWinners in *.
  rewrite list_lookup_imap in Ht. rewrite list_lookup_imap.
  destruct (decide (k = i)) as [->|Hk].
  - rewrite list_lookup_insert_eq
      by (rewrite length_imap; apply lookup_lt_is_Some;
          destruct (ts !! i); [by eexists|done]).
    destruct (ts !! i) as [t1|]; [|done]. simpl in *.
    rewrite bool_decide_eq_false_2 in Ht by done. injection Ht as <-.
    rewrite bool_decide_eq_true_2; [done|]. apply elem_of_app. right. by left.
  - rewrite list_lookup_insert_ne by done. rewrite list_lookup_imap.
    destruct (ts !! k) as [t1|]; [|done]. simpl. f_equal.
    assert (bool_decide (k ∈ F ++ [i]) = bool_decide (k ∈ F)) as ->; [|done].
    apply bool_decide_ext. rewrite elem_of_app, list_elem_of_singleton. tauto.
Qed.

Lemma markWinners_nil (ts : list TeamFiltered) : markWinners [] ts = ts.
Proof.
  apply list_eq. intros k. unfold markWinners. rewrite list_lookup_imap.
  by destruct (ts !! k).
Qed.

Lemma lottery_parts (g : G) (rnd : Random) (fuel : nat)
    (teams : list TeamFiltered) (lot : Lottery) :
  lottery g rnd fuel teams = Ok lot →
  ∃ ts, lotterySort g rnd teams = Ok ts
        ∧ l_teams lot = markWinners (l_firstThree lot) ts.
Proof.
  unfold lottery.
  destruct (lotterySort g rnd teams) as [ts|] eqn:Hsort; [|done].
  cbn [res_bind].
  destruct (updateChances baseChances ts true) as [chances|]; [|done].
  cbn [res_bind].
  destruct (JS.reduce_add chances) as [total|]; [|done]. cbn [res_bind].
  destruct (JS.while fuel _ _ _) as [s|] eqn:Hw; [|done]. cbn [res_bind].
  intros [= <-]. simpl. exists ts. split; [done|].
  apply (LotteryFacts.while_inv
           (λ s, ds_teams s = markWinners (ds_firstThree s) ts)) in Hw as [Hw _].
  - exact Hw.
  - intros s0 s' Hinv _. unfold drawStep.
    destruct (JS.findIndex _ _) as [i|]; [|done]. cbn [of_option res_bind].
    case_bool_decide as Hin.
    + by intros [= <-].
    + destruct (ds_teams s0 !! i) as [t|] eqn:Ht; [|done].
      cbn [of_option res_bind]. intros [= <-]. simpl.
      rewrite Hinv. apply markWinners_step; [done|]. by rewrite <- Hinv.
  - simpl. by rewrite markWinners_nil.
Qed.

Lemma markWinners_tids (F : list nat) (ts : list TeamFiltered) :
  t_tid <$> markWinners F ts = t_tid <$> ts.
Proof.
  apply list_eq. intros k. unfold markWinners.
  rewrite !list_lookup_fmap, list_lookup_imap.
  destruct (ts !! k); [|done]. simpl. by case_bool_decide.
Qed.

(** X8: when the lottery completes, the team list it leaves is the list
    [lotterySort] returned with one change: the random value of each
    winner is lowered by 30. The ids, records and positions of the teams
    are as sorted. *)
Theorem lottery_marks (g : G) (rnd : Random) (fuel : nat)
    (teams : list TeamFiltered) (lot : Lottery) :
  lottery g rnd fuel teams = Ok lot →
  ∃ ts, lotterySort g rnd teams = Ok ts
    ∧ length (l_teams lot) = length ts
    ∧ ∀ i t, ts !! i = Some t →
        l_teams lot !! i
        = Some (if bool_decide (i ∈ l_firstThree lot)
                then set_randVal (randVal t - 30) t else t).
Proof.
  intros H. destruct (lottery_parts _ _ _ _ _ H) as (ts & Hs & ->).
  exists ts. split; [done|]. unfold markWinners. split; [apply length_imap|].
  intros i t Ht. by rewrite list_lookup_imap, Ht.
Qed.

Lemma round1_parts (idx : gmap Z (gmap Z Z)) (teams ts2 : list TeamFiltered)
    (firstThree : list nat) (winners rest second : list PickRealized)
    (db : DB) :
  lotteryWinners idx teams 0 firstThree = Ok winners →
  restOfRound1 idx firstThree 0 teams 4 = Ok rest →
  secondRound idx 0 ts2 = Ok second →
  roundTids 1 (put_draftOrder (winners ++ rest ++ second) db)
  = (originalTid <$> winners) ++ others firstThree 0 (t_tid <$> teams)
  ∧ Forall2 (λ x w, (t_tid <$> teams) !! w = Some x)
      (originalTid <$> winners) firstThree.
Proof.
  intros Hw Hr Hs.
  destruct (OrderFacts.lotteryWinners_tids _ _ _ _ _ Hw) as [Hw1 Hw2].
  destruct (OrderFacts.restOfRound1_tids _ _ _ _ _ _ Hr) as [Hr1 Hr2].
  destruct (OrderFacts.secondRound_tids _ _ _ _ Hs) as [_ Hs2].
  split; [|by apply Forall2_fmap_l].
  unfold roundTids. simpl draftOrder. rewrite app_assoc.
  rewrite (OrderFacts.filter_round_app 1 (winners ++ rest) second 1 2);
    [|by apply Forall_app|done].
  simpl. by rewrite app_nil_r, fmap_app, Hr1.
Qed.

Lemma round2_parts (idx : gmap Z (gmap Z Z)) (teams ts2 : list TeamFiltered)
    (firstThree : list nat) (winners rest second : list PickRealized)
    (db : DB) :
  lotteryWinners idx teams 0 firstThree = Ok winners →
  restOfRound1 idx firstThree 0 teams 4 = Ok rest →
  secondRound idx 0 ts2 = Ok second →
  roundTids 2 (put_draftOrder (winners ++ rest ++ second) db) = t_tid <$> ts2.
Proof.
  intros Hw Hr Hs.
  destruct (OrderFacts.lotteryWinners_tids _ _ _ _ _ Hw) as [_ Hw2].
  destruct (OrderFacts.restOfRound1_tids _ _ _ _ _ _ Hr) as [_ Hr2].
  destruct (OrderFacts.secondRound_tids _ _ _ _ Hs) as [Hs1 Hs2].
  unfold roundTids. simpl draftOrder. rewrite app_assoc.
  rewrite (OrderFacts.filter_round_app 2 (winners ++ rest) second 1 2);
    [|by apply Forall_app|done].
  simpl. exact Hs1.
Qed.

Lemma round2_ordered (ts : list TeamFiltered) :
  ordered round2Before (JS.sort round2Cmp ts).
Proof.
  apply sort_ordered.
  - apply round2Cmp_le.
  - apply round2Before_trans.
  - apply round2Before_total.
Qed.

(** X9: the first round of a completed [genOrder] lists, for picks 1 to
    3, the teams at the three winning positions of the list [lotterySort]
    returned, in the order they were drawn, and then every other team in
    the order of that list, which is the lottery order. *)
Theorem genOrder_round1 (g : G) (rnd : Random) (fuel : nat)
    (teams : list TeamFiltered) (db db' : DB) :
  genOrder g rnd fuel teams db = Ok db' →
  ∃ lot ts winners,
    lottery g rnd fuel teams = Ok lot
    ∧ lotterySort g rnd teams = Ok ts
    ∧ ordered lotteryBefore ts
    ∧ Forall2 (λ x w, (t_tid <$> ts) !! w = Some x) winners (l_firstThree lot)
    ∧ roundTids 1 db'
      = winners ++ others (l_firstThree lot) 0 (t_tid <$> ts).
Proof.
  intros Hrun.
  destruct (PicksMore.genOrder_parts _ _ _ _ _ _ Hrun)
    as (lot & winners & rest & second & Hlot & _ & Hw & Hr & Hs & ->).
  destruct (lottery_parts _ _ _ _ _ Hlot) as (ts & Hsort & Hmark).
  destruct (round1_parts _ _ _ _ _ _ _
              (foldl (λ db dp, delete_draftPick (dpid dp) db)
                 (if bool_decide
                       (length (indexGetAll_draftPicksBySeason (season g) db) = 0%nat)
                  then genPicks g (season g) db else db) (picksUsed g db))
              Hw Hr Hs) as [H1 H2].
  rewrite Hmark, markWinners_tids in H1, H2.
  exists lot, ts, (originalTid <$> winners).
  split; [done|]. split; [done|].
  split; [exact (lotterySort_sorted _ _ _ _ Hsort)|]. by split.
Qed.

(** X10: the second round of a completed [genOrder] lists the teams the
    lottery left, rearranged by ascending win percentage; among teams of
    the same win percentage the one with the higher random value comes
    first (the reverse of the first-round tie-break). *)
Theorem genOrder_round2 (g : G) (rnd : Random) (fuel : nat)
    (teams : list TeamFiltered) (db db' : DB) :
  genOrder g rnd fuel teams db = Ok db' →
  ∃ lot ts,
    lottery g rnd fuel teams = Ok lot
    ∧ ts ≡ₚ l_teams lot
    ∧ ordered round2Before ts
    ∧ roundTids 2 db' = t_tid <$> ts.
Proof.
  intros Hrun.
  destruct (PicksMore.genOrder_parts _ _ _ _ _ _ Hrun)
    as (lot & winners & rest & second & Hlot & _ & Hw & Hr & Hs & ->).
  exists lot, (JS.sort round2Cmp (l_teams lot)).
  split; [done|]. split; [apply LotteryFacts.sort_Permutation|].
  split; [apply round2_ordered|]. by eapply round2_parts.
Qed.

(** X11: "if one lottery winner, select after other tied teams". When the
    shuffled random values all lie in 0, ..., 29 (the shuffle returns a
    rearrangement of its argument and the league has at most 30 teams), a
    lottery winner picks in the second round after every team of the same
    win percentage that did not win the lottery. *)
Theorem genOrder_winner_after_tied (g : G) (rnd : Random) (fuel : nat)
    (teams : list TeamFiltered) (db db' : DB) :
  genOrder g rnd fuel teams db = Ok db' →
  Forall (λ v, 0 ≤ v < 30) (shuffle rnd 0%nat (seqZ 0 (numTeams g))) →
  ∃ lot,
    lottery g rnd fuel teams = Ok lot
    ∧ ∀ w k a b,
        w ∈ l_firstThree lot → k ∉ l_firstThree lot →
        l_teams lot !! w = Some a → l_teams lot !! k = Some b →
        (winp a == winp b)%Q →
        ∃ i j, (i < j)%nat ∧ roundTids 2 db' !! i = Some (t_tid b)
               ∧ roundTids 2 db' !! j = Some (t_tid a).
Proof.
  intros Hrun Hvals.
  destruct (PicksMore.genOrder_parts _ _ _ _ _ _ Hrun)
    as (lot & winners & rest & second & Hlot & _ & Hw0 & Hr0 & Hs0 & ->).
  pose proof (LotteryFacts.sort_Permutation round2Cmp (l_teams lot)) as Hperm.
  pose proof (round2_ordered (l_teams lot)) as Hord.
  pose proof (round2_parts _ _ _ _ _ _ _
                (foldl (λ db dp, delete_draftPick (dpid dp) db)
                   (if bool_decide
                         (length (indexGetAll_draftPicksBySeason (season g) db) = 0%nat)
                    then genPicks g (season g) db else db) (picksUsed g db))
                Hw0 Hr0 Hs0) as Htids.
  set (ts2 := JS.sort round2Cmp (l_teams lot)) in *.
  exists lot. split; [done|]. intros w k a b Hw Hk Ha Hb Hwinp.
  destruct (lottery_parts _ _ _ _ _ Hlot) as (ts & Hsort & Hmark).
  assert (Forall (λ t, 0 ≤ randVal t < 30) ts) as Hrange.
  { unfold lotterySort in Hsort.
    destruct (assignRandVals _ teams) as [ts0|] eqn:E; [|done].
    cbn [res_bind] in Hsort. injection Hsort as <-.
    rewrite LotteryFacts.sort_Permutation.
    eapply Forall_impl; [exact (assignRandVals_vals _ _ _ E)|].
    intros t Ht. exact (proj1 (Forall_forall _ _) Hvals _ Ht). }
  rewrite Hmark in Ha, Hb. unfold markWinners in Ha, Hb.
  rewrite list_lookup_imap in Ha, Hb.
  destruct (ts !! w) as [a1|] eqn:Ea; [|done].
  destruct (ts !! k) as [b1|] eqn:Eb; [|done]. simpl in Ha, Hb.
  rewrite bool_decide_eq_true_2 in Ha by done.
  rewrite bool_decide_eq_false_2 in Hb by done.
  injection Ha as <-. injection Hb as <-.
  pose proof (proj1 (Forall_forall _ _) Hrange a1 (list_elem_of_lookup_2 _ _ _ Ea)) as Hra.
  pose proof (proj1 (Forall_forall _ _) Hrange b1 (list_elem_of_lookup_2 _ _ _ Eb)) as Hrb.
  cbv beta in Hra, Hrb.
  assert (set_randVal (randVal a1 - 30) a1 ∈ ts2) as Ha2.
  { rewrite Hperm, Hmark. apply list_elem_of_lookup. exists w.
    unfold markWinners. rewrite list_lookup_imap, Ea. simpl.
    by rewrite bool_decide_eq_true_2. }
  assert (b1 ∈ ts2) as Hb2.
  { rewrite Hperm, Hmark. apply list_elem_of_lookup. exists k.
    unfold markWinners. rewrite list_lookup_imap, Eb. simpl.
    by rewrite bool_decide_eq_false_2. }
  apply list_elem_of_lookup in Ha2 as [j Hj]. apply list_elem_of_lookup in Hb2 as [i Hi].
  exists i, j. rewrite Htids, !list_lookup_fmap, Hi, Hj. split; [|done].
  destruct (Nat.lt_trichotomy i j) as [?|[->|Hji]]; [done| |].
  - rewrite Hi in Hj. injection Hj as ->. unfold set_randVal in Hrb.
    simpl in Hrb. lia.
  - destruct (Hord j i _ _ Hji Hj Hi) as [Hlt|[_ Hle]];
      unfold set_randVal in *; simpl in *; [lra|lia].
Qed.

Lemma of_option_err {A} (o : option A) (e : error) :
  of_option o = Err e → e = TypeError.
Proof. destruct o; [done|]. by intros [= <-]. Qed.

Lemma lotteryWinners_err (idx : gmap Z (gmap Z Z)) (teams : list TeamFiltered)
    (firstThree : list nat) (e : error) :
  ∀ i, lotteryWinners idx teams i firstThree = Err e → e = TypeError.
Proof.
  induction firstThree as [|w ws IH]; intros i; simpl; [done|].
  destruct (teams !! w) as [t|]; cbn [of_option res_bind]; [|by intros [= <-]].
  unfold pickOwner.
  destruct (idx !! t_tid t ≫= _) as [o|]; cbn [of_option res_bind];
    [|by intros [= <-]].
  destruct (lotteryWinners idx teams (S i) ws) as [rest|e'] eqn:Hr;
    cbn [res_bind]; [done|].
  intros [= <-]. by apply (IH (S i)).
Qed.

Lemma restOfRound1_err (idx : gmap Z (gmap Z Z)) (firstThree : list nat)
    (ts : list TeamFiltered) (e : error) :
  ∀ i pk, restOfRound1 idx firstThree i ts pk = Err e → e = TypeError.
Proof.
  induction ts as [|t ts IH]; intros i pk; simpl; [done|].
  case_bool_decide; [apply IH|].
  unfold pickOwner.
  destruct (idx !! t_tid t ≫= _) as [o|]; cbn [of_option res_bind];
    [|by intros [= <-]].
  destruct (restOfRound1 idx firstThree (S i) ts (pk + 1)) as [rest|e'] eqn:Hr;
    cbn [res_bind]; [done|].
  intros [= <-]. by apply (IH (S i) (pk + 1)).
Qed.

Lemma secondRound_err (idx : gmap Z (gmap Z Z)) (ts : list TeamFiltered)
    (e : error) :
  ∀ i, secondRound idx i ts = Err e → e = TypeError.
Proof.
  induction ts as [|t ts IH]; intros i; simpl; [done|].
  unfold pickOwner.
  destruct (idx !! t_tid t ≫= _) as [o|]; cbn [of_option res_bind];
    [|by intros [= <-]].
  destruct (secondRound idx (S i) ts) as [rest|e'] eqn:Hr;
    cbn [res_bind]; [done|].
  intros [= <-]. by apply (IH (S i)).
Qed.

Lemma genOrder_err (g : G) (rnd : Random) (fuel : nat)
    (teams : list TeamFiltered) (db : DB) (lot : Lottery) (e : error) :
  lottery g rnd fuel teams = Ok lot →
  genOrder g rnd fuel teams db = Err e → e = TypeError.
Proof.
  intros Hlot. unfold genOrder. rewrite Hlot. cbn [res_bind].
  destruct (lotteryWinners _ (l_teams lot) 0 (l_firstThree lot))
    as [winners|e1] eqn:Hw; cbn [res_bind].
  - destruct (restOfRound1 _ (l_firstThree lot) 0 (l_teams lot) 4)
      as [rest|e2] eqn:Hr; cbn [res_bind].
    + destruct (secondRound _ 0 (JS.sort round2Cmp (l_teams lot)))
        as [second|e3] eqn:Hs; cbn [res_bind]; [done|].
      intros [= <-]. by eapply secondRound_err.
    + intros [= <-]. by eapply restOfRound1_err.
  - intros [= <-]. by eapply lotteryWinners_err.
Qed.

Lemma hasPick_fresh (tids : list Z) (s key t r : Z) :
  hasPick (freshPicks tids s key) t r → t ∈ tids.
Proof.
  intros (dp & Hin & <- & _).
  pose proof (PicksMore.freshPicks_own tids s key) as Hown.
  by destruct (proj1 (Forall_forall _ _) Hown dp Hin) as (_ & _ & ?).
Qed.

Lemma roundTids_entry (r t : Z) (db : DB) :
  t ∈ roundTids r db →
  ∃ e, e ∈ draftOrder db ∧ round e = r ∧ originalTid e = t.
Proof.
  unfold roundTids. intros H. apply list_elem_of_fmap in H as (e & -> & He).
  apply list_elem_of_filter in He as [Hr He]. by exists e.
Qed.

(** X22: once the lottery has completed, [genOrder] completes exactly
    when every team of the list has a first-round and a second-round pick
    among the draft picks the order is built from (the stored picks of
    the season, or the created ones when none is stored); when a pick is
    missing it throws a TypeError. *)
Theorem genOrder_defined (g : G) (rnd : Random) (fuel : nat)
    (teams : list TeamFiltered) (db : DB) (lot : Lottery) :
  lottery g rnd fuel teams = Ok lot →
  ((∃ db', genOrder g rnd fuel teams db = Ok db')
   ↔ ∀ t r, t ∈ teams → r = 1 ∨ r = 2 → hasPick (picksUsed g db) (t_tid t) r)
  ∧ ((∃ t r, t ∈ teams ∧ (r = 1 ∨ r = 2)
             ∧ ¬ hasPick (picksUsed g db) (t_tid t) r) →
     genOrder g rnd fuel teams db = Err TypeError).
Proof.
  intros Hlot.
  assert ((∃ db', genOrder g rnd fuel teams db = Ok db')
          → ∀ t r, t ∈ teams → r = 1 ∨ r = 2 →
              hasPick (picksUsed g db) (t_tid t) r) as Hto.
  { intros [db' Hrun] t r Ht Hr.
    destruct (PicksMore.genOrder_parts _ _ _ _ _ _ Hrun)
      as (lot' & winners & rest & second & Hlot' & _ & Hw & Hr0 & Hs & ->).
    assert (lot' = lot) as -> by congruence.
    pose proof (PicksMore.entries_owned _ _ _ _ _ _ _ Hw Hr0 Hs) as Hown.
    destruct (LotteryFacts.lottery_facts _ _ _ _ _ Hlot)
      as (_ & Hnd & _ & Hperm & _).
    set (db1 := foldl (λ db dp, delete_draftPick (dpid dp) db)
                  (if bool_decide
                        (length (indexGetAll_draftPicksBySeason (season g) db) = 0%nat)
                   then genPicks g (season g) db else db) (picksUsed g db)).
    assert (t_tid t ∈ roundTids r (put_draftOrder (winners ++ rest ++ second) db1))
      as Hin.
    { assert (t_tid t ∈ t_tid <$> teams) as Hin0
        by (apply list_elem_of_fmap; by exists t).
      destruct Hr as [-> | ->].
      - destruct (round1_parts _ _ _ _ _ _ _ db1 Hw Hr0 Hs) as [-> Hw2].
        rewrite (OrderFacts.winners_others _ _ _ Hnd Hw2). by rewrite Hperm.
      - rewrite (round2_parts _ _ _ _ _ _ _ db1 Hw Hr0 Hs).
        by rewrite LotteryFacts.sort_Permutation, Hperm. }
    apply roundTids_entry in Hin as (e & He & Hre & Hoe).
    destruct (proj1 (Forall_forall _ _) Hown e He) as (dp & Hdp & H1 & H2 & _).
    exists dp. split; [done|]. split; congruence. }
  split; [split; [exact Hto|]|].
  - intros Hall. apply (OrderFacts.genOrder_completes _ _ _ _ _ lot Hlot).
    + intros Hnone t Ht. specialize (Hall t 1 Ht (or_introl eq_refl)).
      unfold picksUsed in Hall. rewrite Hnone in Hall.
      apply hasPick_fresh, elem_of_seqZ in Hall. lia.
    + intros Hsome t r Ht Hr. specialize (Hall t r Ht Hr).
      unfold picksUsed in Hall.
      by destruct (indexGetAll_draftPicksBySeason (season g) db).
  - intros (t & r & Ht & Hr & Hno).
    destruct (genOrder g rnd fuel teams db) as [db'|e] eqn:Hrun.
    + exfalso. apply Hno. apply Hto; [by exists db'|done|done].
    + f_equal. by apply (genOrder_err _ _ _ _ _ _ _ Hlot Hrun).
Qed.

Lemma lotterySort_ordered_witness :
  ∃ ts, lotterySort (league 14 5 500 20000) (rnd_reverse []) tied14 = Ok ts
        ∧ ordered lotteryBefore ts
        ∧ t_tid <$> ts = reverse (seqZ 0 14).
Proof.
  destruct (lotterySort (league 14 5 500 20000) (rnd_reverse []) tied14)
    as [ts|e] eqn:H.
  - exists ts. split; [reflexivity|].
    split; [exact (proj2 (lotterySort_ordered _ _ _ _ H))|].
    vm_compute in H. injection H as <-. reflexivity.
  - exfalso. vm_compute in H. discriminate.
Defined.

Lemma lottery_marks_witness :
  ∃ lot ts,
    lottery (league 14 5 500 20000) (rnd_reverse [100; 100; 300; 900]) 10 tied14
    = Ok lot
    ∧ lotterySort (league 14 5 500 20000) (rnd_reverse [100; 100; 300; 900]) tied14
      = Ok ts
    ∧ length (l_teams lot) = length ts.
Proof.
  destruct (lottery (league 14 5 500 20000) (rnd_reverse [100; 100; 300; 900]) 10
              tied14) as [lot|e] eqn:H.
  - destruct (lottery_marks _ _ _ _ _ H) as (ts & H1 & H2 & _).
    exists lot, ts. split; [reflexivity|]. split; [exact H1|exact H2].
  - exfalso. vm_compute in H. discriminate.
Defined.

Lemma genOrder_round1_witness :
  ∃ db' lot ts winners,
    genOrder (league 14 5 500 20000) (rnd_reverse [100; 100; 300; 900]) 10
      tied14 (db_with [] []) = Ok db'
    ∧ ordered lotteryBefore ts
    ∧ roundTids 1 db' = winners ++ others (l_firstThree lot) 0 (t_tid <$> ts).
Proof.
  destruct (genOrder (league 14 5 500 20000) (rnd_reverse [100; 100; 300; 900]) 10
              tied14 (db_with [] [])) as [db'|e] eqn:H.
  - destruct (genOrder_round1 _ _ _ _ _ _ H)
      as (lot & ts & winners & _ & _ & H3 & _ & H5).
    exists db', lot, ts, winners. split; [reflexivity|].
    split; [exact H3|exact H5].
  - exfalso. vm_compute in H. discriminate.
Defined.

Lemma genOrder_round2_witness :
  ∃ db' ts,
    genOrder (league 14 5 500 20000) (rnd_reverse [100; 100; 300; 900]) 10
      tied14 (db_with [] []) = Ok db'
    ∧ ordered round2Before ts
    ∧ roundTids 2 db' = t_tid <$> ts.
Proof.
  destruct (genOrder (league 14 5 500 20000) (rnd_reverse [100; 100; 300; 900]) 10
              tied14 (db_with [] [])) as [db'|e] eqn:H.
  - destruct (genOrder_round2 _ _ _ _ _ _ H) as (lot & ts & _ & _ & H3 & H4).
    exists db', ts. split; [reflexivity|]. split; [exact H3|exact H4].
  - exfalso. vm_compute in H. discriminate.
Defined.

(** Team 12 wins the first pick and picks in the second round after
    team 13, which has the same record and won nothing. *)
Lemma genOrder_winner_after_tied_witness :
  ∃ db' i j,
    genOrder (league 14 5 500 20000) (rnd_reverse [100; 100; 300; 900]) 10
      tied14 (db_with [] []) = Ok db'
    ∧ (i < j)%nat
    ∧ roundTids 2 db' !! i = Some 13
    ∧ roundTids 2 db' !! j = Some 12.
Proof.
  destruct (genOrder (league 14 5 500 20000) (rnd_reverse [100; 100; 300; 900]) 10
              tied14 (db_with [] [])) as [db'|e] eqn:H.
  - destruct (genOrder_winner_after_tied _ _ _ _ _ _ H) as (lot & Hlot & Hall).
    { apply (bool_decide_unpack _). vm_compute. exact I. }
    vm_compute in Hlot. injection Hlot as <-.
    destruct (Hall 1%nat 0%nat _ _ ltac:(by left)
                ltac:(apply (bool_decide_unpack _); vm_compute; exact I)
                eq_refl eq_refl ltac:(reflexivity))
      as (i & j & Hij & Hi & Hj).
    exists db', i, j. split; [reflexivity|]. split; [exact Hij|].
    split; [exact Hi|exact Hj].
  - exfalso. vm_compute in H. discriminate.
Defined.

(** The store holds picks of the season for the teams 0 to 12 only: team
    13 has none, and [genOrder] throws. *)
Lemma genOrder_defined_witness :
  genOrder (league 14 5 500 20000) (rnd_draws [100; 100; 300; 900]) 10
    ladder14 (genPicks (league 13 5 500 20000) 2017 (db_with [] []))
  = Err TypeError.
Proof.
  destruct (lottery (league 14 5 500 20000) (rnd_draws [100; 100; 300; 900]) 10
              ladder14) as [lot|e] eqn:Hlot.
  - apply (proj2 (genOrder_defined _ _ _ _
                    (genPicks (league 13 5 500 20000) 2017 (db_with [] []))
                    lot Hlot)).
    exists (team 13 (7 # 40) (-1)), 1. split; [|split; [by left|]].
    + apply list_elem_of_fmap. exists 13. split; [done|].
      apply elem_of_seqZ. lia.
    + intros (dp & Hin & Ho & _).
      assert (Forall (λ dp, dp_originalTid dp ≠ 13)
                (picksUsed (league 14 5 500 20000)
                   (genPicks (league 13 5 500 20000) 2017 (db_with [] []))))
        as Hall by (apply (bool_decide_unpack _); vm_compute; exact I).
      exact (proj1 (Forall_forall _ _) Hall dp Hin Ho).
  - exfalso. vm_compute in Hlot. discriminate.
Defined.

End LotteryMore.

(** ** updateChances on any team list, and the draws *)

Module ChancesMore.
Import Schedule Draft Sample Props Terms.
Import LotteryFacts.

Lemma Zsum_cons (w : Z) (ws : list Z) : Zsum (w :: ws) = w + Zsum ws.
Proof. done. Qed.

Lemma findIndex_cumsum_from (d : Z) (ws : list Z) :
  ∀ (prev : Q) (p : Z) (l : list Q) (i : nat),
    (prev == inject_Z p)%Q → Forall2 Qeq l (weights ws) →
    Forall (λ w, 0 ≤ w) ws → p ≤ d →
    JS.findIndex (λ c, JS.Qltb (inject_Z d) c) (cumsum_from prev l) = Some i
    ↔ (i < length ws)%nat
      ∧ p + Zsum (take i ws) ≤ d < p + Zsum (take (S i) ws).
Proof.
  induction ws as [|w ws IH]; intros prev p l i Hprev Hl Hnn Hp.
  - apply Forall2_nil_inv_r in Hl as ->. simpl. split; [done|]. lia.
  - apply Forall2_cons_inv_r in Hl as (x & xs & Hx & Hxs & ->).
    apply Forall_cons in Hnn as [Hw Hnn].
    assert (x + prev == inject_Z (p + w))%Q as Hsum.
    { rewrite inject_Z_plus, Hx, Hprev. ring. }
    cbn [cumsum_from JS.findIndex].
    destruct (JS.Qltb (inject_Z d) (x + prev)) eqn:E.
    + apply Qltb_lt in E. rewrite Hsum, <- Zlt_Qlt in E.
      split.
      * intros [= <-]. simpl; try rewrite Zsum_cons; simpl; lia.
      * intros [_ H]. destruct i as [|i]; [done|].
        rewrite firstn_cons, Zsum_cons in H.
        pose proof (Zsum_nonneg (take i ws) (Forall_take _ _ _ Hnn)). lia.
    + assert (p + w ≤ d) as Hge.
      { destruct (Z.le_gt_cases (p + w) d) as [?|Hlt]; [done|].
        rewrite Zlt_Qlt, <- Hsum in Hlt. apply Qltb_lt in Hlt. congruence. }
      destruct i as [|i].
      * split.
        -- by destruct (JS.findIndex _ _).
        -- simpl; try rewrite Zsum_cons; simpl; lia.
      * rewrite !firstn_cons, !Zsum_cons.
        specialize (IH (x + prev)%Q (p + w) xs i Hsum Hxs Hnn Hge).
        simpl length. rewrite <- Nat.succ_lt_mono.
        replace (p + (w + Zsum (take i ws))) with (p + w + Zsum (take i ws)) by lia.
        replace (p + (w + Zsum (take (S i) ws)))
          with (p + w + Zsum (take (S i) ws)) by lia.
        rewrite <- IH.
        destruct (JS.findIndex _ _) as [j|]; simpl; [|done].
        split; intros [= ->]; done.
Qed.

Lemma findIndex_cumsum (d : Z) (ws : list Z) (l : list Q) (i : nat) :
  Forall2 Qeq l (weights ws) → Forall (λ w, 0 ≤ w) ws → 0 ≤ d →
  JS.findIndex (λ c, JS.Qltb (inject_Z d) c) (cumsum l) = Some i
  ↔ (i < length ws)%nat ∧ Zsum (take i ws) ≤ d < Zsum (take (S i) ws).
Proof.
  intros Hl Hnn Hd. destruct ws as [|w ws].
  - apply Forall2_nil_inv_r in Hl as ->. simpl. split; [done|]. lia.
  - apply Forall2_cons_inv_r in Hl as (x & xs & Hx & Hxs & ->).
    apply Forall_cons in Hnn as [Hw Hnn].
    cbn [cumsum JS.findIndex].
    destruct (JS.Qltb (inject_Z d) x) eqn:E.
    + apply Qltb_lt in E. rewrite Hx, <- Zlt_Qlt in E.
      split.
      * intros [= <-]. simpl; try rewrite Zsum_cons; simpl; lia.
      * intros [_ H]. destruct i as [|i]; [done|].
        rewrite firstn_cons, Zsum_cons in H.
        pose proof (Zsum_nonneg (take i ws) (Forall_take _ _ _ Hnn)). lia.
    + assert (w ≤ d) as Hge.
      { destruct (Z.le_gt_cases w d) as [?|Hlt]; [done|].
        rewrite Zlt_Qlt, <- Hx in Hlt. apply Qltb_lt in Hlt. congruence. }
      destruct i as [|i].
      * split.
        -- by destruct (JS.findIndex _ _).
        -- simpl; try rewrite Zsum_cons; simpl; lia.
      * rewrite !firstn_cons, !Zsum_cons.
        pose proof (findIndex_cumsum_from d ws x w xs i Hx Hxs Hnn Hge) as IH.
        simpl length. rewrite <- Nat.succ_lt_mono. rewrite <- IH.
        destruct (JS.findIndex _ _) as [j|]; simpl; [|done].
        split; intros [= ->]; done.
Qed.

(** X12: a draw selects the team whose interval of combinations it falls
    into. For a table of non-negative integer weights and a draw
    [d >= 0], [findIndex] over the cumulative chances returns position
    [i] exactly when [d] is at least the sum of the weights before [i]
    and below that sum plus the weight of [i] (so exactly [ws_i] draws
    select position [i]); it finds nothing exactly when [d] is at least
    the total of the table. *)
Theorem bucket_interval (rnd : Random) (chances : list Q) (ws : list Z)
    (k : nat) :
  Forall2 Qeq chances (weights ws) → Forall (λ w, 0 ≤ w) ws →
  0 ≤ randInt rnd k →
  (∀ i, bucket rnd (cumsum chances) k = Some i
        ↔ (i < length ws)%nat
          ∧ Zsum (take i ws) ≤ randInt rnd k < Zsum (take i ws) + default 0 (ws !! i))
  ∧ (bucket rnd (cumsum chances) k = None ↔ Zsum ws ≤ randInt rnd k).
Proof.
  intros Hl Hnn Hd.
  assert (∀ i, (i < length ws)%nat →
               Zsum (take (S i) ws) = Zsum (take i ws) + default 0 (ws !! i)) as Hstep.
  { clear. unfold Zsum. induction ws as [|w ws IH]; intros i Hi; simpl in Hi; [lia|].
    destruct i as [|i]; simpl; [lia|]. rewrite IH by lia. lia. }
  assert (∀ i, bucket rnd (cumsum chances) k = Some i
        ↔ (i < length ws)%nat
          ∧ Zsum (take i ws) ≤ randInt rnd k < Zsum (take i ws) + default 0 (ws !! i))
    as Hsome.
  { intros i. unfold bucket. rewrite (findIndex_cumsum _ ws) by done.
    split; intros [Hi H]; (split; [done|]).
    - by rewrite <- Hstep.
    - by rewrite Hstep. }
  split; [exact Hsome|]. split.
  - intros Hnone.
    destruct (Z.le_gt_cases (Zsum ws) (randInt rnd k)) as [?|Hlt]; [done|].
    exfalso.
    assert (∃ i, (i < length ws)%nat
                 ∧ Zsum (take i ws) ≤ randInt rnd k < Zsum (take (S i) ws))
      as (i & Hi & H).
    { clear -Hd Hlt Hnn. revert Hd Hlt. generalize (randInt rnd k) as d.
      induction Hnn as [|w ws Hw Hnn IH]; intros d Hd Hlt.
      - simpl in Hlt. lia.
      - rewrite Zsum_cons in Hlt. destruct (Z.lt_ge_cases d w) as [?|Hge].
        + exists 0%nat. simpl; try rewrite Zsum_cons; simpl; lia.
        + destruct (IH (d - w)) as (i & Hi & H); [lia|lia|].
          exists (S i). rewrite !firstn_cons, !Zsum_cons. simpl. lia. }
    rewrite Hstep in H by done.
    rewrite (proj2 (Hsome i) (conj Hi H)) in Hnone. done.
  - intros Hge. destruct (bucket rnd (cumsum chances) k) as [i|] eqn:E; [|done].
    exfalso. destruct (proj1 (Hsome i) eq_refl) as [Hi H].
    rewrite <- Hstep in H by done.
    assert (Zsum (take (S i) ws) ≤ Zsum ws); [|lia].
    rewrite <- (take_drop (S i) ws) at 2. rewrite Zsum_app.
    pose proof (Zsum_nonneg (drop (S i) ws) (Forall_drop _ _ _ Hnn)). lia.
Qed.

(** *** The groups updateChances works on *)

Lemma keysDistinct_perm (ks ks' : list Q) :
  ks ≡ₚ ks' → keysDistinct ks → keysDistinct ks'.
Proof.
  induction 1 as [|x l l' Hp IH|x y l|l l' l'' _ IH1 _ IH2]; simpl.
  - done.
  - intros [Hx Hl]. split; [|by apply IH].
    intros k Hk. apply Hx. by rewrite Hp.
  - intros [Hx [Hy Hl]]. split; [|split; [|done]].
    + intros k Hk. apply elem_of_cons in Hk as [->|Hk].
      * intros E. apply (Hx x); [by left|]. by symmetry.
      * apply Hy, Hk.
    + intros k Hk. apply Hx. by right.
  - intros H. by apply IH2, IH1.
Qed.

Lemma getc_zero (w : Q) (l : list (Q * nat)) :
  (∀ k, k ∈ l.*1 → ¬ (k == w)%Q) → getc w l = 0%nat.
Proof.
  induction l as [|[k c] l IH]; intros H; simpl; [done|].
  destruct (Qeq_bool k w) eqn:E.
  - apply Qeq_bool_iff in E. exfalso. apply (H k); [by left|done].
  - apply IH. intros k' Hk'. apply H. by right.
Qed.

Lemma getc_head (k w : Q) (c : nat) (l : list (Q * nat)) :
  keysDistinct ((k, c) :: l).*1 → (k == w)%Q → getc w l = 0%nat.
Proof.
  intros [Hk _] E. apply getc_zero. intros k' Hk' E'.
  apply (Hk k' Hk'). by rewrite E, E'.
Qed.

Lemma getc_perm (w : Q) (l l' : list (Q * nat)) :
  l ≡ₚ l' → keysDistinct l.*1 → getc w l = getc w l'.
Proof.
  induction 1 as [|[k c] l l' Hp IH|[k1 c1] [k2 c2] l|l l' l'' Hp1 IH1 Hp2 IH2].
  - done.
  - intros [_ Hl]. simpl. by rewrite IH.
  - intros [Hx _]. simpl.
    destruct (Qeq_bool k1 w) eqn:E1, (Qeq_bool k2 w) eqn:E2; try done.
    apply Qeq_bool_iff in E1, E2. exfalso. apply (Hx k1); [by left|].
    simpl. by rewrite E1, E2.
  - intros H. rewrite IH1 by done. apply IH2.
    apply (keysDistinct_perm l.*1); [by apply fmap_Permutation|done].
Qed.

Lemma countBy_add_pos (w : Q) (acc : list (Q * nat)) :
  Forall (λ kc : Q * nat, (1 ≤ kc.2)%nat) acc →
  Forall (λ kc : Q * nat, (1 ≤ kc.2)%nat) (countBy_add w acc).
Proof.
  induction 1 as [|[k c] acc Hc Hacc IH]; simpl.
  - by repeat constructor.
  - destruct (Qeq_bool k w); constructor; simpl in *; try done; lia.
Qed.

Lemma countBy_pos (teams : list TeamFiltered) :
  Forall (λ kc : Q * nat, (1 ≤ kc.2)%nat) (countBy teams).
Proof.
  induction teams as [|t ts IH] using rev_ind; [constructor|].
  rewrite countBy_snoc. by apply countBy_add_pos.
Qed.

Lemma counted_sortBy (teams : list TeamFiltered) :
  counted (sortBy_key (countBy teams)) (λ w, cnt w teams).
Proof.
  pose proof sortBy_key_total. pose proof sortBy_key_trans.
  assert (sortBy_key (countBy teams) ≡ₚ countBy teams) as Hp
    by apply merge_sort_Permutation.
  destruct (countBy_keys teams) as [Hd _].
  split; [apply (StronglySorted_merge_sort _)|]. split.
  - apply (keysDistinct_perm (countBy teams).*1); [|done].
    symmetry. by apply fmap_Permutation.
  - split.
    + rewrite Hp. apply countBy_pos.
    + intros w. rewrite <- getc_countBy. symmetry. apply getc_perm; [by symmetry|done].
Qed.

Lemma Qeq_bool_compat_l (k k' w : Q) :
  (k == k')%Q → Qeq_bool k w = Qeq_bool k' w.
Proof.
  intros E. destruct (Qeq_bool k w) eqn:E1, (Qeq_bool k' w) eqn:E2; try done.
  - apply Qeq_bool_iff in E1. apply Qeq_bool_neq in E2. exfalso. apply E2.
    by rewrite <- E.
  - apply Qeq_bool_iff in E2. apply Qeq_bool_neq in E1. exfalso. apply E1.
    by rewrite E.
Qed.

Lemma getc_self (k : Q) (c : nat) (l : list (Q * nat)) :
  getc k ((k, c) :: l) = c.
Proof.
  simpl. by rewrite (proj2 (Qeq_bool_iff k k) (Qeq_refl k)).
Qed.

Lemma counted_head_le (k1 k2 : Q) (c1 c2 : nat) (t1 t2 : list (Q * nat))
    (count : Q → nat) :
  counted ((k1, c1) :: t1) count → counted ((k2, c2) :: t2) count →
  (k2 <= k1)%Q.
Proof.
  intros (_ & _ & Hp1 & Hc1) (Hs2 & _ & _ & Hc2).
  apply Forall_cons in Hp1 as [Hp1 _]. simpl in Hp1.
  assert (1 ≤ getc k1 ((k2, c2) :: t2))%nat as Hpos.
  { rewrite Hc2, <- Hc1, getc_self. done. }
  apply getc_pos in Hpos as (k & Hin & E).
  apply StronglySorted_inv in Hs2 as [_ Hall].
  apply elem_of_cons in Hin as [[= <- _]|Hin].
  - rewrite E. apply Qle_refl.
  - apply (proj1 (Forall_forall _ _) Hall) in Hin. simpl in Hin.
    apply Is_true_true, Qle_bool_iff in Hin. by rewrite <- E.
Qed.

Lemma counted_unique (l1 : list (Q * nat)) :
  ∀ l2 count, counted l1 count → counted l2 count → l1.*2 = l2.*2.
Proof.
  induction l1 as [|[k1 c1] t1 IH]; intros [|[k2 c2] t2] count H1 H2.
  - done.
  - exfalso. destruct H1 as (_ & _ & _ & Hc1), H2 as (_ & _ & Hp2 & Hc2).
    apply Forall_cons in Hp2 as [Hp2 _]. simpl in Hp2.
    specialize (Hc1 k2). specialize (Hc2 k2). rewrite getc_self in Hc2.
    simpl in Hc1. lia.
  - exfalso. destruct H1 as (_ & _ & Hp1 & Hc1), H2 as (_ & _ & _ & Hc2).
    apply Forall_cons in Hp1 as [Hp1 _]. simpl in Hp1.
    specialize (Hc1 k1). specialize (Hc2 k1). rewrite getc_self in Hc1.
    simpl in Hc2. lia.
  - assert (k1 == k2)%Q as E.
    { apply Qle_antisym; [eapply counted_head_le|eapply counted_head_le]; eauto. }
    destruct H1 as (Hs1 & Hd1 & Hp1 & Hc1), H2 as (Hs2 & Hd2 & Hp2 & Hc2).
    assert (c1 = c2) as ->.
    { pose proof (Hc1 k1) as Ha. pose proof (Hc2 k1) as Hb.
      rewrite getc_self in Ha. simpl in Hb.
      rewrite (proj2 (Qeq_bool_iff k2 k1)) in Hb by by symmetry. congruence. }
    rewrite !fmap_cons. simpl. f_equal.
    apply StronglySorted_inv in Hs1 as [Hs1 _].
    apply StronglySorted_inv in Hs2 as [Hs2 _].
    apply Forall_cons in Hp1 as [_ Hp1]. apply Forall_cons in Hp2 as [_ Hp2].
    apply (IH t2 (λ w, getc w t1)).
    + split; [done|]. split; [by destruct Hd1|]. split; done.
    + split; [done|]. split; [by destruct Hd2|]. split; [done|].
      intros w. destruct (Qeq_bool k1 w) eqn:Ew.
      * apply Qeq_bool_iff in Ew.
        rewrite (getc_head k1 w c2 t1) by done.
        apply (getc_head k2 w c2); [done|]. by rewrite <- E.
      * pose proof (Hc1 w) as Ha. pose proof (Hc2 w) as Hb.
        simpl in Ha, Hb. rewrite Ew in Ha.
        rewrite (Qeq_bool_compat_l k1 k2 w E) in Ew.
        rewrite Ew in Hb. congruence.
Qed.

Lemma cnt_perm (w : Q) (ts ts' : list TeamFiltered) :
  ts ≡ₚ ts' → cnt w ts = cnt w ts'.
Proof.
  induction 1 as [|x l l' _ IH|x y l|l l' l'' _ IH1 _ IH2]; simpl; lia.
Qed.

Lemma loop_counts (isFinal : bool) (wps : list (Q * nat)) :
  ∀ wps' tc chances, wps.*2 = wps'.*2 →
    updateChances_loop isFinal wps tc chances
    = updateChances_loop isFinal wps' tc chances.
Proof.
  induction wps as [|[k c] wps IH]; intros [|[k' c'] wps'] tc chances E;
    try done.
  rewrite !fmap_cons in E. simpl in E. injection E as -> E. simpl.
  destruct (if (1 <? c')%nat then _ else _) as [r|]; [|done]. cbn [res_bind].
  destruct (length r.2 <=? tc + r.1)%nat; [done|]. by apply IH.
Qed.

(** X14: [updateChances] does not look at the order of the teams: it
    counts how many teams have each win percentage and walks the counts
    in ascending order of the percentage. Two team lists that are
    rearrangements of each other give the same result. *)
Theorem updateChances_order_blind (chances : list Q)
    (teams teams' : list TeamFiltered) (isFinal : bool) :
  teams ≡ₚ teams' →
  updateChances chances teams isFinal = updateChances chances teams' isFinal.
Proof.
  intros Hp. unfold updateChances. apply loop_counts.
  apply (counted_unique _ _ (λ w, cnt w teams)); [apply counted_sortBy|].
  destruct (counted_sortBy teams') as (H1 & H2 & H3 & H4).
  split; [done|]. split; [done|]. split; [done|].
  intros w. rewrite H4. symmetry. by apply cnt_perm.
Qed.

Lemma cnt_none (w : Q) (ts : list TeamFiltered) :
  Forall (λ t, ¬ (winp t == w)%Q) ts → cnt w ts = 0%nat.
Proof.
  induction 1 as [|t ts Ht _ IH]; simpl; [done|].
  rewrite IH. destruct (Qeq_bool (winp t) w) eqn:E; [|done].
  by apply Qeq_bool_iff in E.
Qed.

Lemma counted_groups (groups : list (list TeamFiltered)) :
  tiedGroups groups →
  counted ((λ grp, (groupKey grp, length grp)) <$> groups)
          (λ w, cnt w (concat groups)).
Proof.
  intros [Hgrp Hsort]. induction Hsort as [|grp groups Hsort IH Hlt].
  - repeat split; constructor.
  - apply Forall_cons in Hgrp as [[Hne Hall] Hgrp].
    destruct (IH Hgrp) as (H1 & H2 & H3 & H4).
    assert (∀ grp', grp' ∈ groups → Forall (λ t, groupKey grp < winp t)%Q grp')
      as Hlater.
    { intros grp' Hin.
      pose proof (proj1 (Forall_forall _ _) Hlt _ Hin) as Hk.
      destruct (proj1 (Forall_forall _ _) Hgrp _ Hin) as [_ Hall'].
      eapply Forall_impl; [exact Hall'|]. intros t Ht. simpl in *.
      by rewrite Ht. }
    rewrite fmap_cons. split; [|split; [|split]].
    + constructor; [done|]. apply Forall_fmap, Forall_forall.
      intros grp' Hin. simpl. apply Is_true_true, Qle_bool_iff.
      apply Qlt_le_weak. exact (proj1 (Forall_forall _ _) Hlt _ Hin).
    + simpl. split; [|done]. intros k Hk E.
      rewrite <- list_fmap_compose in Hk.
      apply list_elem_of_fmap in Hk as (grp' & -> & Hin). simpl in E.
      pose proof (proj1 (Forall_forall _ _) Hlt _ Hin) as Hk. simpl in Hk.
      rewrite E in Hk. by apply Qlt_irrefl in Hk.
    + constructor; [|done]. simpl. destruct grp; [done|]. simpl. lia.
    + intros w. simpl concat. rewrite cnt_app. simpl.
      destruct (Qeq_bool (groupKey grp) w) eqn:E.
      * apply Qeq_bool_iff in E. rewrite (cnt_all w grp).
        -- rewrite (cnt_none w (concat groups)); [lia|].
           apply Forall_concat, Forall_forall. intros grp' Hin.
           eapply Forall_impl; [exact (Hlater grp' Hin)|].
           intros t Ht Et. simpl in Ht. rewrite Et, E in Ht.
           by apply Qlt_irrefl in Ht.
        -- eapply Forall_impl; [exact Hall|]. intros t Ht. simpl in Ht.
           by rewrite Ht.
      * apply Qeq_bool_neq in E. rewrite (cnt_none w grp).
        -- by rewrite H4.
        -- eapply Forall_impl; [exact Hall|]. intros t Ht Et. simpl in Ht.
           apply E. by rewrite <- Ht.
Qed.

Lemma counts_of_groups (groups : list (list TeamFiltered)) :
  tiedGroups groups →
  (sortBy_key (countBy (concat groups))).*2 = length <$> groups.
Proof.
  intros H.
  rewrite (counted_unique _ _ _ (counted_sortBy (concat groups)) (counted_groups _ H)).
  rewrite <- list_fmap_compose. done.
Qed.

(** *** The final pass on a list in ascending order *)

Lemma averaged_nil (sizes : list nat) : averaged sizes [] = [].
Proof. by destruct sizes. Qed.

Lemma averaged_cons (n : nat) (sizes : list nat) (ws : list Z) :
  ws ≠ [] →
  averaged (n :: sizes) ws
  = evenShares (Zsum (take (n `min` length ws) ws)) (n `min` length ws)
      ++ averaged sizes (drop (n `min` length ws) ws).
Proof. by destruct ws. Qed.

Lemma clip_min (len tc val : nat) :
  (tc < len)%nat → clip len tc val = (val `min` (len - tc))%nat.
Proof.
  intros H. unfold clip. destruct (len <=? tc + val)%nat eqn:E.
  - apply Nat.leb_le in E. lia.
  - apply Nat.leb_gt in E. lia.
Qed.

Lemma evenShares_one (x : Z) : evenShares x 1 = [x].
Proof.
  unfold evenShares. change (Z.of_nat 1) with 1.
  rewrite Z.mod_1_r, Z.div_1_r. done.
Qed.

Lemma averageGroup_step (tc val : nat) (chances : list Q) (ws : list Z) :
  Forall2 Qeq chances (weights ws) → Forall (λ w, 0 ≤ w) ws →
  (tc < length ws)%nat → (1 ≤ val)%nat →
  let val' := clip (length ws) tc val in
  ∃ res, (if (1 <? val)%nat then averageGroup true tc val chances
          else Ok (val, chances)) = Ok (val', res)
    ∧ Forall2 Qeq res
        (weights (take tc ws
                    ++ evenShares (Zsum (take val' (drop tc ws))) val'
                    ++ drop (tc + val') ws)).
Proof.
  intros Hch Hnn Htc Hval. destruct (1 <? val)%nat eqn:E.
  - by apply averageGroup_final.
  - apply Nat.ltb_ge in E. assert (val = 1%nat) as -> by lia.
    assert (clip (length ws) tc 1 = 1%nat) as ->
      by (rewrite clip_min by done; lia).
    exists chances. split; [done|].
    destruct (lookup_lt_is_Some_2 ws tc Htc) as [x Hx].
    rewrite (drop_S _ _ _ Hx). simpl take. 
    rewrite evenShares_one. replace (tc + 1)%nat with (S tc) by lia.
    simpl app. rewrite Z.add_0_r. by rewrite (take_drop_middle _ _ _ Hx).
Qed.

Lemma loop_averaged (wps : list (Q * nat)) :
  ∀ (tc : nat) (chances : list Q) (ws : list Z),
    Forall (λ kc : Q * nat, (1 ≤ kc.2)%nat) wps →
    Forall2 Qeq chances (weights ws) → Forall (λ w, 0 ≤ w) ws →
    (tc < length ws)%nat →
    ∃ res, updateChances_loop true wps tc chances = Ok res
      ∧ Forall2 Qeq res (weights (take tc ws ++ averaged wps.*2 (drop tc ws))).
Proof.
  induction wps as [|[k val] wps IH]; intros tc chances ws Hpos Hch Hnn Htc.
  - exists chances. simpl. by rewrite take_drop.
  - apply Forall_cons in Hpos as [Hval Hpos]. simpl in Hval.
    destruct (averageGroup_step tc val chances ws Hch Hnn Htc Hval)
      as (res1 & Hr & Hres1).
    destruct (clip_bounds (length ws) tc val Htc Hval) as (Hc1 & Hc2 & _ & _).
    destruct (averaged_weights tc (clip (length ws) tc val) ws Hnn Hc1 Hc2)
      as (Hnn1 & _ & Hlen1).
    pose proof (clip_min (length ws) tc val Htc) as Hmin.
    set (val' := clip (length ws) tc val) in *.
    assert (drop tc ws ≠ []) as Hne.
    { intros E. apply (f_equal length) in E. rewrite length_drop in E.
      simpl in E. lia. }
    assert (averaged ((k, val) :: wps).*2 (drop tc ws)
            = evenShares (Zsum (take val' (drop tc ws))) val'
                ++ averaged wps.*2 (drop (tc + val') ws)) as Hav.
    { rewrite fmap_cons. cbn [snd]. rewrite averaged_cons by done.
      rewrite length_drop, <- Hmin, drop_drop. done. }
    rewrite Hav. cbn [updateChances_loop]. rewrite Hr. cbn [res_bind]. simpl.
    assert (length res1 = length ws) as Hlr.
    { rewrite (Forall2_length _ _ _ Hres1). unfold weights.
      rewrite length_fmap. exact Hlen1. }
    destruct (length res1 <=? tc + val')%nat eqn:E.
    + apply Nat.leb_le in E. exists res1. split; [done|].
      assert (drop (tc + val') ws = []) as Hd by (apply drop_ge; lia).
      rewrite Hd in Hres1 |- *. by rewrite averaged_nil.
    + apply Nat.leb_gt in E.
      destruct (IH (tc + val')%nat res1 _ Hpos Hres1 Hnn1) as (res & Hrun & Hres).
      { rewrite Hlen1. lia. }
      exists res. split; [done|].
      assert (length (evenShares (Zsum (take val' (drop tc ws))) val') = val')
        as Hle by (apply evenShares_length; lia).
      assert (length (take tc ws) = tc) as Hlt by (rewrite length_take; lia).
      rewrite app_assoc in Hres.
      rewrite take_app_length' in Hres by (rewrite length_app; lia).
      rewrite drop_app_length' in Hres by (rewrite length_app; lia).
      by rewrite <- app_assoc in Hres.
Qed.

(** X13: the final pass on a team list in ascending order of win
    percentage. When the list is the concatenation of its groups of tied
    teams and the table holds non-negative integer weights, the pass
    completes with the table in which every group has shared the total
    weight of its slots evenly: the quotient for each member and one more
    for the first members until the remainder is used up. A group that
    reaches past the end of the table shares only the slots inside it. *)
Theorem updateChances_groups (ws : list Z) (groups : list (list TeamFiltered)) :
  tiedGroups groups → Forall (λ w, 0 ≤ w) ws → ws ≠ [] →
  ∃ res, updateChances (weights ws) (concat groups) true = Ok res
    ∧ Forall2 Qeq res (weights (averaged (length <$> groups) ws)).
Proof.
  intros Hg Hnn Hne. unfold updateChances.
  destruct (loop_averaged (sortBy_key (countBy (concat groups))) 0
              (weights ws) ws) as (res & Hrun & Hres).
  - by destruct (counted_sortBy (concat groups)) as (_ & _ & ? & _).
  - apply Forall2_Qeq_refl.
  - done.
  - destruct ws; [done|]. simpl. lia.
  - exists res. split; [done|].
    by rewrite counts_of_groups in Hres.
Qed.

(** *** The pass that is not final *)

Lemma tiedGroups_cons (grp : list TeamFiltered)
    (groups : list (list TeamFiltered)) :
  tiedGroups (grp :: groups) →
  grp ≠ [] ∧ Forall (λ t, winp t == groupKey grp)%Q grp ∧ tiedGroups groups
  ∧ Forall (λ t, groupKey grp < winp t)%Q (concat groups).
Proof.
  intros [Hgrp Hsort]. apply Forall_cons in Hgrp as [[Hne Hall] Hgrp].
  apply StronglySorted_inv in Hsort as [Hsort Hlt].
  split; [done|]. split; [done|]. split; [done|].
  apply Forall_concat, Forall_forall. intros grp' Hin.
  pose proof (proj1 (Forall_forall _ _) Hlt _ Hin) as Hk.
  destruct (proj1 (Forall_forall _ _) Hgrp _ Hin) as [_ Hall'].
  eapply Forall_impl; [exact Hall'|]. intros t Ht. simpl in *. by rewrite Ht.
Qed.

(** A team of a group that shares its win percentage with no other team
    of the list is alone in its group. *)
Lemma alone_in_group (grp rest : list TeamFiltered) (i : nat)
    (ti : TeamFiltered) :
  Forall (λ t, winp t == groupKey grp)%Q grp →
  grp !! i = Some ti →
  (∀ j tj, (grp ++ rest) !! j = Some tj → (winp tj == winp ti)%Q → j = i) →
  length grp = 1%nat.
Proof.
  intros Hall Hi Huniq.
  destruct (decide (length grp = 1%nat)) as [?|Hne]; [done|]. exfalso.
  pose proof (lookup_lt_Some _ _ _ Hi) as Hlt.
  destruct (lookup_lt_is_Some_2 grp (if decide (i = 0%nat) then 1%nat else 0%nat))
    as [tj Hj]; [case_decide; lia|].
  assert ((if decide (i = 0%nat) then 1%nat else 0%nat) = i); [|case_decide; lia].
  apply (Huniq _ tj).
  - rewrite lookup_app_l; [done|]. by eapply lookup_lt_Some.
  - rewrite (proj1 (Forall_forall _ _) Hall tj (list_elem_of_lookup_2 _ _ _ Hj)).
    by rewrite (proj1 (Forall_forall _ _) Hall ti (list_elem_of_lookup_2 _ _ _ Hi)).
Qed.

(** What one step of the loop leaves: the array has its length; the slots
    before the group and behind it are untouched; the slots of a group of
    more than one team all hold one value, and the slot of a single team
    is untouched. *)
Lemma averageGroup_level (tc val : nat) (chances : list Q) :
  (tc < length chances)%nat → (1 ≤ val)%nat →
  let val' := clip (length chances) tc val in
  ∃ res, (if (1 <? val)%nat then averageGroup false tc val chances
          else Ok (val, chances)) = Ok (val', res)
    ∧ length res = length chances
    ∧ (∀ k, (k < tc)%nat → res !! k = chances !! k)
    ∧ (∀ k, (tc + val' ≤ k)%nat → res !! k = chances !! k)
    ∧ (∀ a b, (a < val')%nat → (b < val')%nat →
         res !! (tc + a)%nat = res !! (tc + b)%nat)
    ∧ (val = 1%nat → res = chances).
Proof.
  intros Htc Hval.
  destruct (clip_bounds (length chances) tc val Htc Hval) as (Hc1 & Hc2 & _ & _).
  cbv zeta. destruct (1 <? val)%nat eqn:E.
  - apply Nat.ltb_lt in E.
    unfold averageGroup. fold (clip (length chances) tc val).
    set (val' := clip (length chances) tc val) in *.
    unfold JS.slice. replace (tc + val' - tc)%nat with val' by lia.
    destruct (take val' (drop tc chances)) as [|x xs] eqn:Hs.
    { apply (f_equal length) in Hs.
      rewrite length_take, length_drop in Hs. simpl in Hs. lia. }
    cbn [JS.reduce_add res_bind]. rewrite spread_ok by lia. cbn [res_bind].
    rewrite (spreadVals_replicate _ _ _ 0) by reflexivity.
    simpl Z.to_nat. rewrite Nat.min_0_l, Nat.sub_0_r. simpl app.
    set (v := ((foldl Qplus x xs - 0) / inject_Z (Z.of_nat val'))%Q).
    eexists. split; [done|].
    assert (length (take tc chances) = tc) as Hlt by (rewrite length_take; lia).
    split; [|split; [|split; [|split]]].
    + rewrite !length_app, Hlt, length_replicate, length_drop. lia.
    + intros k Hk. rewrite lookup_app_l by lia. by apply lookup_take_lt.
    + intros k Hk. rewrite lookup_app_r by lia.
      rewrite lookup_app_r by (rewrite length_replicate; lia).
      rewrite lookup_drop, Hlt, length_replicate. f_equal. lia.
    + assert (∀ a, (a < val')%nat →
                   (take tc chances ++ replicate val' v
                      ++ drop (tc + val') chances) !! (tc + a)%nat = Some v)
        as Hv.
      { intros a Ha. rewrite lookup_app_r by lia.
        rewrite lookup_app_l by (rewrite length_replicate; lia).
        apply lookup_replicate_2. lia. }
      intros a b Ha Hb. by rewrite !Hv.
    + lia.
  - apply Nat.ltb_ge in E. assert (val = 1%nat) as -> by lia.
    assert (clip (length chances) tc 1 = 1%nat) as ->
      by (rewrite clip_min by done; lia).
    exists chances. split; [done|]. split; [done|]. split; [done|].
    split; [done|]. split; [|done].
    intros a b Ha Hb. by replace a with b by lia.
Qed.

Lemma loop_levels (groups : list (list TeamFiltered)) :
  tiedGroups groups →
  ∀ tc chances, (tc < length chances)%nat →
    ∃ res,
      updateChances_loop false ((λ grp, (0%Q, length grp)) <$> groups) tc chances
      = Ok res
      ∧ length res = length chances
      ∧ (∀ k, (k < tc)%nat → res !! k = chances !! k)
      ∧ (∀ i j ti tj,
           concat groups !! i = Some ti → concat groups !! j = Some tj →
           (tc + i < length chances)%nat → (tc + j < length chances)%nat →
           (winp ti == winp tj)%Q →
           res !! (tc + i)%nat = res !! (tc + j)%nat)
      ∧ (∀ i ti,
           concat groups !! i = Some ti → (tc + i < length chances)%nat →
           (∀ j tj, concat groups !! j = Some tj → (winp tj == winp ti)%Q →
                    j = i) →
           res !! (tc + i)%nat = chances !! (tc + i)%nat).
Proof.
  induction groups as [|grp groups IH]; intros Hg tc chances Htc.
  - exists chances. simpl. split; [done|]. split; [done|]. split; [done|].
    split; intros; by rewrite ?lookup_nil in *.
  - destruct (tiedGroups_cons _ _ Hg) as (Hne & Hall & Hg' & Hlater).
    assert (1 ≤ length grp)%nat as Hn by (destruct grp; [done|simpl; lia]).
    destruct (averageGroup_level tc (length grp) chances Htc Hn)
      as (res1 & Hr & F1 & F2 & F3 & F4 & F5).
    destruct (clip_bounds (length chances) tc (length grp) Htc Hn)
      as (Hc1 & Hc2 & Hc3 & _).
    pose proof (clip_min (length chances) tc (length grp) Htc) as Hmin.
    set (val' := clip (length chances) tc (length grp)) in *.
    rewrite fmap_cons. cbn [updateChances_loop]. rewrite Hr.
    cbn [res_bind fst snd]. simpl concat.
    assert (∀ i ti, (grp ++ concat groups) !! i = Some ti →
                    (i < length grp)%nat → (winp ti == groupKey grp)%Q) as Hin.
    { intros i ti Hi Hlt. rewrite lookup_app_l in Hi by done.
      exact (proj1 (Forall_forall _ _) Hall ti (list_elem_of_lookup_2 _ _ _ Hi)). }
    assert (∀ i ti, (grp ++ concat groups) !! i = Some ti →
                    (length grp ≤ i)%nat → (groupKey grp < winp ti)%Q) as Hout.
    { intros i ti Hi Hge. rewrite lookup_app_r in Hi by done.
      exact (proj1 (Forall_forall _ _) Hlater ti (list_elem_of_lookup_2 _ _ _ Hi)). }
    assert (∀ i ti, (grp ++ concat groups) !! i = Some ti →
                    (i < length grp)%nat →
                    (∀ j tj, (grp ++ concat groups) !! j = Some tj →
                             (winp tj == winp ti)%Q → j = i) →
                    res1 = chances) as Halone.
    { intros i ti Hi Hlt Huniq. apply F5.
      rewrite lookup_app_l in Hi by done.
      by apply (alone_in_group grp (concat groups) i ti). }
    destruct (length res1 <=? tc + val')%nat eqn:E.
    + apply Nat.leb_le in E. exists res1.
      split; [done|]. split; [done|]. split; [done|]. split.
      * intros i j ti tj _ _ Hi Hj _. apply F4; lia.
      * intros i ti Hi Hlt Huniq.
        by rewrite (Halone i ti Hi ltac:(lia) Huniq).
    + apply Nat.leb_gt in E.
      assert (val' = length grp) as Hv by lia.
      destruct (IH Hg' (tc + val')%nat res1 E) as (res & Hrun & L & T & I & U).
      exists res. split; [done|]. split; [by rewrite L|].
      rewrite Hv in *.
      split; [|split].
      * intros k Hk. rewrite T by lia. by apply F2.
      * intros i j ti tj Hi Hj Hli Hlj Hw.
        destruct (Nat.lt_ge_cases i (length grp)) as [Hi1|Hi1];
          destruct (Nat.lt_ge_cases j (length grp)) as [Hj1|Hj1].
        -- rewrite !T by lia. by apply F4.
        -- exfalso. pose proof (Hin _ _ Hi Hi1) as H1.
           pose proof (Hout _ _ Hj Hj1) as H2. rewrite <- Hw, H1 in H2.
           by apply Qlt_irrefl in H2.
        -- exfalso. pose proof (Hin _ _ Hj Hj1) as H1.
           pose proof (Hout _ _ Hi Hi1) as H2. rewrite Hw, H1 in H2.
           by apply Qlt_irrefl in H2.
        -- rewrite lookup_app_r in Hi, Hj by done.
           replace (tc + i)%nat with (tc + length grp + (i - length grp))%nat
             by lia.
           replace (tc + j)%nat with (tc + length grp + (j - length grp))%nat
             by lia.
           apply (I _ _ ti tj); [done|done|lia|lia|done].
      * intros i ti Hi Hli Huniq.
        destruct (Nat.lt_ge_cases i (length grp)) as [Hi1|Hi1].
        -- rewrite T by lia. by rewrite (Halone i ti Hi Hi1 Huniq).
        -- pose proof Hi as Hi'. rewrite lookup_app_r in Hi' by done.
           replace (tc + i)%nat with (tc + length grp + (i - length grp))%nat
             by lia.
           rewrite (U _ ti Hi'); [apply F3; lia|lia|].
           intros j tj Hj Hw.
           assert ((length grp + j)%nat = i); [|lia].
           apply (Huniq _ tj); [|done].
           rewrite lookup_app_r by lia.
           by replace (length grp + j - length grp)%nat with j by lia.
Qed.

(** X21: the pass that is not final, on a team list in ascending order of
    win percentage (the concatenation of its groups of tied teams). On
    every non-empty table the pass completes and leaves the length of the
    table; two tied teams that both have a slot in the table end with the
    same value in their slots; and the slot of a team that is tied with no
    other team is left as it was. *)
Theorem updateChances_display_levels (chances : list Q)
    (groups : list (list TeamFiltered)) :
  tiedGroups groups → chances ≠ [] →
  ∃ res, updateChances chances (concat groups) false = Ok res
    ∧ length res = length chances
    ∧ (∀ i j ti tj,
         concat groups !! i = Some ti → concat groups !! j = Some tj →
         (i < length chances)%nat → (j < length chances)%nat →
         (winp ti == winp tj)%Q → res !! i = res !! j)
    ∧ (∀ i ti,
         concat groups !! i = Some ti → (i < length chances)%nat →
         (∀ j tj, concat groups !! j = Some tj → (winp tj == winp ti)%Q →
                  j = i) →
         res !! i = chances !! i).
Proof.
  intros Hg Hne. unfold updateChances.
  rewrite (loop_counts false _ ((λ grp, (0%Q, length grp)) <$> groups) 0 chances).
  - destruct (loop_levels groups Hg 0 chances) as (res & Hrun & L & _ & I & U).
    { destruct chances; [done|]. simpl. lia. }
    exists res. split; [done|]. split; [done|]. split.
    + intros i j ti tj Hi Hj Hli Hlj Hw. by apply (I i j ti tj).
    + intros i ti Hi Hli Huniq. by apply (U i ti).
  - rewrite counts_of_groups by done. by rewrite <- list_fmap_compose.
Qed.

(** X15: on an empty table [updateChances] throws when the teams with the
    lowest win percentage are tied (it reduces an empty slice), and
    returns the empty table when the lowest team stands alone; the other
    groups are never reached. *)
Theorem updateChances_empty_table (grp : list TeamFiltered)
    (groups : list (list TeamFiltered)) (isFinal : bool) :
  tiedGroups (grp :: groups) →
  updateChances [] (concat (grp :: groups)) isFinal
  = if (1 <? length grp)%nat then Err TypeError else Ok [].
Proof.
  intros Hg. unfold updateChances.
  rewrite (loop_counts isFinal _
             ((λ n, (0%Q, n)) <$> (length <$> grp :: groups)) 0 []).
  - rewrite !fmap_cons. simpl updateChances_loop.
    destruct (1 <? length grp)%nat eqn:E; [|done].
    unfold averageGroup, JS.slice. simpl. by rewrite take_nil.
  - rewrite counts_of_groups by done. rewrite <- list_fmap_compose.
    symmetry. apply list_fmap_id.
Qed.

Lemma bucket_interval_witness :
  bucket (rnd_draws [300]) (cumsum baseChances) 0 = Some 1%nat.
Proof.
  apply (proj1 (bucket_interval (rnd_draws [300]) baseChances baseWeights 0
                  (Forall2_Qeq_refl _)
                  ltac:(apply (bool_decide_unpack _); vm_compute; exact I)
                  ltac:(simpl; lia))).
  split; [simpl; lia|]. simpl. lia.
Defined.

Lemma updateChances_groups_witness :
  ∃ res,
    updateChances (weights [250; 199; 156; 119; 88; 63])
      [team 0 (1 # 5) (-1); team 1 (1 # 5) (-1); team 2 (3 # 10) (-1);
       team 3 (2 # 5) (-1); team 4 (2 # 5) (-1); team 5 (2 # 5) (-1)] true
    = Ok res
    ∧ Forall2 Qeq res (weights [225; 224; 156; 90; 90; 90]).
Proof.
  apply (updateChances_groups [250; 199; 156; 119; 88; 63]
           [[team 0 (1 # 5) (-1); team 1 (1 # 5) (-1)]; [team 2 (3 # 10) (-1)];
            [team 3 (2 # 5) (-1); team 4 (2 # 5) (-1); team 5 (2 # 5) (-1)]]).
  - split.
    + repeat constructor; done.
    + repeat constructor; done.
  - repeat constructor; done.
  - done.
Defined.

Lemma updateChances_order_blind_witness :
  updateChances baseChances
    [team 0 (1 # 5) (-1); team 1 (3 # 10) (-1); team 2 (1 # 5) (-1)] true
  = updateChances baseChances
      [team 1 (3 # 10) (-1); team 0 (1 # 5) (-1); team 2 (1 # 5) (-1)] true.
Proof.
  apply updateChances_order_blind. apply perm_swap.
Defined.

Lemma updateChances_empty_table_witness :
  updateChances [] [team 0 (1 # 5) (-1); team 1 (1 # 5) (-1)] false
  = Err TypeError.
Proof.
  apply (updateChances_empty_table
           [team 0 (1 # 5) (-1); team 1 (1 # 5) (-1)] [] false).
  split; repeat constructor; done.
Defined.

(** Teams 0 and 1 are tied and end with one value; team 2 is tied with
    nobody and keeps 156. *)
Lemma updateChances_display_levels_witness :
  ∃ res,
    updateChances [250; 199; 156; 119; 88; 63]%Q
      [team 0 (1 # 5) (-1); team 1 (1 # 5) (-1); team 2 (3 # 10) (-1);
       team 3 (2 # 5) (-1); team 4 (2 # 5) (-1); team 5 (2 # 5) (-1)] false
    = Ok res
    ∧ length res = 6%nat
    ∧ res !! 0%nat = res !! 1%nat
    ∧ res !! 2%nat = Some 156%Q.
Proof.
  destruct (updateChances_display_levels [250; 199; 156; 119; 88; 63]%Q
           [[team 0 (1 # 5) (-1); team 1 (1 # 5) (-1)]; [team 2 (3 # 10) (-1)];
            [team 3 (2 # 5) (-1); team 4 (2 # 5) (-1); team 5 (2 # 5) (-1)]])
    as (res & Hrun & Hlen & Htied & Halone).
  - split.
    + repeat constructor; done.
    + repeat constructor; done.
  - done.
  - exists res. split; [exact Hrun|]. split; [exact Hlen|]. split.
    + apply (Htied 0%nat 1%nat (team 0 (1 # 5) (-1)) (team 1 (1 # 5) (-1)));
        [reflexivity|reflexivity|simpl; lia|simpl; lia|reflexivity].
    + apply (Halone 2%nat (team 2 (3 # 10) (-1))); [reflexivity|simpl; lia|].
      intros j tj Hj Hw.
      do 6 (destruct j as [|j];
            [injection Hj as <-; first [reflexivity | by vm_compute in Hw]|]).
      done.
Defined.

End ChancesMore.

(** ** genOrderFantasy: the snake *)

Module FantasyMore.
Import Schedule Draft Sample Props Terms.

Lemma snake_row_picks (r : Z) (tids : list Z) :
  pick <$> imap (λ i t, {| round := r; pick := Z.of_nat i + 1; tid := t;
                           originalTid := t |}) tids
  = seqZ 1 (Z.of_nat (length tids)).
Proof.
  apply list_eq. intros i. rewrite list_lookup_fmap, list_lookup_imap.
  destruct (tids !! i) as [t|] eqn:E; simpl.
  - apply lookup_lt_Some in E. symmetry. apply lookup_seqZ. lia.
  - apply lookup_ge_None in E. symmetry. apply lookup_seqZ_ge. lia.
Qed.

Lemma snake_row_tids (r : Z) (tids : list Z) :
  tid <$> imap (λ i t, {| round := r; pick := Z.of_nat i + 1; tid := t;
                          originalTid := t |}) tids = tids.
Proof.
  apply list_eq. intros i. rewrite list_lookup_fmap, list_lookup_imap.
  by destruct (tids !! i).
Qed.

Lemma snake_row_own (r : Z) (tids : list Z) :
  Forall (λ e, originalTid e = tid e ∧ round e = r)
    (imap (λ i t, {| round := r; pick := Z.of_nat i + 1; tid := t;
                     originalTid := t |}) tids).
Proof.
  apply Forall_forall. intros e He. apply list_elem_of_lookup in He as [i Hi].
  rewrite list_lookup_imap in Hi. destruct (tids !! i); [|done].
  by injection Hi as <-.
Qed.

Lemma snake_rounds_from (k : nat) :
  ∀ r0 tids, Forall (λ e, r0 ≤ round e ∧ originalTid e = tid e) (snake k r0 tids).
Proof.
  induction k as [|k IH]; intros r0 tids; simpl; [constructor|].
  apply Forall_app. split.
  - eapply Forall_impl; [apply snake_row_own|]. intros e [? ->]. split; [lia|done].
  - eapply Forall_impl; [apply IH|]. intros e [? ?]. split; [lia|done].
Qed.

Lemma snake_length (k : nat) :
  ∀ r0 tids, length (snake k r0 tids) = (k * length tids)%nat.
Proof.
  induction k as [|k IH]; intros r0 tids; simpl; [done|].
  by rewrite length_app, length_imap, IH, length_reverse.
Qed.

Lemma snake_round (k : nat) :
  ∀ r0 tids r, r0 ≤ r < r0 + Z.of_nat k →
    tid <$> roundEntries r (snake k r0 tids)
      = (if Z.even (r - r0) then tids else reverse tids)
    ∧ pick <$> roundEntries r (snake k r0 tids)
      = seqZ 1 (Z.of_nat (length tids)).
Proof.
  unfold roundEntries.
  induction k as [|k IH]; intros r0 tids r Hr; [lia|].
  cbn [snake]. rewrite filter_app.
  destruct (decide (r = r0)) as [->|Hne].
  - rewrite OrderFacts.filter_all
      by (eapply Forall_impl; [apply snake_row_own|]; by intros e [_ ?]).
    rewrite OrderFacts.filter_none, app_nil_r.
    + rewrite Z.sub_diag. simpl. split; [apply snake_row_tids|apply snake_row_picks].
    + eapply Forall_impl; [apply snake_rounds_from|]. intros e [? _]. simpl in *. lia.
  - rewrite OrderFacts.filter_none.
    + simpl. destruct (IH (r0 + 1) (reverse tids) r) as [H1 H2]; [lia|].
      rewrite H1, H2, length_reverse. split; [|done].
      replace (r - r0) with (Z.succ (r - (r0 + 1))) by lia.
      rewrite Z.even_succ, <- Z.negb_even.
      destruct (Z.even (r - (r0 + 1))); simpl; [done|]. apply reverse_involutive.
    + eapply Forall_impl; [apply snake_row_own|]. intros e [_ ?]. simpl in *. lia.
Qed.

(** X16: the order [genOrderFantasy] stores is a snake of 12 rounds over
    the shuffled team list: round [r] lists the teams in the shuffled
    order when [r] is odd and in the reverse order when [r] is even, with
    the pick numbers 1, 2, ... in that order; every team picks for itself,
    and the order has 12 entries per team. Nothing else in the store
    changes. *)
Theorem genOrderFantasy_snake (g : G) (rnd : Random) (fuel : nat)
    (position : option Z) (db db' : DB) :
  genOrderFantasy g rnd fuel position db = Ok db' →
  ∃ tids n,
    fantasyShuffle g rnd fuel position = Ok (tids, n)
    ∧ length (draftOrder db') = (12 * length tids)%nat
    ∧ Forall (λ e, originalTid e = tid e ∧ 1 ≤ round e) (draftOrder db')
    ∧ (∀ r, 1 ≤ r ≤ 12 →
         tid <$> roundEntries r (draftOrder db')
           = (if Z.odd r then tids else reverse tids)
         ∧ pick <$> roundEntries r (draftOrder db')
           = seqZ 1 (Z.of_nat (length tids)))
    ∧ players db' = players db ∧ draftPicks db' = draftPicks db.
Proof.
  unfold genOrderFantasy.
  destruct (fantasyShuffle g rnd fuel position) as [[tids n]|] eqn:E; [|done].
  cbn [res_bind fst]. intros H.
  assert (db' = put_draftOrder (snake 12 1 tids) db) as -> by congruence.
  clear H. exists tids, n.
  change (draftOrder (put_draftOrder (snake 12 1 tids) db))
    with (snake 12 1 tids).
  split; [done|]. split; [apply (snake_length 12)|]. split.
  { eapply Forall_impl; [apply (snake_rounds_from 12)|]. by intros e [? ?]. }
  split; [|done]. intros r Hr.
  destruct (snake_round 12 1 tids r) as [H1 H2]; [lia|].
  split; [|done]. rewrite H1.
  replace r with (Z.succ (r - 1)) at 2 by lia. by rewrite Z.odd_succ.
Qed.

Lemma genOrderFantasy_snake_witness :
  ∃ db',
    genOrderFantasy (league 3 (-1) 500 20000) (rnd_gauss 0) 1000 (Some 1)
      (db_with [] []) = Ok db'
    ∧ length (draftOrder db') = 36%nat
    ∧ tid <$> roundEntries 1 (draftOrder db') = [0; 1; 2]
    ∧ tid <$> roundEntries 2 (draftOrder db') = [2; 1; 0]
    ∧ pick <$> roundEntries 2 (draftOrder db') = [1; 2; 3].
Proof.
  destruct (genOrderFantasy (league 3 (-1) 500 20000) (rnd_gauss 0) 1000 (Some 1)
              (db_with [] [])) as [db'|e] eqn:H.
  - exists db'. split; [reflexivity|].
    destruct (genOrderFantasy_snake _ _ _ _ _ _ H)
      as (tids & n & Hs & Hlen & _ & Hr & _).
    vm_compute in Hs. injection Hs as <- <-.
    split; [exact Hlen|].
    destruct (Hr 1 ltac:(lia)) as [H1 _]. destruct (Hr 2 ltac:(lia)) as [H2 H3].
    split; [exact H1|]. split; [exact H2|exact H3].
  - exfalso. vm_compute in H. discriminate.
Defined.

End FantasyMore.

(** ** selectPlayer and untilUserOrEnd: errors and whole runs *)

Module SelectMore.
Import Schedule Draft Sample Props Terms.

Lemma draftPlayer_keeps (g : G) (pk : PickRealized) (p p' : Player) :
  draftPlayer g pk p = Ok p' →
  pid p' = pid p ∧ p_tid p' = tid pk ∧ value p' = value p
  ∧ ratings p' = ratings p.
Proof.
  unfold draftPlayer. destruct (inFantasyDraft g); cbn [negb andb res_bind].
  - destruct (_ <=? _); intros [= <-]; done.
  - simpl ratings. destruct (ratings p !! 0%nat) as [r|]; [|done].
    cbn [of_option res_bind].
    destruct (getRookieSalaries g) as [table|]; [|done]. cbn [res_bind].
    intros [= <-]. done.
Qed.

Lemma selectPlayer_inv (g : G) (db db' : DB) (pk : PickRealized) (x : Z) :
  selectPlayer g db pk x = Ok db' →
  ∃ i p p', list_find (λ q, pid q = x) (players db) = Some (i, p)
    ∧ draftPlayer g pk p = Ok p' ∧ db' = set_player i p' db.
Proof.
  unfold selectPlayer.
  destruct (list_find _ (players db)) as [[i p]|] eqn:E; [|done].
  cbn [of_option res_bind fst snd].
  destruct (draftPlayer g pk p) as [p'|] eqn:Ed; [|done]. cbn [res_bind].
  intros [= <-]. by exists i, p, p'.
Qed.

(** X19: [selectPlayer] throws a TypeError when no stored player has the
    given id, and, outside a fantasy draft, when the player has no
    ratings. For a league with a number of teams that is not negative it
    succeeds in every other case, and then it changes nothing but the one
    player: the draft order, the draft picks and every other player stay,
    and the player keeps his id, value and ratings. *)
Theorem selectPlayer_defined (g : G) (db : DB) (pk : PickRealized) (x : Z) :
  0 ≤ numTeams g →
  (list_find (λ q, pid q = x) (players db) = None →
     selectPlayer g db pk x = Err TypeError)
  ∧ (∀ i p, list_find (λ q, pid q = x) (players db) = Some (i, p) →
       phase g ≠ FANTASY_DRAFT (PHASE g) → ratings p = [] →
       selectPlayer g db pk x = Err TypeError)
  ∧ (∀ i p, list_find (λ q, pid q = x) (players db) = Some (i, p) →
       (phase g ≠ FANTASY_DRAFT (PHASE g) → ratings p ≠ []) →
       ∃ p', selectPlayer g db pk x = Ok (set_player i p' db)
         ∧ pid p' = x ∧ p_tid p' = tid pk ∧ value p' = value p
         ∧ ratings p' = ratings p).
Proof.
  intros Hn. split; [|split].
  - intros E. unfold selectPlayer. by rewrite E.
  - intros i p E Hph Hr. unfold selectPlayer. rewrite E.
    cbn [of_option res_bind fst snd]. unfold draftPlayer.
    assert (inFantasyDraft g = false) as ->.
    { apply not_true_is_false. by rewrite SelectFacts.inFantasyDraft_true. }
    simpl. by rewrite Hr.
  - intros i p E Hr.
    assert (∃ p', draftPlayer g pk p = Ok p') as [p' Hd].
    { unfold draftPlayer, getRookieSalaries.
      rewrite RookieFacts.getRookieSalaries_fuel_ok by (done || lia).
      destruct (inFantasyDraft g) eqn:Ef; cbn [negb andb res_bind].
      - destruct (_ <=? _); by eexists.
      - simpl ratings. destruct (ratings p) as [|r rs] eqn:Hrs.
        + exfalso. apply Hr; [|done].
          intros Hph. apply SelectFacts.inFantasyDraft_true in Hph. congruence.
        + cbn [lookup list_lookup of_option res_bind]. by eexists. }
    exists p'. unfold selectPlayer. rewrite E. cbn [of_option res_bind fst snd].
    rewrite Hd. cbn [res_bind]. split; [done|].
    destruct (draftPlayer_keeps _ _ _ _ Hd) as (H1 & H2 & H3 & H4).
    apply list_find_Some in E as (_ & Hx & _). rewrite H1. done.
Qed.

Lemma afterDoneAuto_inv (g g' : G) (queue : list PickRealized)
    (pids0 pids : list Z) (db db' : DB) :
  afterDoneAuto g queue pids0 db = Ok (pids, g', db') →
  pids = pids0 ∧ draftOrder db' = queue
  ∧ (queue ≠ [] → g' = g ∧ players db' = players db)
  ∧ ∀ q, q ∈ players db → realTeam g (p_tid q) → q ∈ players db'.
Proof.
  unfold afterDoneAuto. case_bool_decide as Hq.
  - destruct (inFantasyDraft g).
    + destruct (nextPhase g) as [ph|]; [|done]. cbn [res_bind].
      intros [= <- <- <-]. simpl. split; [done|]. split; [done|].
      split; [by destruct queue|].
      intros q Hin [H1 H2]. apply list_elem_of_fmap.
      exists q. split.
      * unfold retag. by rewrite bool_decide_eq_false_2.
      * apply list_elem_of_fmap. exists q. split; [|done].
        unfold retag. by rewrite bool_decide_eq_false_2.
    + intros [= <- <- <-]. simpl. split; [done|]. split; [done|].
      split; [by destruct queue|]. done.
  - intros [= <- <- <-]. simpl. done.
Qed.

Lemma selectPlayer_keeps (g : G) (db db' : DB) (pk : PickRealized) (x : Z) :
  selectPlayer g db pk x = Ok db' →
  (∀ q, q ∈ players db → pid q ≠ x → q ∈ players db')
  ∧ onTeam db' x (tid pk).
Proof.
  intros H. destruct (selectPlayer_inv _ _ _ _ _ H) as (i & p & p' & E & Hd & ->).
  apply list_find_Some in E as (Hi & Hx & _).
  destruct (draftPlayer_keeps _ _ _ _ Hd) as (H1 & H2 & _).
  split.
  - intros q Hq Hne. apply list_elem_of_lookup in Hq as [j Hj].
    apply list_elem_of_lookup. exists j. simpl.
    rewrite list_lookup_insert_ne; [done|]. intros ->. congruence.
  - exists p'. split; [|split; [congruence|done]].
    apply list_elem_of_lookup. exists i. simpl.
    apply list_lookup_insert_eq. by eapply lookup_lt_Some.
Qed.

Lemma autoSelect_keeps (g : G) (rnd : Random) (order : list PickRealized) :
  ∀ k pool pids0 db pids g' db',
    autoSelectPlayer g rnd k order pool pids0 db = Ok (pids, g', db') →
    ∀ q, q ∈ players db → pid q ∉ pid <$> pool → realTeam g (p_tid q) →
         q ∈ players db'.
Proof.
  induction order as [|pk rest IH]; intros k pool pids0 db pids g' db' Hrun.
  - simpl in Hrun. apply afterDoneAuto_inv in Hrun as (_ & _ & _ & Hk).
    intros q Hq _ Hr. by apply Hk.
  - cbn [autoSelectPlayer] in Hrun. destruct (isUserPick g pk).
    + apply afterDoneAuto_inv in Hrun as (_ & _ & _ & Hk).
      intros q Hq _ Hr. by apply Hk.
    + destruct (pool !! JS.floor_abs (gauss rnd k)) as [p|] eqn:Ep; [|done].
      cbn [of_option res_bind] in Hrun.
      destruct (selectPlayer g db pk (pid p)) as [db1|] eqn:Es; [|done].
      cbn [res_bind] in Hrun.
      intros q Hq Hnin Hr.
      destruct (selectPlayer_keeps _ _ _ _ _ Es) as [Hkeep _].
      apply (IH _ _ _ _ _ _ _ Hrun).
      * apply Hkeep; [done|]. intros E. apply Hnin. rewrite E.
        apply list_elem_of_fmap. exists p. split; [done|].
        by eapply list_elem_of_lookup_2.
      * intros Hin. apply Hnin.
        apply list_elem_of_fmap in Hin as (y & -> & Hy).
        apply list_elem_of_fmap. exists y. split; [done|].
        by eapply list_elem_of_delete_inv.
      * done.
Qed.

Lemma autoSelect_run (g : G) (rnd : Random) (order : list PickRealized) :
  ∀ k pool pids0 db pids g' db',
    autoSelectPlayer g rnd k order pool pids0 db = Ok (pids, g', db') →
    ∃ done new,
      order = done ++ draftOrder db'
      ∧ pids = pids0 ++ new
      ∧ length new = length done
      ∧ Forall (λ pk, isUserPick g pk = false) done
      ∧ match draftOrder db' with
        | [] => True
        | pk :: _ => isUserPick g pk = true ∧ g' = g
        end
      ∧ new ⊆+ pid <$> pool
      ∧ (NoDup (pid <$> pool) → Forall (λ pk, realTeam g (tid pk)) order →
         Forall2 (λ x pk, onTeam db' x (tid pk)) new done).
Proof.
  induction order as [|pk rest IH]; intros k pool pids0 db pids g' db' Hrun.
  - simpl in Hrun. apply afterDoneAuto_inv in Hrun as (-> & Hq & _ & _).
    exists [], []. rewrite Hq. split; [done|]. split; [by rewrite app_nil_r|].
    split; [done|]. split; [constructor|]. split; [done|].
    split; [apply submseteq_nil_l|]. intros _ _. constructor.
  - cbn [autoSelectPlayer] in Hrun. destruct (isUserPick g pk) eqn:Eu.
    + apply afterDoneAuto_inv in Hrun as (-> & Hq & Hg & _).
      exists [], []. rewrite Hq. destruct Hg as [-> _]; [done|].
      split; [done|]. split; [by rewrite app_nil_r|].
      split; [done|]. split; [constructor|]. split; [done|].
      split; [apply submseteq_nil_l|]. intros _ _. constructor.
    + destruct (pool !! JS.floor_abs (gauss rnd k)) as [p|] eqn:Ep; [|done].
      cbn [of_option res_bind] in Hrun.
      destruct (selectPlayer g db pk (pid p)) as [db1|] eqn:Es; [|done].
      cbn [res_bind] in Hrun.
      destruct (IH _ _ _ _ _ _ _ Hrun)
        as (done & new & Ho & Hp & Hlen & Hnu & Hhead & Hsub & Hteams).
      pose proof (delete_Permutation _ _ _ Ep) as Hperm.
      exists (pk :: done), (pid p :: new).
      split; [by rewrite Ho|]. split; [by rewrite Hp, <- app_assoc|].
      split; [simpl; by rewrite Hlen|]. split; [by constructor|].
      split; [done|]. split.
      * rewrite Hperm, fmap_cons. by apply submseteq_skip.
      * intros Hnd Hreal. apply Forall_cons in Hreal as [Hpk Hreal].
        rewrite Hperm, fmap_cons in Hnd. apply NoDup_cons in Hnd as [Hnin Hnd].
        constructor; [|by apply Hteams].
        destruct (selectPlayer_keeps _ _ _ _ _ Es) as [_ (q & Hq & Hx & Ht)].
        exists q. split; [|done].
        apply (autoSelect_keeps _ _ _ _ _ _ _ _ _ _ Hrun); [done| |].
        -- by rewrite Hx.
        -- by rewrite Ht.
Qed.

Lemma pool_pids (g : G) (db : DB) :
  pid <$> JS.sort (λ a b, (value b - value a)%Q) (undrafted g db)
  ≡ₚ pid <$> undrafted g db.
Proof. apply fmap_Permutation, LotteryFacts.sort_Permutation. Qed.

(** X17: a completed [untilUserOrEnd] works off the front of the draft
    order: it makes one selection for every pick up to the first pick of a
    user's team (none at all in auto play) and leaves the rest of the
    order, starting with that pick, in the store; when picks are left the
    game attributes are unchanged. The ids it returns are those of
    players that were undrafted, one per pick in order, and no player of
    the pool is drafted twice. *)
Theorem untilUserOrEnd_run (g g' : G) (rnd : Random) (db db' : DB)
    (pids : list Z) :
  untilUserOrEnd g rnd db = Ok (pids, g', db') →
  ∃ done,
    draftOrder db = done ++ draftOrder db'
    ∧ length pids = length done
    ∧ Forall (λ pk, isUserPick g pk = false) done
    ∧ match draftOrder db' with
      | [] => True
      | pk :: _ => isUserPick g pk = true ∧ g' = g
      end
    ∧ pids ⊆+ pid <$> undrafted g db
    ∧ (NoDup (pid <$> undrafted g db) → NoDup pids).
Proof.
  unfold untilUserOrEnd. intros Hrun.
  destruct (autoSelect_run _ _ _ _ _ _ _ _ _ _ Hrun)
    as (done & new & Ho & Hp & Hlen & Hnu & Hhead & Hsub & _).
  simpl in Hp. subst pids. fold (undrafted g db) in Hsub.
  rewrite pool_pids in Hsub.
  exists done. repeat split; try done.
  intros Hnd. apply submseteq_Permutation in Hsub as [k Hk].
  rewrite Hk in Hnd. by apply NoDup_app in Hnd as [? _].
Qed.

(** X18: when the stored players have pairwise different ids and no pick
    of the order belongs to one of the two markers of undrafted players,
    every player a completed [untilUserOrEnd] drafted is, in the store it
    leaves, on the team of the pick he was taken with: the i-th returned
    id is on the team of the i-th pick worked off. *)
Theorem untilUserOrEnd_teams (g g' : G) (rnd : Random) (db db' : DB)
    (pids : list Z) :
  NoDup (pid <$> players db) →
  Forall (λ pk, realTeam g (tid pk)) (draftOrder db) →
  untilUserOrEnd g rnd db = Ok (pids, g', db') →
  ∃ done,
    draftOrder db = done ++ draftOrder db'
    ∧ Forall2 (λ x pk, onTeam db' x (tid pk)) pids done.
Proof.
  unfold untilUserOrEnd. intros Hnd Hreal Hrun.
  destruct (autoSelect_run _ _ _ _ _ _ _ _ _ _ Hrun)
    as (done & new & Ho & Hp & _ & _ & _ & _ & Hteams).
  simpl in Hp. subst pids. exists done. split; [done|].
  apply Hteams; [|done]. fold (undrafted g db). rewrite pool_pids.
  eapply sublist_NoDup; [exact Hnd|].
  apply fmap_sublist. unfold undrafted. apply sublist_filter.
Qed.

Lemma selectPlayer_store (g : G) (db db' : DB) (pk : PickRealized) (x : Z) :
  selectPlayer g db pk x = Ok db' →
  pid <$> players db' = pid <$> players db
  ∧ (Forall (λ q, ratings q ≠ []) (players db) →
     Forall (λ q, ratings q ≠ []) (players db')).
Proof.
  intros H. destruct (selectPlayer_inv _ _ _ _ _ H) as (i & p & p' & E & Hd & ->).
  apply list_find_Some in E as (Hi & Hx & _).
  destruct (draftPlayer_keeps _ _ _ _ Hd) as (H1 & _ & _ & H4).
  simpl. split.
  - rewrite list_fmap_insert, H1. apply list_insert_id.
    by rewrite list_lookup_fmap, Hi.
  - intros Hall. apply Forall_insert; [done|]. rewrite H4.
    exact (proj1 (Forall_forall _ _) Hall p (list_elem_of_lookup_2 _ _ _ Hi)).
Qed.

Lemma autoSelect_completes (g : G) (rnd : Random) (order : list PickRealized) :
  0 ≤ numTeams g → phase g ≠ FANTASY_DRAFT (PHASE g) →
  ∀ k pool pids0 db,
    Forall (λ q, ratings q ≠ []) (players db) →
    (∀ p, p ∈ pool → pid p ∈ pid <$> players db) →
    (∀ j, (j < length order)%nat →
          (JS.floor_abs (gauss rnd (k + j)) + j < length pool)%nat) →
    ∃ r, autoSelectPlayer g rnd k order pool pids0 db = Ok r.
Proof.
  intros Hn Hph.
  assert (inFantasyDraft g = false) as Hnf.
  { apply not_true_is_false. by rewrite SelectFacts.inFantasyDraft_true. }
  induction order as [|pk rest IH]; intros k pool pids0 db Hrat Hpool Hdraw.
  - simpl. unfold afterDoneAuto. simpl. rewrite Hnf. by eexists.
  - cbn [autoSelectPlayer]. destruct (isUserPick g pk).
    + unfold afterDoneAuto. simpl. by eexists.
    + pose proof (Hdraw 0%nat ltac:(simpl; lia)) as H0.
      rewrite !Nat.add_0_r in H0.
      destruct (lookup_lt_is_Some_2 pool _ H0) as [p Hp]. rewrite Hp.
      cbn [of_option res_bind].
      assert (∃ iq, list_find (λ q, pid q = pid p) (players db) = Some iq)
        as [[i q] Hfind].
      { specialize (Hpool p (list_elem_of_lookup_2 _ _ _ Hp)).
        apply list_elem_of_fmap in Hpool as (q & Hq & Hin).
        destruct (list_find_elem_of (λ q, pid q = pid p) (players db) q Hin)
          as [iq ?]; [done|]. by exists iq. }
      pose proof Hfind as Hfind'.
      apply list_find_Some in Hfind' as (Hi & _ & _).
      destruct (SelectFacts.selectPlayer_succeeds g db pk (pid p) i q Hn Hfind)
        as [db1 Hsel].
      { exact (proj1 (Forall_forall _ _) Hrat q (list_elem_of_lookup_2 _ _ _ Hi)). }
      rewrite Hsel. cbn [res_bind].
      destruct (selectPlayer_store _ _ _ _ _ Hsel) as [Hpids Hrat1].
      apply IH.
      * by apply Hrat1.
      * intros y Hy. rewrite Hpids. apply Hpool.
        by eapply list_elem_of_delete_inv.
      * intros j Hj. specialize (Hdraw (S j) ltac:(simpl; lia)).
        rewrite length_delete by by eexists.
        replace (S k + j)%nat with (k + S j)%nat by lia. lia.
Qed.

(** X24: [untilUserOrEnd] completes in an ordinary draft whenever every
    stored player has a ratings entry and every draw stays inside what is
    left of the pool: the k-th draw (counted from 0) selects a position
    below the number of undrafted players minus k. The league must not
    have a negative number of teams. *)
Theorem untilUserOrEnd_completes (g : G) (rnd : Random) (db : DB) :
  0 ≤ numTeams g → phase g ≠ FANTASY_DRAFT (PHASE g) →
  Forall (λ q, ratings q ≠ []) (players db) →
  (∀ k, (k < length (draftOrder db))%nat →
        (JS.floor_abs (gauss rnd k) + k < length (undrafted g db))%nat) →
  ∃ pids g' db', untilUserOrEnd g rnd db = Ok (pids, g', db').
Proof.
  intros Hn Hph Hrat Hdraw. unfold untilUserOrEnd.
  destruct (autoSelect_completes g rnd (draftOrder db) Hn Hph 0
              (JS.sort (λ a b, (value b - value a)%Q) (undrafted g db)) [] db)
    as [[[pids g'] db'] Hrun].
  - done.
  - intros p Hp. rewrite LotteryFacts.sort_Permutation in Hp.
    apply list_elem_of_fmap. exists p. split; [done|].
    unfold undrafted in Hp. by apply list_elem_of_filter in Hp as [_ ?].
  - intros j Hj. rewrite (Permutation_length (LotteryFacts.sort_Permutation _ _)).
    by apply Hdraw.
  - by exists pids, g', db'.
Qed.

Lemma selectPlayer_defined_witness :
  selectPlayer (league 30 5 500 20000) (db_with [] [prospect 7 50])
    (pick_of 1 1 3) 8 = Err TypeError.
Proof.
  apply (proj1 (selectPlayer_defined (league 30 5 500 20000)
                  (db_with [] [prospect 7 50]) (pick_of 1 1 3) 8
                  ltac:(simpl; lia))).
  reflexivity.
Defined.

Lemma untilUserOrEnd_run_witness :
  ∃ pids g' db' done,
    untilUserOrEnd (league 30 5 500 20000) (rnd_gauss 0)
      (db_with [pick_of 1 1 1; pick_of 1 2 2; pick_of 1 3 0; pick_of 1 4 3]
         [prospect 7 50; prospect 8 40; prospect 9 30])
    = Ok (pids, g', db')
    ∧ [pick_of 1 1 1; pick_of 1 2 2; pick_of 1 3 0; pick_of 1 4 3]
      = done ++ draftOrder db'
    ∧ length pids = length done
    ∧ NoDup pids.
Proof.
  destruct (untilUserOrEnd (league 30 5 500 20000) (rnd_gauss 0)
              (db_with [pick_of 1 1 1; pick_of 1 2 2; pick_of 1 3 0; pick_of 1 4 3]
                 [prospect 7 50; prospect 8 40; prospect 9 30]))
    as [[[pids g'] db']|e] eqn:H.
  - destruct (untilUserOrEnd_run _ _ _ _ _ _ H)
      as (done & H1 & H2 & _ & _ & _ & H6).
    exists pids, g', db', done. split; [reflexivity|]. split; [exact H1|].
    split; [exact H2|]. apply H6.
    apply (bool_decide_unpack _). vm_compute. exact I.
  - exfalso. vm_compute in H. discriminate.
Defined.

Lemma untilUserOrEnd_teams_witness :
  ∃ pids g' db' done,
    untilUserOrEnd (league 30 5 500 20000) (rnd_gauss 0)
      (db_with [pick_of 1 1 1; pick_of 1 2 2; pick_of 1 3 0; pick_of 1 4 3]
         [prospect 7 50; prospect 8 40; prospect 9 30])
    = Ok (pids, g', db')
    ∧ Forall2 (λ x pk, onTeam db' x (tid pk)) pids done.
Proof.
  destruct (untilUserOrEnd (league 30 5 500 20000) (rnd_gauss 0)
              (db_with [pick_of 1 1 1; pick_of 1 2 2; pick_of 1 3 0; pick_of 1 4 3]
                 [prospect 7 50; prospect 8 40; prospect 9 30]))
    as [[[pids g'] db']|e] eqn:H.
  - destruct (untilUserOrEnd_teams (league 30 5 500 20000) g' (rnd_gauss 0)
                (db_with [pick_of 1 1 1; pick_of 1 2 2; pick_of 1 3 0; pick_of 1 4 3]
                   [prospect 7 50; prospect 8 40; prospect 9 30]) db' pids)
      as (done & _ & H2).
    + apply (bool_decide_unpack _). vm_compute. exact I.
    + repeat (constructor; [split; simpl; lia|]). constructor.
    + exact H.
    + exists pids, g', db', done. split; [reflexivity|exact H2].
  - exfalso. vm_compute in H. discriminate.
Defined.

Lemma untilUserOrEnd_completes_witness :
  ∃ pids g' db',
    untilUserOrEnd (league 30 5 500 20000) (rnd_gauss (3 # 2))
      (db_with [pick_of 1 1 1; pick_of 1 2 2]
         [prospect 7 50; prospect 8 40; prospect 9 30; prospect 10 20])
    = Ok (pids, g', db').
Proof.
  apply untilUserOrEnd_completes.
  - simpl. lia.
  - simpl. lia.
  - repeat constructor; done.
  - intros k Hk. simpl in Hk.
    assert (length (undrafted (league 30 5 500 20000)
                      (db_with [pick_of 1 1 1; pick_of 1 2 2]
                         [prospect 7 50; prospect 8 40; prospect 9 30;
                          prospect 10 20])) = 4%nat) as -> by reflexivity.
    assert (JS.floor_abs (gauss (rnd_gauss (3 # 2)) k) = 1%nat) as ->
      by reflexivity.
    lia.
Defined.

End SelectMore.

(** ** getRookieSalaries: the bounds of the rescaled table *)

Module RookieMore.
Import Schedule Draft Sample Props Terms.
Import RookieFacts.

Lemma Math_round_near (x : Q) :
  (x - (1 # 2) < JS.Math_round x <= x + (1 # 2))%Q.
Proof.
  unfold JS.Math_round. split.
  - pose proof (Qlt_floor (x + (1 # 2))) as H.
    rewrite inject_Z_plus in H. change (inject_Z 1) with 1%Q in H. lra.
  - apply Qfloor_le.
Qed.

(** With the exact steps of [rescale], an entry is within 5 of the value
    [y] that goes into [Math.round]. The source rounds each step to a
    double, which can move an entry to the next multiple of 10 when [y] ends
    in 5; the margin of 10 in the theorem below covers it. *)
Lemma rescale_near (g : G) (s : Q) :
  let y := ((s - 500) * (((25 # 100) * maxContract g - minContract g) / 4500)
            + minContract g)%Q in
  (y - 5 < rescale g s <= y + 5)%Q.
Proof.
  cbv zeta. unfold rescale.
  set (y := ((s - 500) * (((25 # 100) * maxContract g - minContract g) / 4500)
             + minContract g)%Q).
  pose proof (Math_round_near (y / 10)) as [H1 H2].
  assert (y / 10 * 10 == y)%Q as Hy by (field; discriminate).
  split; [|].
  - assert ((y / 10 - (1 # 2)) * 10 < JS.Math_round (y / 10) * 10)%Q
      by (apply Qmult_lt_compat_r; [reflexivity|done]).
    lra.
  - assert (JS.Math_round (y / 10) * 10 <= (y / 10 + (1 # 2)) * 10)%Q
      by (apply Qmult_le_compat_r; [done|discriminate]).
    lra.
Qed.

Lemma base_le_5000 : Forall (λ x, 500 <= x <= 5000)%Q baseRookieSalaries.
Proof.
  apply Forall_forall. intros x Hx.
  assert (forallb (λ x, Qle_bool 500 x && Qle_bool x 5000) baseRookieSalaries
          = true) as Hb by (vm_compute; reflexivity).
  rewrite forallb_forall in Hb. apply list_elem_of_In, Hb in Hx.
  apply andb_true_iff in Hx as [H1 H2]. by rewrite !Qle_bool_iff in *.
Qed.

Lemma resized_range (g : G) : Forall (λ x, 500 <= x <= 5000)%Q (resized g).
Proof.
  unfold resized. destruct (60 <=? numTeams g * 2).
  - apply Forall_app. split; [apply base_le_5000|].
    apply Forall_replicate. split; [apply Qle_refl|discriminate].
  - apply Forall_take, base_le_5000.
Qed.

(** The exact value the loop computes for a base entry between 500 and
    5000 lies between the minimum contract and a quarter of the maximum
    contract. *)
Lemma scaled_range (g : G) (s : Q) :
  (minContract g <= (25 # 100) * maxContract g)%Q → (500 <= s <= 5000)%Q →
  (minContract g
   <= (s - 500) * (((25 # 100) * maxContract g - minContract g) / 4500)
      + minContract g
   <= (25 # 100) * maxContract g)%Q.
Proof.
  intros Hk [H1 H2].
  set (d := ((25 # 100) * maxContract g - minContract g)%Q).
  assert (0 <= d)%Q as Hd by (unfold d; lra).
  assert ((s - 500) * (d / 4500) == (s - 500) / 4500 * d)%Q as -> by field.
  assert (0 <= (s - 500) / 4500 <= 1)%Q as [Ha Hb].
  { split.
    - apply Qle_shift_div_l; [reflexivity|lra].
    - apply Qle_shift_div_r; [reflexivity|lra]. }
  assert (0 <= (s - 500) / 4500 * d)%Q by by apply Qmult_le_0_compat.
  assert ((s - 500) / 4500 * d <= 1 * d)%Q
    by (apply Qmult_le_compat_r; done).
  unfold d in *. split; lra.
Qed.

(** X20: "scale so max will be 1/4 the max contract ... add min back". For
    contract bounds other than 500 and 20000 with
    [minContract <= maxContract / 4], in a league of at least one team,
    the rescaled table follows the two bounds to within its rounding to
    multiples of 10: the first pick is paid within 10 of a quarter of the
    maximum contract, every entry is 10 times an integer and lies less
    than 10 outside the range from the minimum contract to a quarter of
    the maximum contract, and with more than 30 teams the last pick is
    paid within 10 of the minimum contract. The margin is one step of the
    rounding, so the statement does not depend on how the values before
    [Math.round] are themselves rounded. *)
Theorem getRookieSalaries_bounds (g : G) :
  1 ≤ numTeams g → needsRescale g = true →
  (minContract g <= (25 # 100) * maxContract g)%Q →
  ∃ l, getRookieSalaries g = Ok l
    ∧ (∃ x, head l = Some x
            ∧ ((25 # 100) * maxContract g - 10 < x
               < (25 # 100) * maxContract g + 10)%Q)
    ∧ Forall (λ x, (minContract g - 10 < x < (25 # 100) * maxContract g + 10)%Q
                   ∧ ∃ z, x = (inject_Z z * 10)%Q) l
    ∧ (31 ≤ numTeams g →
       ∃ x, last l = Some x
            ∧ (minContract g - 10 < x < minContract g + 10)%Q).
Proof.
  intros Hn Hre Hk. exists (rescale g <$> resized g).
  split.
  { unfold getRookieSalaries. rewrite getRookieSalaries_fuel_ok by lia.
    by rewrite Hre. }
  split; [|split].
  - exists (rescale g 5000). split.
    + unfold resized. destruct (60 <=? numTeams g * 2) eqn:E; [done|].
      apply Z.leb_gt in E.
      by destruct (Z.to_nat (numTeams g * 2)) as [|n] eqn:En; [lia|].
    + pose proof (rescale_near g 5000) as [H1 H2]. cbv zeta in H1, H2.
      assert ((5000 - 500)
              * (((25 # 100) * maxContract g - minContract g) / 4500)
              + minContract g == (25 # 100) * maxContract g)%Q as Hy by field.
      rewrite Hy in H1, H2. split; lra.
  - apply Forall_fmap. eapply Forall_impl; [apply resized_range|].
    intros x Hx. simpl. split.
    + pose proof (rescale_near g x) as [H1 H2]. cbv zeta in H1, H2.
      pose proof (scaled_range g x Hk Hx) as [H3 H4]. split; lra.
    + unfold rescale, JS.Math_round. by eexists.
  - intros H31. exists (rescale g 500). split.
    + unfold resized.
      destruct (60 <=? numTeams g * 2) eqn:E; [|apply Z.leb_gt in E; lia].
      destruct (Z.to_nat (numTeams g * 2) - 60)%nat as [|n] eqn:En; [lia|].
      rewrite fmap_app, fmap_replicate.
      replace (S n) with (n + 1)%nat by lia.
      rewrite replicate_add.
      change (replicate 1 (rescale g 500)) with [rescale g 500].
      by rewrite app_assoc, last_snoc.
    + pose proof (rescale_near g 500) as [H1 H2]. cbv zeta in H1, H2.
      assert ((500 - 500)
              * (((25 # 100) * maxContract g - minContract g) / 4500)
              + minContract g == minContract g)%Q as Hy by field.
      rewrite Hy in H1, H2. split; lra.
Qed.

Lemma while_diverges {S} (cond : S → bool) (body : S → res S) :
  (∀ s, cond s = true) → (∀ s, ∃ s', body s = Ok s') →
  ∀ fuel s, JS.while fuel cond body s = Err OutOfFuel.
Proof.
  intros Hc Hb. induction fuel as [|fuel IH]; intros s; simpl; rewrite Hc.
  - done.
  - destruct (Hb s) as [s' ->]. cbn [res_bind]. apply IH.
Qed.

Lemma while_skip {S} (cond : S → bool) (body : S → res S) (fuel : nat) (s : S) :
  cond s = false → JS.while fuel cond body s = Ok s.
Proof. intros H. destruct fuel; simpl; by rewrite H. Qed.

(** X23: the edges of [getRookieSalaries] in the number of teams. With no
    team the table is empty, rescaled or not. With a negative number of
    teams the second loop never ends (popping the empty array leaves it
    empty, and its length stays above [2 * numTeams]): whatever bound is
    put on the loops, it is reached. *)
Theorem getRookieSalaries_edges (g : G) :
  (numTeams g = 0 → getRookieSalaries g = Ok [])
  ∧ (numTeams g < 0 → ∀ fuel, getRookieSalaries_fuel fuel g = Err OutOfFuel).
Proof.
  split.
  - intros H0. unfold getRookieSalaries.
    rewrite getRookieSalaries_fuel_ok by lia.
    unfold resized. rewrite H0. simpl. by destruct (needsRescale g).
  - intros Hneg fuel. unfold getRookieSalaries_fuel, resizeSalaries.
    assert (JS.while fuel (λ l, Z.of_nat (length l) <? numTeams g * 2)
              (λ l, Ok (l ++ [500%Q])) baseRookieSalaries
            = Ok baseRookieSalaries) as ->.
    { apply while_skip. apply Z.ltb_ge. simpl. lia. }
    cbn [res_bind]. rewrite while_diverges; [done| |by eexists].
    intros l. apply Z.ltb_lt. lia.
Qed.

Lemma getRookieSalaries_bounds_witness :
  ∃ l x y, getRookieSalaries (league 32 5 500 23900) = Ok l
    ∧ head l = Some x ∧ (5965 < x < 5985)%Q
    ∧ last l = Some y ∧ (490 < y < 510)%Q.
Proof.
  destruct (getRookieSalaries_bounds (league 32 5 500 23900))
    as (l & H1 & (x & Hx & Hx1 & Hx2) & _ & H4).
  - simpl. lia.
  - reflexivity.
  - simpl. lra.
  - destruct H4 as (y & Hy & Hy1 & Hy2); [simpl; lia|].
    exists l, x, y. split; [exact H1|]. split; [exact Hx|].
    split; [simpl in Hx1, Hx2; lra|]. split; [exact Hy|].
    simpl in Hy1, Hy2. lra.
Defined.

Lemma getRookieSalaries_edges_witness :
  getRookieSalaries (league 0 5 750 30000) = Ok []
  ∧ getRookieSalaries (league (-1) 5 500 20000) = Err OutOfFuel.
Proof.
  split.
  - apply (proj1 (getRookieSalaries_edges (league 0 5 750 30000))). reflexivity.
  - apply (proj2 (getRookieSalaries_edges (league (-1) 5 500 20000))).
    simpl. lia.
Defined.

End RookieMore.
